(** * Quantization-parameter propagation driver

    A shallow embedding of
    [tensorflow/compiler/mlir/lite/quantization/quantization_driver.cc]
    and the properties of its state store, assignment contract, same-scale
    resolution, constant preprocessing, bias adjustment and materializer.

    Conventions.
    - [double] is IEEE binary64 ([PrimFloat.float]); [float] values read from
      a constant are held widened to binary64, as the source compares them.
    - An [Operation*] is a handle: the index of the node in the function
      body.  The body only grows (the driver never erases a node), so handles
      are stable.  The position of a node inside its block is not tracked.
    - Every function that dereferences a handle, an index or a null type
      returns [None] where the C++ has no defined behaviour. *)

From Stdlib Require Import ZArith Floats.
From stdpp Require Import gmap list option.

Local Open Scope Z_scope.
Local Open Scope nat_scope.

(** ** MLIR types and quantized types *)

(** Equality of binary64 values as Rocq terms; decided by the primitive
    comparison of the standard library. *)
#[global] Instance float_eq_dec : EqDecision float.
Proof.
  intros x y. destruct (PrimFloat.Leibniz.eqb x y) eqn:E.
  - left. by apply FloatAxioms.Leibniz.eqb_spec.
  - right. intros H. apply FloatAxioms.Leibniz.eqb_spec in H. congruence.
Defined.

(** The primitive element types a tensor can have. *)
Inductive ScalarType :=
| FloatType (width : Z)
| IntegerType (width : Z).

#[global] Instance ScalarType_eq_dec : EqDecision ScalarType.
Proof. solve_decision. Defined.

(** The components shared by every [quant::QuantizedType]. *)
Record QuantizedBase := {
  getFlags : Z;
  getStorageType : ScalarType;
  getExpressedType : ScalarType;
  getStorageTypeMin : Z;
  getStorageTypeMax : Z
}.

#[global] Instance QuantizedBase_eq_dec : EqDecision QuantizedBase.
Proof. solve_decision. Defined.

Inductive QuantizedType :=
| UniformQuantizedType (base : QuantizedBase) (scale : float) (zeroPoint : Z)
| UniformQuantizedPerAxisType (base : QuantizedBase) (scales : list float)
    (zeroPoints : list Z) (quantizedDimension : Z).

#[global] Instance QuantizedType_eq_dec : EqDecision QuantizedType.
Proof. solve_decision. Defined.

(** [using QuantParams = QuantizedType]: an MLIR type handle, which may be
    the null handle [quant::QuantizedType()], here [None].  Handles are
    uniqued, so [==] on them is equality of the components. *)
Definition QuantParams := option QuantizedType.

Definition getBase (q : QuantizedType) : QuantizedBase :=
  match q with
  | UniformQuantizedType b _ _ => b
  | UniformQuantizedPerAxisType b _ _ _ => b
  end.

Definition getStorageTypeIntegralWidth (q : QuantizedType) : Z :=
  match getStorageType (getBase q) with
  | IntegerType w => w
  | FloatType w => w
  end.

Inductive ElementType :=
| Plain (t : ScalarType)
| Quantized (q : QuantizedType).

#[global] Instance ElementType_eq_dec : EqDecision ElementType.
Proof. solve_decision. Defined.

Inductive Type_ :=
| ShapedType (shape : list Z) (elementType : ElementType)
| Primitive (t : ElementType)
| NoneType.

#[global] Instance Type_eq_dec : EqDecision Type_.
Proof. solve_decision. Defined.

(** [quant::QuantizedType::getQuantizedElementType]: the quantized type of
    a primitive or of the elements of a container, the null type otherwise. *)
Definition getQuantizedElementType (t : Type_) : QuantParams :=
  match t with
  | ShapedType _ (Quantized q) => Some q
  | Primitive (Quantized q) => Some q
  | _ => None
  end.

(** [QuantizedType::castFromExpressedType]: the type [candidate] becomes
    when its expressed elements are replaced by [q]; null when [candidate]
    does not hold elements of the expressed type of [q]. *)
Definition castFromExpressedType (q : QuantizedType) (candidate : Type_)
  : option Type_ :=
  match candidate with
  | Primitive e =>
      if decide (e = Plain (getExpressedType (getBase q)))
      then Some (Primitive (Quantized q)) else None
  | ShapedType shape e =>
      if decide (e = Plain (getExpressedType (getBase q)))
      then Some (ShapedType shape (Quantized q)) else None
  | NoneType => None
  end.

(** [QuantizedType::castToExpressedType]. *)
Definition castToExpressedType (t : Type_) : option Type_ :=
  match t with
  | Primitive (Quantized q) => Some (Primitive (Plain (getExpressedType (getBase q))))
  | ShapedType shape (Quantized q) =>
      Some (ShapedType shape (Plain (getExpressedType (getBase q))))
  | _ => None
  end.

(** [type.dyn_cast<ShapedType>()] followed by
    [getElementType().isa<FloatType>()]. *)
Definition isFloatShaped (t : Type_) : bool :=
  match t with
  | ShapedType _ (Plain (FloatType _)) => true
  | _ => false
  end.

(** ** The graph *)

(** An [Operation*]: the index of the node in the body. *)
Abbreviation Operation := nat (only parsing).

(** A [Value] is identified by what defines it. *)
Inductive Value :=
| OpResult (op : Operation) (index : nat)
| BlockArgument (arg : nat).

#[global] Instance Value_eq_dec : EqDecision Value.
Proof. solve_decision. Defined.

#[global] Instance Value_countable : Countable Value.
Proof.
  refine (inj_countable'
    (fun v => match v with
              | OpResult op i => inl (op, i)
              | BlockArgument a => inr a
              end)
    (fun s => match s with
              | inl (op, i) => OpResult op i
              | inr a => BlockArgument a
              end) _).
  by intros [].
Defined.

(** [using OpValue = std::pair<mlir::Operation*, int>]. *)
Definition OpValue := (Operation * nat)%type.

Inductive OpName :=
| ArithConstantOp
| QuantizeCastOp
| DequantizeCastOp
| OtherOp (name : nat).

#[global] Instance OpName_eq_dec : EqDecision OpName.
Proof. solve_decision. Defined.

(** The value attribute of a constant. *)
Inductive Attribute :=
| DenseFPElementsAttr (values : list float)
| OtherElementsAttr.

Record OpNode := {
  name : OpName;
  operands : list Value;
  resultTypes : list Type_;
  (** [getValueAttr] of a constant; no attribute on other nodes *)
  valueAttr : option Attribute;
  (** [kVolatileOpAttrName] is set *)
  volatile : bool;
  (** [AffineQuantizedOpInterface::GetAffineOperandIndex], when the node
      implements the interface *)
  affineOperandIndex : option nat
}.

Record FuncOp := {
  body : list OpNode;
  argumentTypes : list Type_
}.

Definition getType (fn : FuncOp) (v : Value) : option Type_ :=
  match v with
  | OpResult op i => node ← body fn !! op; resultTypes node !! i
  | BlockArgument a => argumentTypes fn !! a
  end.

Definition getOperand (fn : FuncOp) (op : Operation) (i : nat) : option Value :=
  node ← body fn !! op; operands node !! i.

Definition getDefiningOp (v : Value) : option Operation :=
  match v with
  | OpResult op _ => Some op
  | BlockArgument _ => None
  end.

(** [isa<K>(op)]. *)
Definition isa (k : OpName) (fn : FuncOp) (op : Operation) : bool :=
  bool_decide (name <$> body fn !! op = Some k).

(** [value.getDefiningOp<arith::ConstantOp>()]. *)
Definition getDefiningConstantOp (fn : FuncOp) (v : Value) : option Operation :=
  op ← getDefiningOp v;
  if isa ArithConstantOp fn op then Some op else None.

(** Every operand slot of the function, node by node. *)
Definition numOperands (fn : FuncOp) (op : Operation) : nat :=
  from_option (λ node, length (operands node)) 0 (body fn !! op).

Definition operand_slots (fn : FuncOp) : list OpValue :=
  seq 0 (length (body fn)) ≫= λ op, pair op <$> seq 0 (numOperands fn op).

(** [value.getUses()]: the slots that hold [v], enumerated in the order
    of the body.  MLIR keeps the uses in a list of its own order; nothing
    below depends on which use comes first beyond what is stated. *)
Definition getUses (fn : FuncOp) (v : Value) : list OpValue :=
  filter (λ use, getOperand fn use.1 use.2 = Some v) (operand_slots fn).

Definition hasOneUse (fn : FuncOp) (v : Value) : bool :=
  bool_decide (length (getUses fn v) = 1).

Definition set_body (f : list OpNode → list OpNode) (fn : FuncOp) : FuncOp :=
  {| body := f (body fn); argumentTypes := argumentTypes fn |}.

Definition set_operands (f : list Value → list Value) (node : OpNode) : OpNode :=
  {| name := name node; operands := f (operands node);
     resultTypes := resultTypes node; valueAttr := valueAttr node;
     volatile := volatile node;
     affineOperandIndex := affineOperandIndex node |}.

Definition set_volatile (node : OpNode) : OpNode :=
  {| name := name node; operands := operands node;
     resultTypes := resultTypes node; valueAttr := valueAttr node;
     volatile := true; affineOperandIndex := affineOperandIndex node |}.

(** [builder.create<...>]: the new node gets the next handle. *)
Definition create (node : OpNode) (fn : FuncOp) : Operation * FuncOp :=
  (length (body fn), set_body (λ b, b ++ [node]) fn).

(** [op->setOperand(i, v)]; the node and the operand must exist. *)
Definition setOperand (op : Operation) (i : nat) (v : Value) (fn : FuncOp)
  : option FuncOp :=
  node ← body fn !! op;
  _ ← operands node !! i;
  Some (set_body <[op := set_operands <[i := v]> node]> fn).

Definition replace_value (from to : Value) (w : Value) : Value :=
  if decide (w = from) then to else w.

(** [from.replaceAllUsesWith(to)]. *)
Definition replaceAllUsesWith (from to : Value) (fn : FuncOp) : FuncOp :=
  set_body (fmap (set_operands (fmap (replace_value from to)))) fn.

(** [op->replaceUsesOfWith(from, to)]. *)
Definition replaceUsesOfWith (op : Operation) (from to : Value) (fn : FuncOp)
  : option FuncOp :=
  node ← body fn !! op;
  Some (set_body <[op := set_operands (fmap (replace_value from to)) node]> fn).

Definition mkConstantOp (t : list Type_) (attr : option Attribute) : OpNode :=
  {| name := ArithConstantOp; operands := []; resultTypes := t;
     valueAttr := attr; volatile := false; affineOperandIndex := None |}.

Definition mkQuantizeCastOp (t : Type_) (arg : Value) : OpNode :=
  {| name := QuantizeCastOp; operands := [arg]; resultTypes := [t];
     valueAttr := None; volatile := false; affineOperandIndex := None |}.

Definition mkDequantizeCastOp (t : Type_) (arg : Value) : OpNode :=
  {| name := DequantizeCastOp; operands := [arg]; resultTypes := [t];
     valueAttr := None; volatile := false; affineOperandIndex := None |}.

(** A loop whose body may fail. *)
Fixpoint for_each {S A : Type} (f : S → A → option S) (s : S) (l : list A)
  : option S :=
  match l with
  | [] => Some s
  | x :: l => s ← f s x; for_each f s l
  end.

(** ** The state store *)

Inductive RequantizePosition := NO_REQUANTIZE | ON_INPUT | ON_OUTPUT.

#[global] Instance RequantizePosition_eq_dec : EqDecision RequantizePosition.
Proof. solve_decision. Defined.

(** [struct RequantizeState].  The specification calls [ON_OUTPUT]
    before-consumer (it lists the consumers to redirect) and [ON_INPUT]
    after-producer. *)
Record RequantizeState := {
  pos : RequantizePosition;
  rescale_params : QuantParams;
  users : list OpValue
}.

Record QuantState := {
  params : QuantParams;
  immutable : bool
}.

(** Modelled from the spec: [HasQuantParams] is declared in
    quantization_driver.h, which is not among the sources.  The source
    computes [immutable] as [!HasQuantParams(params)]; its comment and the
    specification (3, 4.1) both say that the flag is set when the type of
    the value is already quantized.  The helper is therefore the comparison
    with the null type [quant::QuantizedType()]. *)
Definition HasQuantParams (p : QuantParams) : bool :=
  bool_decide (p = None).

(** Modelled from the spec: [QuantState::IsEmpty] (quantization_driver.h):
    the parameters are empty (unset). *)
Definition IsEmpty (s : QuantState) : bool := HasQuantParams (params s).

Record QuantizationDriver := {
  fn_ : FuncOp;
  states_ : list QuantState;
  rescale_states_ : gmap nat (list RequantizeState);
  value_to_state_ : gmap Value nat;
  operand_states_ : gmap OpValue nat;
  result_states_ : gmap OpValue nat;
  arg_states_ : gmap nat nat;
  weights_ : gset Operation;
  optimized_weights_ : gmap Operation Z;
  work_list_ : list Operation;
  args_ : list nat
}.

Definition set_fn (f : FuncOp → FuncOp) (d : QuantizationDriver) :=
  {| fn_ := f (fn_ d); states_ := states_ d;
     rescale_states_ := rescale_states_ d;
     value_to_state_ := value_to_state_ d;
     operand_states_ := operand_states_ d;
     result_states_ := result_states_ d; arg_states_ := arg_states_ d;
     weights_ := weights_ d; optimized_weights_ := optimized_weights_ d;
     work_list_ := work_list_ d; args_ := args_ d |}.

Definition set_states (f : list QuantState → list QuantState)
    (d : QuantizationDriver) :=
  {| fn_ := fn_ d; states_ := f (states_ d);
     rescale_states_ := rescale_states_ d;
     value_to_state_ := value_to_state_ d;
     operand_states_ := operand_states_ d;
     result_states_ := result_states_ d; arg_states_ := arg_states_ d;
     weights_ := weights_ d; optimized_weights_ := optimized_weights_ d;
     work_list_ := work_list_ d; args_ := args_ d |}.

Definition set_rescale_states
    (f : gmap nat (list RequantizeState) → gmap nat (list RequantizeState))
    (d : QuantizationDriver) :=
  {| fn_ := fn_ d; states_ := states_ d;
     rescale_states_ := f (rescale_states_ d);
     value_to_state_ := value_to_state_ d;
     operand_states_ := operand_states_ d;
     result_states_ := result_states_ d; arg_states_ := arg_states_ d;
     weights_ := weights_ d; optimized_weights_ := optimized_weights_ d;
     work_list_ := work_list_ d; args_ := args_ d |}.

Definition set_value_to_state (f : gmap Value nat → gmap Value nat)
    (d : QuantizationDriver) :=
  {| fn_ := fn_ d; states_ := states_ d;
     rescale_states_ := rescale_states_ d;
     value_to_state_ := f (value_to_state_ d);
     operand_states_ := operand_states_ d;
     result_states_ := result_states_ d; arg_states_ := arg_states_ d;
     weights_ := weights_ d; optimized_weights_ := optimized_weights_ d;
     work_list_ := work_list_ d; args_ := args_ d |}.

Definition set_operand_states (f : gmap OpValue nat → gmap OpValue nat)
    (d : QuantizationDriver) :=
  {| fn_ := fn_ d; states_ := states_ d;
     rescale_states_ := rescale_states_ d;
     value_to_state_ := value_to_state_ d;
     operand_states_ := f (operand_states_ d);
     result_states_ := result_states_ d; arg_states_ := arg_states_ d;
     weights_ := weights_ d; optimized_weights_ := optimized_weights_ d;
     work_list_ := work_list_ d; args_ := args_ d |}.

Definition set_result_states (f : gmap OpValue nat → gmap OpValue nat)
    (d : QuantizationDriver) :=
  {| fn_ := fn_ d; states_ := states_ d;
     rescale_states_ := rescale_states_ d;
     value_to_state_ := value_to_state_ d;
     operand_states_ := operand_states_ d;
     result_states_ := f (result_states_ d); arg_states_ := arg_states_ d;
     weights_ := weights_ d; optimized_weights_ := optimized_weights_ d;
     work_list_ := work_list_ d; args_ := args_ d |}.

Definition set_arg_states (f : gmap nat nat → gmap nat nat)
    (d : QuantizationDriver) :=
  {| fn_ := fn_ d; states_ := states_ d;
     rescale_states_ := rescale_states_ d;
     value_to_state_ := value_to_state_ d;
     operand_states_ := operand_states_ d;
     result_states_ := result_states_ d; arg_states_ := f (arg_states_ d);
     weights_ := weights_ d; optimized_weights_ := optimized_weights_ d;
     work_list_ := work_list_ d; args_ := args_ d |}.

Definition set_weights (f : gset Operation → gset Operation)
    (d : QuantizationDriver) :=
  {| fn_ := fn_ d; states_ := states_ d;
     rescale_states_ := rescale_states_ d;
     value_to_state_ := value_to_state_ d;
     operand_states_ := operand_states_ d;
     result_states_ := result_states_ d; arg_states_ := arg_states_ d;
     weights_ := f (weights_ d); optimized_weights_ := optimized_weights_ d;
     work_list_ := work_list_ d; args_ := args_ d |}.

Definition set_optimized_weights (f : gmap Operation Z → gmap Operation Z)
    (d : QuantizationDriver) :=
  {| fn_ := fn_ d; states_ := states_ d;
     rescale_states_ := rescale_states_ d;
     value_to_state_ := value_to_state_ d;
     operand_states_ := operand_states_ d;
     result_states_ := result_states_ d; arg_states_ := arg_states_ d;
     weights_ := weights_ d; optimized_weights_ := f (optimized_weights_ d);
     work_list_ := work_list_ d; args_ := args_ d |}.

Definition set_work_list (f : list Operation → list Operation)
    (d : QuantizationDriver) :=
  {| fn_ := fn_ d; states_ := states_ d;
     rescale_states_ := rescale_states_ d;
     value_to_state_ := value_to_state_ d;
     operand_states_ := operand_states_ d;
     result_states_ := result_states_ d; arg_states_ := arg_states_ d;
     weights_ := weights_ d; optimized_weights_ := optimized_weights_ d;
     work_list_ := f (work_list_ d); args_ := args_ d |}.

(** *** Initialization *)

(** The state a value gets when it is first met: the parameters its type
    already carries, and whether it carries any. *)
Definition initial_state (t : Type_) : QuantState :=
  let params := getQuantizedElementType t in
  let immutable := negb (HasQuantParams params) in
  {| params := params; immutable := immutable |}.

Definition InitializeStateForValue (op : Operation) (index : nat)
    (value : Value) (as_result : bool) (d : QuantizationDriver)
  : option QuantizationDriver :=
  match value_to_state_ d !! value with
  | Some cached =>
      Some (if as_result
            then set_result_states <[(op, index) := cached]> d
            else set_operand_states <[(op, index) := cached]> d)
  | None =>
      t ← getType (fn_ d) value;
      let next_state_index := length (states_ d) in
      let d := set_states (λ s, s ++ [initial_state t]) d in
      let d := if as_result
               then set_result_states <[(op, index) := next_state_index]> d
               else set_operand_states <[(op, index) := next_state_index]> d in
      Some (set_value_to_state <[value := next_state_index]> d)
  end.

Definition InitializeArgState (arg : nat) (arg_value : Value)
    (d : QuantizationDriver) : option QuantizationDriver :=
  match value_to_state_ d !! arg_value with
  | Some cached => Some (set_arg_states <[arg := cached]> d)
  | None =>
      t ← getType (fn_ d) arg_value;
      let next_state_index := length (states_ d) in
      let d := set_states (λ s, s ++ [initial_state t]) d in
      let d := set_arg_states <[arg := next_state_index]> d in
      Some (set_value_to_state <[arg_value := next_state_index]> d)
  end.

Definition InitializeOperandState (op : Operation) (index : nat)
    (value : Value) := InitializeStateForValue op index value false.

Definition InitializeResultState (op : Operation) (index : nat)
    (value : Value) := InitializeStateForValue op index value true.

(** ** External collaborators *)

(** [AccumulatorScaleFunc]: parameters of the non-bias operands, the
    adjusted quantized dimension and the legacy-scale flag. *)
Definition AccumulatorScaleFunc := list QuantParams → Z → bool → QuantParams.

(** [struct OpQuantSpec] (quantization_utils.h), the fields the driver
    reads. *)
Record OpQuantSpec := {
  biases_params : gmap nat (list nat * AccumulatorScaleFunc);
  coeff_op_quant_dim : gmap nat Z
}.

(** [struct OpQuantScaleSpec] (quantization_utils.h). *)
Record OpQuantScaleSpec := {
  has_same_scale_requirement : bool;
  has_fixed_output_range : bool;
  fixed_output_range_func : bool → Z → QuantParams
}.

(** What the driver receives from outside: the flags and the two rule
    tables (per kind of operation) given to its constructor, the work-list
    helpers declared in its header (they only push onto [work_list_]), the
    invariant check behind [getChecked] of the quant dialect, and the two
    functions of quantization_utils that derive parameters from the
    content of a weight (any result that is not a quantized type counts
    as the null type). *)
Record Collaborators := {
  is_signed_ : bool;
  disable_per_channel_ : bool;
  infer_tensor_range_ : bool;
  legacy_float_scale_ : bool;
  op_quant_spec_getter_ : OpName → OpQuantSpec;
  op_quant_scale_spec_getter_ : OpName → OpQuantScaleSpec;
  AddUserToList : FuncOp → Operation → nat → list Operation → list Operation;
  AddOperandToList : FuncOp → Operation → nat → list Operation → list Operation;
  verifyInvariants : QuantizedType → bool;
  (** content, symmetric, num_bits, is_signed, narrow_range,
      legacy_float_scale *)
  GetUniformQuantizedTypeForWeight :
    list float → bool → Z → bool → bool → bool → QuantParams;
  (** content, quant_dim, symmetric, num_bits, is_signed, narrow_range,
      legacy_float_scale *)
  GetUniformQuantizedPerAxisTypeForWeight :
    list float → Z → bool → Z → bool → bool → bool → QuantParams
}.

(** [UniformQuantizedType::getChecked] and its per-axis sibling: the null
    type when the components are rejected. *)
Definition getChecked (E : Collaborators) (q : QuantizedType) : QuantParams :=
  if verifyInvariants E q then Some q else None.

(** ** Accessors *)

(** Modelled from the spec: the accessors of quantization_driver.h, which
    is not among the sources.  A position resolves through its index map
    to a record of the state vector (4.1); the pending requantizations of
    a state are a list, empty until something is queued (3). *)
Definition GetOperandQuantState (op : Operation) (index : nat)
    (d : QuantizationDriver) : option QuantState :=
  i ← operand_states_ d !! (op, index); states_ d !! i.

Definition GetResultQuantState (op : Operation) (index : nat)
    (d : QuantizationDriver) : option QuantState :=
  i ← result_states_ d !! (op, index); states_ d !! i.

Definition GetArgQuantState (arg : nat) (d : QuantizationDriver)
  : option QuantState :=
  i ← arg_states_ d !! arg; states_ d !! i.

Definition rescales_at (d : QuantizationDriver) (i : nat)
  : list RequantizeState :=
  default [] (rescale_states_ d !! i).

Definition GetOperandRequantizeStates (op : Operation) (index : nat)
    (d : QuantizationDriver) : option (list RequantizeState) :=
  i ← operand_states_ d !! (op, index); Some (rescales_at d i).

Definition GetResultRequantizeStates (op : Operation) (index : nat)
    (d : QuantizationDriver) : option (list RequantizeState) :=
  i ← result_states_ d !! (op, index); Some (rescales_at d i).

Definition GetArgRequantizeStates (arg : nat) (d : QuantizationDriver)
  : option (list RequantizeState) :=
  i ← arg_states_ d !! arg; Some (rescales_at d i).

(** [state.params = params] on the record with index [i]; [immutable] is
    a const member. *)
Definition assign_params (i : nat) (p : QuantParams)
    (states : list QuantState) : list QuantState :=
  match states !! i with
  | Some state => <[i := {| params := p; immutable := immutable state |}]> states
  | None => states
  end.

(** ** The assignment contract *)

Section Driver.
Context (E : Collaborators).

Definition SetResultParams (op : Operation) (res_index : nat)
    (p : QuantParams) (d : QuantizationDriver)
  : option (bool * QuantizationDriver) :=
  i ← result_states_ d !! (op, res_index);
  state ← states_ d !! i;
  if decide (params state = p) then Some (false, d)
  else if negb (IsEmpty state) then
    let rescale := {| pos := ON_INPUT; rescale_params := p; users := [] |} in
    Some (true, set_rescale_states <[i := rescales_at d i ++ [rescale]]> d)
  else
    let d := set_states (assign_params i p) d in
    Some (true, set_work_list (AddUserToList E (fn_ d) op res_index) d).

(** [matchPattern(res, m_Constant(&attr))] with a [DenseFPElementsAttr]:
    the content of the constant that defines the value. *)
Definition matchConstant (fn : FuncOp) (res : Value) : option (list float) :=
  op ← getDefiningConstantOp fn res;
  node ← body fn !! op;
  match valueAttr node with
  | Some (DenseFPElementsAttr values) => Some values
  | _ => None
  end.

Definition SetConstantResultParams (op : Operation) (d : QuantizationDriver)
  : option (bool * QuantizationDriver) :=
  match matchConstant (fn_ d) (OpResult op 0) with
  | None => Some (false, d)
  | Some attr =>
      let it := optimized_weights_ d !! op in
      let is_weight := bool_decide (is_Some it) in
      let is_weight_with_per_channel_support :=
        is_weight && negb (bool_decide (it = Some (-1)%Z)) && is_signed_ E in
      let final_type :=
        if is_weight_with_per_channel_support && negb (disable_per_channel_ E)
        then GetUniformQuantizedPerAxisTypeForWeight E attr (default 0%Z it)
               true 8%Z (is_signed_ E) true (legacy_float_scale_ E)
        else GetUniformQuantizedTypeForWeight E attr
               (is_weight && is_signed_ E) 8%Z (is_signed_ E) is_weight
               (legacy_float_scale_ E) in
      match final_type with
      | Some quant_type => SetResultParams op 0 (Some quant_type) d
      | None => Some (false, d)
      end
  end.

Definition IsQuantized (op : Operation) (d : QuantizationDriver)
  : option bool :=
  node ← body (fn_ d) !! op;
  sts ← mapM (λ i, GetResultQuantState op i d)
             (seq 0 (length (resultTypes node)));
  Some (forallb (λ state, negb (IsEmpty state)) sts).

(** Modelled from the spec: [IsWeight] (quantization_driver.h): the
    constant was classified as a weight by the preprocessor (4.2). *)
Definition IsWeight (cst : Operation) (d : QuantizationDriver) : bool :=
  bool_decide (cst ∈ weights_ d).

(** What the propagation loop does with a constant it takes from the work
    list: the parameters of a weight not yet quantized are inferred from
    its content when range inference is requested. *)
Definition propagate_constant (op : Operation) (d : QuantizationDriver)
  : option (bool * QuantizationDriver) :=
  if infer_tensor_range_ E && IsWeight op d then
    quantized ← IsQuantized op d;
    if negb quantized then SetConstantResultParams op d else Some (false, d)
  else Some (false, d).

Definition GetBiasParams (op : Operation) (bias_index : nat)
    (non_biases : list nat) (func : AccumulatorScaleFunc)
    (d : QuantizationDriver) : option QuantParams :=
  bias_state ← GetOperandQuantState op bias_index d;
  if negb (IsEmpty bias_state) then Some (params bias_state) else
  node ← body (fn_ d) !! op;
  adjusted_quant_dim ←
    (if bool_decide (bias_index < length (operands node)) then
       bias ← operands node !! bias_index;
       match getDefiningOp bias with
       | Some bias_op =>
           bias_type ← getType (fn_ d) (OpResult bias_op 0);
           match bias_type with
           | NoneType => Some (-1)%Z
           | ShapedType shape _ =>
               let bias_rank := length shape in
               Some (if bool_decide (1 < bias_rank)
                     then Z.of_nat (bias_rank - 1) else 0%Z)
           | Primitive _ => None
           end
       | None => Some (-1)%Z
       end
     else Some (-1)%Z);
  op_types ← mapM (λ non_bias, params <$> GetOperandQuantState op non_bias d)
                  non_biases;
  Some (func op_types adjusted_quant_dim (legacy_float_scale_ E)).

(** The loop of [SetOperandParams] over the pending requantizations: the
    first entry that already asks for [p] gets one more user; [None] when
    no entry asks for [p]. *)
Fixpoint add_user_to_rescale (p : QuantParams) (user : OpValue)
    (rescales : list RequantizeState) : option (list RequantizeState) :=
  match rescales with
  | [] => None
  | rescale :: rest =>
      if decide (rescale_params rescale = p)
      then Some ({| pos := pos rescale;
                    rescale_params := rescale_params rescale;
                    users := users rescale ++ [user] |} :: rest)
      else cons rescale <$> add_user_to_rescale p user rest
  end.

Definition SetOperandParams (op : Operation) (index : nat)
    (p : QuantParams) (override : bool) (d : QuantizationDriver)
  : option (bool * QuantizationDriver) :=
  i ← operand_states_ d !! (op, index);
  state ← states_ d !! i;
  if decide (params state = p) then Some (false, d)
  else if negb (IsEmpty state) && negb override then
    let rescales := rescales_at d i in
    match add_user_to_rescale p (op, index) rescales with
    | Some rescales' => Some (true, set_rescale_states <[i := rescales']> d)
    | None =>
        let rescale := {| pos := ON_OUTPUT; rescale_params := p;
                          users := [(op, index)] |} in
        Some (true, set_rescale_states <[i := rescales ++ [rescale]]> d)
    end
  else
    let d := set_states (assign_params i p) d in
    Some (true, set_work_list (AddOperandToList E (fn_ d) op index) d).

(** ** Same-scale resolution *)

(** One pass of the collecting loops: immutable states go to the first
    vector, the other non-empty ones to the second. *)
Definition collect_states (sts : list QuantState)
    (acc : list QuantState * list QuantState)
  : list QuantState * list QuantState :=
  foldl (λ '(immutable_states, mutable_states) state,
           if immutable state then (immutable_states ++ [state], mutable_states)
           else if negb (IsEmpty state)
                then (immutable_states, mutable_states ++ [state])
                else (immutable_states, mutable_states))
        acc sts.

Definition operand_quant_states (op : Operation) (n : nat)
    (d : QuantizationDriver) : option (list QuantState) :=
  mapM (λ i, GetOperandQuantState op i d) (seq 0 n).

Definition result_quant_states (op : Operation) (n : nat)
    (d : QuantizationDriver) : option (list QuantState) :=
  mapM (λ i, GetResultQuantState op i d) (seq 0 n).

(** [front()->params] and [back()->params] of a vector of states. *)
Definition front_params (sts : list QuantState) : option QuantParams :=
  params <$> head sts.
Definition back_params (sts : list QuantState) : option QuantParams :=
  params <$> list.last sts.

Definition GetQuantParamsForSameScaleConstraint (op : Operation)
    (d : QuantizationDriver) : option QuantParams :=
  node ← body (fn_ d) !! op;
  let num_operands := length (operands node) in
  let num_results := length (resultTypes node) in
  operand_sts ← operand_quant_states op num_operands d;
  let '(immutable_states, mutable_states) :=
    collect_states operand_sts ([], []) in
  let immutable_operands_num := length immutable_states in
  let mutable_operands_num := length mutable_states in
  if bool_decide (num_operands = 1) && bool_decide (immutable_operands_num = 1)
  then front_params immutable_states
  else
    result_sts ← result_quant_states op num_results d;
    let '(immutable_states, mutable_states) :=
      collect_states result_sts (immutable_states, mutable_states) in
    let immutable_results_num :=
      length immutable_states - immutable_operands_num in
    let mutable_results_num := length mutable_states - mutable_operands_num in
    if bool_decide (num_results = 1) && bool_decide (immutable_results_num = 1)
    then back_params immutable_states
    else if negb (bool_decide (immutable_states = [])) then front_params immutable_states
    else if bool_decide (num_operands = 1) && bool_decide (mutable_operands_num = 1)
    then front_params mutable_states
    else if bool_decide (num_results = 1) && bool_decide (mutable_results_num = 1)
    then back_params mutable_states
    else if negb (bool_decide (mutable_states = [])) then front_params mutable_states
    else Some None.

(** ** The constant preprocessor *)

Definition GetQuantSpec (fn : FuncOp) (op : Operation) : option OpQuantSpec :=
  node ← body fn !! op; Some (op_quant_spec_getter_ E (name node)).

Definition GetQuantScaleSpec (fn : FuncOp) (op : Operation)
  : option OpQuantScaleSpec :=
  node ← body fn !! op; Some (op_quant_scale_spec_getter_ E (name node)).

(** The test of [PreprocessConstantOps] on one use: the operand is not a
    bias, the user has no same-scale requirement and is not a quantize
    cast. *)
Definition is_weight_use (fn : FuncOp) (use : OpValue) : option bool :=
  let '(user, operand_num) := use in
  spec ← GetQuantSpec fn user;
  scale_spec ← GetQuantScaleSpec fn user;
  let biases := biases_params spec in
  Some (bool_decide (biases !! operand_num = None)
        && negb (has_same_scale_requirement scale_spec)
        && negb (isa QuantizeCastOp fn user)).

(** The body of the loop over the cached uses of the constant [cst]. *)
Definition preprocess_use (cst : Operation) (num_uses : nat)
    (d : QuantizationDriver) (use : OpValue) : option QuantizationDriver :=
  let '(user, operand_num) := use in
  spec ← GetQuantSpec (fn_ d) user;
  weight ← is_weight_use (fn_ d) use;
  if (weight : bool) then
    let d := set_weights (union {[cst]}) d in
    match coeff_op_quant_dim spec !! operand_num with
    | Some dim =>
        Some (set_optimized_weights
                (λ m, match m !! cst with
                      | Some _ => m
                      | None => <[cst := dim]> m
                      end) d)
    | None => Some d
    end
  else if bool_decide (1 < num_uses) then
    cst_node ← body (fn_ d) !! cst;
    let '(new_cst, fn) :=
      create (mkConstantOp (resultTypes cst_node) (valueAttr cst_node))
             (fn_ d) in
    fn ← setOperand user operand_num (OpResult new_cst 0) fn;
    Some (set_fn (λ _, fn) d)
  else Some d.

(** The callback of the walk, for the node [cst]. *)
Definition preprocess_constant (d : QuantizationDriver) (cst : Operation)
  : option QuantizationDriver :=
  cst_node ← body (fn_ d) !! cst;
  if negb (bool_decide (name cst_node = ArithConstantOp)) then Some d else
  t ← resultTypes cst_node !! 0;
  if negb (isFloatShaped t) then Some d else
  skip ← match valueAttr cst_node with
         | Some (DenseFPElementsAttr values) =>
             first ← values !! 0; Some (negb (PrimFloat.is_finite first))
         | _ => Some false
         end;
  if (skip : bool) then Some d else
  let value := OpResult cst 0 in
  let uses := getUses (fn_ d) value in
  for_each (preprocess_use cst (length uses)) d uses.

(** The walk visits the nodes the function has when it starts; the
    constants it creates are placed before the one being visited and are
    not visited. *)
Definition PreprocessConstantOps (d : QuantizationDriver)
  : option QuantizationDriver :=
  for_each preprocess_constant d (seq 0 (length (body (fn_ d)))).

(** ** Bias adjustment *)

Definition DuplicateConstantOpIfNeeded (op target_op : Operation)
    (operand_index : nat) (d : QuantizationDriver)
  : option (Operation * QuantizationDriver) :=
  if hasOneUse (fn_ d) (OpResult op 0) then Some (op, d) else
  node ← body (fn_ d) !! op;
  let '(new_op, fn) := create node (fn_ d) in
  fn ← setOperand target_op operand_index (OpResult new_op 0) fn;
  let d := set_fn (λ _, fn) d in
  d ← InitializeOperandState target_op operand_index (OpResult new_op 0) d;
  d ← InitializeResultState new_op 0 (OpResult new_op 0) d;
  Some (new_op, d).

(** [std::numeric_limits<int32_t>::max() / 2], and its value as a double. *)
Definition kBiasMax : Z := Z.quot (2 ^ 31 - 1) 2.
Definition kBiasMax_double : float :=
  Eval vm_compute in PrimFloat.of_uint63 (Uint63.of_Z kBiasMax).

(** The width test at the end of [ShouldCheckBiasScale]; a null type
    cannot be asked for its width. *)
Definition has_width (w : Z) (p : QuantParams) : option bool :=
  q ← p; Some (bool_decide (getStorageTypeIntegralWidth q = w)).

(** Returns the input and filter indices when the check applies. *)
Definition ShouldCheckBiasScale (op : Operation) (bias_index : nat)
    (input_indices : list nat) (p : QuantParams) (d : QuantizationDriver)
  : option (option (nat * nat)) :=
  node ← body (fn_ d) !! op;
  bias ← operands node !! bias_index;
  match affineOperandIndex node, getDefiningConstantOp (fn_ d) bias with
  | Some filter_index, Some bias_op =>
      if negb (bool_decide (length input_indices = 2)) then Some None else
      bias_node ← body (fn_ d) !! bias_op;
      match valueAttr bias_node with
      | Some (DenseFPElementsAttr _) =>
          filter ← operands node !! filter_index;
          match getDefiningConstantOp (fn_ d) filter with
          | None => Some None
          | Some _ =>
              i0 ← input_indices !! 0;
              i1 ← input_indices !! 1;
              let widths input_index :=
                input_state ← GetOperandQuantState op input_index d;
                filter_state ← GetOperandQuantState op filter_index d;
                w_in ← has_width 8 (params input_state);
                if negb w_in then Some None else
                w_filter ← has_width 8 (params filter_state);
                if negb w_filter then Some None else
                w_bias ← has_width 32 p;
                if negb w_bias then Some None
                else Some (Some (input_index, filter_index)) in
              if decide (filter_index = i0) then widths i1
              else if decide (filter_index = i1) then widths i0
              else Some None
          end
      | _ => Some None
      end
  | _, _ => Some None
  end.

(** [cast<UniformQuantizedType>().getScale()]. *)
Definition getScale (p : QuantParams) : option float :=
  match p with
  | Some (UniformQuantizedType _ scale _) => Some scale
  | _ => None
  end.

(** The largest absolute value of the bias content. *)
Definition bias_half_range (bias_values : list float) : float :=
  foldl (λ r bias, if PrimFloat.ltb r (PrimFloat.abs bias)
                   then PrimFloat.abs bias else r)
        0%float bias_values.

(** The per-channel loop: the scales after the adjustment, and whether
    any was adjusted. *)
Definition adjust_scales (input_scale : float) (bias_values : list float)
    (bias_scales filter_scales : list float)
  : option (list float * list float * bool) :=
  for_each
    (λ '(new_bias_scales, new_filter_scales, needs_adjustment) i,
       bias ← bias_values !! i;
       s ← new_bias_scales !! i;
       let abs_bias := PrimFloat.abs bias in
       if PrimFloat.ltb kBiasMax_double (PrimFloat.div abs_bias s) then
         let new_scale := PrimFloat.div abs_bias kBiasMax_double in
         _ ← new_filter_scales !! i;
         Some (<[i := new_scale]> new_bias_scales,
               <[i := PrimFloat.div new_scale input_scale]> new_filter_scales,
               true)
       else Some (new_bias_scales, new_filter_scales, needs_adjustment))
    (bias_scales, filter_scales, false)
    (seq 0 (length bias_scales)).

(** The test [if (!filter_op)] after the duplication never holds (the
    duplication returns the constant or its clone) and is left out. *)
Definition SetBiasParamsWithAdjustments (op : Operation) (bias_index : nat)
    (input_indices : list nat) (p : QuantParams) (d : QuantizationDriver)
  : option (bool * QuantizationDriver) :=
  check ← ShouldCheckBiasScale op bias_index input_indices p d;
  match check with
  | None => SetOperandParams op bias_index p false d
  | Some (input_index, filter_index) =>
      input_state ← GetOperandQuantState op input_index d;
      filter_state ← GetOperandQuantState op filter_index d;
      bias ← getOperand (fn_ d) op bias_index;
      bias_op ← getDefiningConstantOp (fn_ d) bias;
      input_scale ← getScale (params input_state);
      bias_node ← body (fn_ d) !! bias_op;
      bias_values ← match valueAttr bias_node with
                    | Some (DenseFPElementsAttr values) => Some values
                    | _ => None
                    end;
      match p with
      | Some (UniformQuantizedType base scale _) =>
          let half_range := bias_half_range bias_values in
          if PrimFloat.ltb (PrimFloat.div half_range scale) kBiasMax_double
          then SetOperandParams op bias_index p false d
          else
            let new_bias_scale := PrimFloat.div half_range kBiasMax_double in
            '(changed1, d) ←
              SetOperandParams op bias_index
                (getChecked E (UniformQuantizedType base new_bias_scale 0%Z))
                false d;
            filter ← getOperand (fn_ d) op filter_index;
            filter_cst ← getDefiningConstantOp (fn_ d) filter;
            '(filter_op, d) ←
              DuplicateConstantOpIfNeeded filter_cst op filter_index d;
            match params filter_state with
            | Some (UniformQuantizedType filter_base _ _) =>
                '(changed2, d) ←
                  SetOperandParams op filter_index
                    (getChecked E
                       (UniformQuantizedType filter_base
                          (PrimFloat.div new_bias_scale input_scale) 0%Z))
                    true d;
                Some (changed1 || changed2, d)
            | _ => None
            end
      | Some (UniformQuantizedPerAxisType base scales zero_points dim) =>
          match params filter_state with
          | Some (UniformQuantizedPerAxisType filter_base filter_scales
                    filter_zero_points filter_dim) =>
              '(new_bias_scales, new_filter_scales, needs_adjustment) ←
                adjust_scales input_scale bias_values scales filter_scales;
              if negb needs_adjustment
              then SetOperandParams op bias_index p false d
              else
                '(changed1, d) ←
                  SetOperandParams op bias_index
                    (getChecked E
                       (UniformQuantizedPerAxisType base new_bias_scales
                          zero_points dim))
                    false d;
                filter ← getOperand (fn_ d) op filter_index;
                filter_cst ← getDefiningConstantOp (fn_ d) filter;
                '(filter_op, d) ←
                  DuplicateConstantOpIfNeeded filter_cst op filter_index d;
                '(changed2, d) ←
                  SetOperandParams op filter_index
                    (getChecked E
                       (UniformQuantizedPerAxisType filter_base
                          new_filter_scales filter_zero_points filter_dim))
                    true d;
                Some (changed1 || changed2, d)
          | _ => None
          end
      | None => Some (false, d)
      end
  end.

End Driver.

(** ** The materializer *)

Definition setVolatile (op : Operation) (fn : FuncOp) : option FuncOp :=
  node ← body fn !! op;
  Some (set_body <[op := set_volatile node]> fn).

Definition QuantizeValue (value : Value) (p : QuantParams) (fn : FuncOp)
  : option FuncOp :=
  expressed_type ← getType fn value;
  q ← p;
  match castFromExpressedType q expressed_type with
  | None => Some fn
  | Some new_type =>
      let '(quantize, fn) := create (mkQuantizeCastOp new_type value) fn in
      let '(dequantize, fn) :=
        create (mkDequantizeCastOp expressed_type (OpResult quantize 0)) fn in
      fn ← setVolatile quantize fn;
      let fn := replaceAllUsesWith value (OpResult dequantize 0) fn in
      replaceUsesOfWith quantize (OpResult dequantize 0) value fn
  end.

Definition QuantizeOpResult (op : Operation) (index : nat) (p : QuantParams)
    (fn : FuncOp) : option FuncOp :=
  QuantizeValue (OpResult op index) p fn.

Definition QuantizeArg (arg : nat) (p : QuantParams) (fn : FuncOp)
  : option FuncOp :=
  QuantizeValue (BlockArgument arg) p fn.

(** The body of the loop of [RequantizeValue] over the states, for a value
    whose only user is [dequant_op]. *)
Definition requantize_before_user (value : Value) (dequant_op : Operation)
    (acc : FuncOp * bool) (state : RequantizeState) : option (FuncOp * bool) :=
  let '(fn, clobber_first) := acc in
  t ← getType fn value;
  match castToExpressedType t with
  | None => Some acc
  | Some expressed_type =>
      q ← rescale_params state;
      match castFromExpressedType q expressed_type with
      | None => Some acc
      | Some new_type =>
          let '(requantize_op, fn) :=
            create (mkQuantizeCastOp new_type value) fn in
          if clobber_first then
            fn ← setOperand dequant_op 0 (OpResult requantize_op 0) fn;
            Some (fn, false)
          else
            dequant_type ← getType fn (OpResult dequant_op 0);
            let '(new_dequant_op, fn) :=
              create (mkDequantizeCastOp dequant_type
                        (OpResult requantize_op 0)) fn in
            fn ← for_each
                   (λ fn (op_index : OpValue),
                      setOperand op_index.1 op_index.2
                                 (OpResult new_dequant_op 0) fn)
                   fn (users state);
            Some (fn, false)
      end
  end.

Definition RequantizeValue (value : Value) (states : list RequantizeState)
    (fn : FuncOp) : option FuncOp :=
  match states with
  | [] => Some fn
  | front :: _ =>
      match pos front with
      | NO_REQUANTIZE => Some fn
      | ON_INPUT =>
          expressed_type ← getType fn value;
          q ← rescale_params front;
          match castFromExpressedType q expressed_type with
          | None => Some fn
          | Some new_type =>
              let '(requantize_op, fn) :=
                create (mkQuantizeCastOp new_type value) fn in
              let fn :=
                replaceAllUsesWith value (OpResult requantize_op 0) fn in
              replaceUsesOfWith requantize_op (OpResult requantize_op 0)
                                value fn
          end
      | ON_OUTPUT =>
          match getUses fn value with
          | [(user, _)] =>
              if negb (isa DequantizeCastOp fn user) then Some fn else
              let dequant_op := user in
              let num_uses := length (getUses fn (OpResult dequant_op 0)) in
              let clobber_first := bool_decide (num_uses ≤ length states) in
              fst <$> for_each (requantize_before_user value dequant_op)
                               (fn, clobber_first) states
          | _ => Some fn
          end
      end
  end.

Definition RequantizeOpResult (op : Operation) (index : nat)
    (states : list RequantizeState) (fn : FuncOp) : option FuncOp :=
  match states with
  | [] => Some fn
  | front :: _ =>
      let value := OpResult op index in
      let p := pos front in
      if decide (p = NO_REQUANTIZE) then Some fn
      else if negb (forallb (λ state, bool_decide (pos state = p)) states)
      then Some fn
      else
        value ← (if decide (p = ON_OUTPUT) then
                   match getUses fn value with
                   | (user, _) :: _ =>
                       Some (if isa QuantizeCastOp fn user
                             then OpResult user 0 else value)
                   | [] => None
                   end
                 else Some value);
        RequantizeValue value states fn
  end.

Definition RequantizeArg (arg : nat) (states : list RequantizeState)
    (fn : FuncOp) : option FuncOp :=
  let value := BlockArgument arg in
  let value :=
    match getUses fn value with
    | [(user, _)] => if isa QuantizeCastOp fn user then OpResult user 0
                     else value
    | _ => value
    end in
  RequantizeValue value states fn.

(** The bodies of the two loops of [Finalize]. *)
Definition FinalizeArg (d : QuantizationDriver) (arg : nat)
  : option QuantizationDriver :=
  state ← GetArgQuantState arg d;
  requantizes ← GetArgRequantizeStates arg d;
  if IsEmpty state || (immutable state && bool_decide (requantizes = []))
  then Some d
  else
    fn ← (if negb (immutable state) then QuantizeArg arg (params state) (fn_ d)
          else Some (fn_ d));
    fn ← (if negb (bool_decide (requantizes = []))
          then RequantizeArg arg requantizes fn else Some fn);
    Some (set_fn (λ _, fn) d).

Definition FinalizeResult (d : QuantizationDriver) (it : OpValue)
  : option QuantizationDriver :=
  let '(op, res_index) := it in
  state ← GetResultQuantState op res_index d;
  requantizes ← GetResultRequantizeStates op res_index d;
  if IsEmpty state || (immutable state && bool_decide (requantizes = []))
  then Some d
  else
    fn ← (if negb (immutable state)
          then QuantizeOpResult op res_index (params state) (fn_ d)
          else Some (fn_ d));
    fn ← (if negb (bool_decide (requantizes = []))
          then RequantizeOpResult op res_index requantizes fn else Some fn);
    Some (set_fn (λ _, fn) d).

(** [Finalize]; the results are visited in the order of the keys of
    [result_states_]. *)
Definition Finalize (d : QuantizationDriver) : option QuantizationDriver :=
  d ← for_each FinalizeArg d (args_ d);
  for_each FinalizeResult d (fst <$> map_to_list (result_states_ d)).

(** ** Positions and whole initializations *)

(** A place from which the driver reaches a state. *)
Inductive Position :=
| OperandPos (op : Operation) (index : nat)
| ResultPos (op : Operation) (index : nat)
| ArgPos (arg : nat).

#[global] Instance Position_eq_dec : EqDecision Position.
Proof. solve_decision. Defined.

Definition state_index (d : QuantizationDriver) (p : Position) : option nat :=
  match p with
  | OperandPos op index => operand_states_ d !! (op, index)
  | ResultPos op index => result_states_ d !! (op, index)
  | ArgPos arg => arg_states_ d !! arg
  end.

Definition state_at (d : QuantizationDriver) (p : Position)
  : option QuantState :=
  i ← state_index d p; states_ d !! i.

(** One call of the initialization functions, as [SetupAllStates] issues
    them. *)
Definition initialize (d : QuantizationDriver) (call : Position * Value)
  : option QuantizationDriver :=
  match call.1 with
  | OperandPos op index => InitializeOperandState op index call.2 d
  | ResultPos op index => InitializeResultState op index call.2 d
  | ArgPos arg => InitializeArgState arg call.2 d
  end.

(** The driver as constructed: nothing recorded yet. *)
Definition new_driver (fn : FuncOp) : QuantizationDriver :=
  {| fn_ := fn; states_ := []; rescale_states_ := ∅; value_to_state_ := ∅;
     operand_states_ := ∅; result_states_ := ∅; arg_states_ := ∅;
     weights_ := ∅; optimized_weights_ := ∅; work_list_ := [];
     args_ := [] |}.

(** Every cached index is an index of the state vector. *)
Definition store_wf (d : QuantizationDriver) : Prop :=
  ∀ v i, value_to_state_ d !! v = Some i → i < length (states_ d).

(** ** The resolution order of the specification (4.4) *)

Definition mutable_nonempty (s : QuantState) : bool :=
  negb (immutable s) && negb (IsEmpty s).

(** Rules 1 and 4, 2 and 5: the single state of a side, when it passes
    the test. *)
Definition single_state (test : QuantState → bool) (sts : list QuantState)
  : option QuantParams :=
  match sts with
  | [s] => if test s then Some (params s) else None
  | _ => None
  end.

(** Rules 3 and 6: the first state that passes the test, operands before
    results. *)
Definition first_state (test : QuantState → bool)
    (operand_sts result_sts : list QuantState) : option QuantParams :=
  params <$> List.find test (operand_sts ++ result_sts).

(** The first rule that matches decides; rule 7 is the null result. *)
Definition same_scale_by_rules (operand_sts result_sts : list QuantState)
  : QuantParams :=
  default None
    (single_state immutable operand_sts
     ∪ single_state immutable result_sts
     ∪ first_state immutable operand_sts result_sts
     ∪ single_state mutable_nonempty operand_sts
     ∪ single_state mutable_nonempty result_sts
     ∪ first_state mutable_nonempty operand_sts result_sts).

(** The parameters asked for by the pending requantizations that were
    queued for operands. *)
Definition operand_targets (rescales : list RequantizeState)
  : list QuantParams :=
  omap (λ r, if decide (pos r = ON_OUTPUT) then Some (rescale_params r)
             else None) rescales.

(** No two requantizations queued for operands ask for the same
    parameters. *)
Definition distinct_targets (rescales : list RequantizeState) : Prop :=
  NoDup (operand_targets rescales).

(** ** Small functions on which the definitions are run *)

Definition f32 : ScalarType := FloatType 32.
Definition tensor_f32 : Type_ := ShapedType [4%Z] (Plain f32).

Definition i8_base : QuantizedBase :=
  {| getFlags := 1; getStorageType := IntegerType 8;
     getExpressedType := f32;
     getStorageTypeMin := -128; getStorageTypeMax := 127 |}.

Definition i32_base : QuantizedBase :=
  {| getFlags := 1; getStorageType := IntegerType 32;
     getExpressedType := f32;
     getStorageTypeMin := - 2 ^ 31; getStorageTypeMax := 2 ^ 31 - 1 |}.

Definition uniform_i8 (scale : float) : QuantParams :=
  Some (UniformQuantizedType i8_base scale 0).
Definition uniform_i32 (scale : float) : QuantParams :=
  Some (UniformQuantizedType i32_base scale 0).

(** Kinds of operations of the examples: a convolution (input, filter,
    bias), a multiplication by a weight, the addition of a bias, and a
    reshape, which has the same-scale requirement. *)
Definition conv : OpName := OtherOp 0.
Definition mul : OpName := OtherOp 1.
Definition bias_add : OpName := OtherOp 2.
Definition reshape : OpName := OtherOp 3.

Definition product_scale : AccumulatorScaleFunc :=
  λ op_types _ _,
    match op_types with
    | [Some (UniformQuantizedType _ s1 _); Some (UniformQuantizedType _ s2 _)] =>
        uniform_i32 (PrimFloat.mul s1 s2)
    | [Some (UniformQuantizedType _ s1 _)] => uniform_i32 s1
    | _ => None
    end.

(** A symmetric scale from the largest magnitude of the content. *)
Definition max_abs_scale (values : list float) : QuantParams :=
  uniform_i8
    (PrimFloat.div
       (foldl (λ r x, if PrimFloat.ltb r (PrimFloat.abs x)
                      then PrimFloat.abs x else r) 0%float values)
       127).

Definition example_collaborators : Collaborators :=
  {| is_signed_ := true;
     disable_per_channel_ := true;
     infer_tensor_range_ := true;
     legacy_float_scale_ := false;
     GetUniformQuantizedTypeForWeight := λ values _ _ _ _ _,
       max_abs_scale values;
     GetUniformQuantizedPerAxisTypeForWeight := λ values _ _ _ _ _ _,
       max_abs_scale values;
     op_quant_spec_getter_ := λ k,
       if decide (k = conv)
       then {| biases_params := {[2 := ([0; 1], product_scale)]};
               coeff_op_quant_dim := {[1 := 0%Z]} |}
       else if decide (k = bias_add)
       then {| biases_params := {[1 := ([0], product_scale)]};
               coeff_op_quant_dim := ∅ |}
       else {| biases_params := ∅; coeff_op_quant_dim := ∅ |};
     op_quant_scale_spec_getter_ := λ k,
       {| has_same_scale_requirement := bool_decide (k = reshape);
          has_fixed_output_range := false;
          fixed_output_range_func := λ _ _, None |};
     AddUserToList := λ fn op index work,
       work ++ (fst <$> getUses fn (OpResult op index));
     AddOperandToList := λ fn op index work,
       match getOperand fn op index ≫= getDefiningOp with
       | Some inst => work ++ [inst]
       | None => work
       end;
     verifyInvariants := λ q,
       match q with
       | UniformQuantizedType _ s _ =>
           PrimFloat.ltb 0 s && PrimFloat.is_finite s
       | UniformQuantizedPerAxisType _ ss _ _ =>
           forallb (λ s, PrimFloat.ltb 0 s && PrimFloat.is_finite s) ss
       end |}.

Definition mkOp (k : OpName) (args : list Value) : OpNode :=
  {| name := k; operands := args; resultTypes := [tensor_f32];
     valueAttr := None; volatile := false;
     affineOperandIndex := if decide (k = conv) then Some 1 else None |}.

Definition mkConst (values : list float) : OpNode :=
  mkConstantOp [tensor_f32] (Some (DenseFPElementsAttr values)).

(** A convolution of the argument with a constant filter and a constant
    bias whose largest magnitude is [2 ^ 30]. *)
Definition conv_fn : FuncOp :=
  {| body := [mkConst [0.5; -0.25]%float;
              mkConst [1073741824; -3]%float;
              mkOp conv [BlockArgument 0; OpResult 0 0; OpResult 1 0]];
     argumentTypes := [tensor_f32] |}.

Definition conv_calls : list (Position * Value) :=
  [(ArgPos 0, BlockArgument 0);
   (ResultPos 0 0, OpResult 0 0);
   (ResultPos 1 0, OpResult 1 0);
   (OperandPos 2 0, BlockArgument 0);
   (OperandPos 2 1, OpResult 0 0);
   (OperandPos 2 2, OpResult 1 0);
   (ResultPos 2 0, OpResult 2 0)].

(** The number of uses in [l] that are not weight uses in [fn]. *)
Definition count_propagated (E : Collaborators) (fn : FuncOp)
    (l : list OpValue) : nat :=
  length (filter (λ use, is_weight_use E fn use = Some false) l).

(** [fn'] still has every node of [fn], with its name and content; only
    the operand slots in [changed] may hold other values. *)
Definition same_nodes_except (changed : list OpValue) (fn fn' : FuncOp)
  : Prop :=
  ∀ op node, body fn !! op = Some node →
    ∃ node', body fn' !! op = Some node'
      ∧ name node' = name node
      ∧ resultTypes node' = resultTypes node
      ∧ valueAttr node' = valueAttr node
      ∧ ∀ k, (op, k) ∉ changed → operands node' !! k = operands node !! k.

(** The node [op] of [fn] is a constant with the types and the content of
    [node]. *)
Definition is_copy_of (node : OpNode) (fn : FuncOp) (op : Operation) : Prop :=
  ∃ node', body fn !! op = Some node'
    ∧ name node' = ArithConstantOp
    ∧ resultTypes node' = resultTypes node
    ∧ valueAttr node' = valueAttr node.

(** The driver of [conv_fn] after the initialization calls, then with
    the input and the filter of the convolution assigned. *)
Definition conv_initialized : QuantizationDriver :=
  default (new_driver conv_fn)
          (for_each initialize (new_driver conv_fn) conv_calls).

Definition assign_operand (op : Operation) (index : nat) (p : QuantParams)
    (d : QuantizationDriver) : QuantizationDriver :=
  from_option snd d (SetOperandParams example_collaborators op index p false d).

Definition conv_input_set : QuantizationDriver :=
  assign_operand 2 0 (uniform_i8 0.5) conv_initialized.

Definition conv_ready : QuantizationDriver :=
  assign_operand 2 1 (uniform_i8 0.25) conv_input_set.

(** The same convolution, whose filter is also the weight of a
    multiplication, with scales for which the bias proposal is the product
    of the input and filter scales. *)
Definition shared_filter_fn : FuncOp :=
  {| body := [mkConst [0.5; -0.25]%float;
              mkConst [1073741824; -3]%float;
              mkOp conv [BlockArgument 0; OpResult 0 0; OpResult 1 0];
              mkOp mul [BlockArgument 0; OpResult 0 0]];
     argumentTypes := [tensor_f32] |}.

Definition shared_filter_calls : list (Position * Value) :=
  conv_calls ++ [(OperandPos 3 0, BlockArgument 0);
                 (OperandPos 3 1, OpResult 0 0);
                 (ResultPos 3 0, OpResult 3 0)].

(** [1 + 2 ^ -30], the double by which the division of [2 ^ 30] gives
    [kBiasMax]. *)
Definition boundary_scale : float := 0x1.00000004p+0%float.

Definition shared_filter_ready : QuantizationDriver :=
  assign_operand 2 1 (uniform_i8 (PrimFloat.mul 2 boundary_scale))
    (assign_operand 2 0 (uniform_i8 0.5)
       (default (new_driver shared_filter_fn)
          (for_each initialize (new_driver shared_filter_fn)
                    shared_filter_calls))).

(** An argument whose type is already quantized. *)
Definition quantized_tensor : Type_ :=
  ShapedType [4%Z] (Quantized (UniformQuantizedType i8_base 0.5 0)).

Definition quantized_arg_fn : FuncOp :=
  {| body := [mkOp reshape [BlockArgument 0]];
     argumentTypes := [quantized_tensor] |}.

(** A constant with three uses: the weight of two multiplications and the
    bias of an addition; and one with two uses, a weight and a bias. *)
Definition three_uses_fn : FuncOp :=
  {| body := [mkConst [1; 2]%float;
              mkOp mul [BlockArgument 0; OpResult 0 0];
              mkOp mul [BlockArgument 0; OpResult 0 0];
              mkOp bias_add [BlockArgument 0; OpResult 0 0]];
     argumentTypes := [tensor_f32] |}.

Definition two_uses_fn : FuncOp :=
  {| body := [mkConst [1; 2]%float;
              mkOp mul [BlockArgument 0; OpResult 0 0];
              mkOp bias_add [BlockArgument 0; OpResult 0 0]];
     argumentTypes := [tensor_f32] |}.

(** A weight whose second element is not finite. *)
Definition infinite_weight_fn : FuncOp :=
  {| body := [mkConst [1; infinity]%float;
              mkOp mul [BlockArgument 0; OpResult 0 0]];
     argumentTypes := [tensor_f32] |}.

(** An argument used by one multiplication, and two pending
    requantizations of different positions. *)
Definition arg_fn : FuncOp :=
  {| body := [mkOp mul [BlockArgument 0; BlockArgument 0]];
     argumentTypes := [tensor_f32] |}.

Definition mixed_requantizes : list RequantizeState :=
  [{| pos := ON_INPUT; rescale_params := uniform_i8 0.5; users := [] |};
   {| pos := ON_OUTPUT; rescale_params := uniform_i8 0.25;
      users := [(0, 0)] |}].

(** A state holding parameters with one requantization pending. *)
Definition pending_driver : QuantizationDriver :=
  set_rescale_states
    <[0 := [{| pos := ON_OUTPUT; rescale_params := uniform_i8 0.25;
               users := [(0, 0)] |}]]>
    (assign_operand 0 0 (uniform_i8 0.5)
       (default (new_driver arg_fn)
          (for_each initialize (new_driver arg_fn)
             [(ArgPos 0, BlockArgument 0);
              (OperandPos 0 0, BlockArgument 0);
              (OperandPos 0 1, BlockArgument 0);
              (ResultPos 0 0, OpResult 0 0)]))).

(** An operation with the same-scale requirement, two operands (the
    second one already quantized) and two results, the second of which has
    received parameters. *)
Definition split_fn : FuncOp :=
  {| body := [{| name := reshape;
                 operands := [BlockArgument 1; BlockArgument 0];
                 resultTypes := [tensor_f32; tensor_f32];
                 valueAttr := None; volatile := false;
                 affineOperandIndex := None |}];
     argumentTypes := [quantized_tensor; tensor_f32] |}.

Definition split_ready : QuantizationDriver :=
  from_option snd (new_driver split_fn)
    (d ← for_each initialize (new_driver split_fn)
           [(OperandPos 0 0, BlockArgument 1);
            (OperandPos 0 1, BlockArgument 0);
            (ResultPos 0 0, OpResult 0 0);
            (ResultPos 0 1, OpResult 0 1)];
     SetResultParams example_collaborators 0 1 (uniform_i8 0.25) d).

(** [conv_ready] after the bias proposal of scale 1. *)
Definition conv_adjusted : QuantizationDriver :=
  from_option snd conv_ready
    (SetBiasParamsWithAdjustments example_collaborators 2 2 [0; 1]
       (uniform_i32 1) conv_ready).

(** The assignments the propagation makes, and a run of them. *)
Inductive Proposal :=
| ProposeOperand (op : Operation) (index : nat) (p : QuantParams)
    (override : bool)
| ProposeResult (op : Operation) (index : nat) (p : QuantParams)
| ProposeBias (op : Operation) (bias_index : nat) (input_indices : list nat)
    (p : QuantParams).

Definition propose (E : Collaborators) (d : QuantizationDriver)
    (call : Proposal) : option QuantizationDriver :=
  match call with
  | ProposeOperand op index p override =>
      snd <$> SetOperandParams E op index p override d
  | ProposeResult op index p => snd <$> SetResultParams E op index p d
  | ProposeBias op bias_index input_indices p =>
      snd <$> SetBiasParamsWithAdjustments E op bias_index input_indices p d
  end.

(** ** Initialization of the states and the propagation loop *)

Definition set_args (f : list nat → list nat) (d : QuantizationDriver) :=
  {| fn_ := fn_ d; states_ := states_ d;
     rescale_states_ := rescale_states_ d;
     value_to_state_ := value_to_state_ d;
     operand_states_ := operand_states_ d;
     result_states_ := result_states_ d; arg_states_ := arg_states_ d;
     weights_ := weights_ d; optimized_weights_ := optimized_weights_ d;
     work_list_ := work_list_ d; args_ := f (args_ d) |}.

(** The value whose type gives the state of an argument or of a result:
    the result of the quantize cast when that cast is its only user. *)
Definition quantized_value (fn : FuncOp) (value : Value) : Value :=
  match getUses fn value with
  | [(user, _)] => if isa QuantizeCastOp fn user then OpResult user 0
                   else value
  | _ => value
  end.

(** The value whose type gives the state of an operand: the argument of
    the dequantize cast when the operand comes from one. *)
Definition dequantized_value (fn : FuncOp) (operand : Value) : option Value :=
  match getDefiningOp operand with
  | Some inst => if isa DequantizeCastOp fn inst then getOperand fn inst 0
                 else Some operand
  | None => Some operand
  end.

(** The value whose type gives the state of a position. *)
Definition position_value (fn : FuncOp) (p : Position) : option Value :=
  match p with
  | OperandPos op index =>
      operand ← getOperand fn op index; dequantized_value fn operand
  | ResultPos op index => Some (quantized_value fn (OpResult op index))
  | ArgPos arg => Some (quantized_value fn (BlockArgument arg))
  end.

(** The state store as the initialization builds it: one state for each
    value met, which is the record the type of the value gives, and every
    position resolved to the state of a value. *)
Definition initial_store (d : QuantizationDriver) : Prop :=
  size (value_to_state_ d) = length (states_ d)
  ∧ (∀ v i, value_to_state_ d !! v = Some i →
       ∃ t, getType (fn_ d) v = Some t
            ∧ states_ d !! i = Some (initial_state t))
  ∧ (∀ v w i, value_to_state_ d !! v = Some i →
              value_to_state_ d !! w = Some i → v = w)
  ∧ (∀ p i, state_index d p = Some i →
       ∃ v, value_to_state_ d !! v = Some i).

#[global] Instance Attribute_eq_dec : EqDecision Attribute.
Proof. solve_decision. Defined.

#[global] Instance OpNode_eq_dec : EqDecision OpNode.
Proof. solve_decision. Defined.

#[global] Instance FuncOp_eq_dec : EqDecision FuncOp.
Proof. solve_decision. Defined.

(** [node'] is [node] with, possibly, other values in its operand
    slots. *)
Definition rewired (node node' : OpNode) : Prop :=
  name node' = name node
  ∧ resultTypes node' = resultTypes node
  ∧ valueAttr node' = valueAttr node
  ∧ volatile node' = volatile node
  ∧ affineOperandIndex node' = affineOperandIndex node
  ∧ length (operands node') = length (operands node).

(** [v] and [v'] are the results of two constants of [fn] with the same
    types and the same content. *)
Definition same_constant (fn : FuncOp) (v v' : Value) : Prop :=
  ∃ c c' n n',
    v = OpResult c 0 ∧ v' = OpResult c' 0
    ∧ body fn !! c = Some n ∧ body fn !! c' = Some n'
    ∧ name n = ArithConstantOp ∧ name n' = ArithConstantOp
    ∧ resultTypes n' = resultTypes n ∧ valueAttr n' = valueAttr n.

(** [fn'] is [fn] with constants added, where an operand may read a
    constant with the content of the one it read in [fn]. *)
Definition constants_copied (fn fn' : FuncOp) : Prop :=
  argumentTypes fn' = argumentTypes fn
  ∧ (∀ op node, body fn !! op = Some node →
       ∃ node', body fn' !! op = Some node'
         ∧ rewired node node'
         ∧ ∀ k v, operands node !! k = Some v →
             ∃ v', operands node' !! k = Some v'
                   ∧ (v' = v ∨ same_constant fn' v v'))
  ∧ (∀ op node', length (body fn) ≤ op → body fn' !! op = Some node' →
       name node' = ArithConstantOp ∧ operands node' = []).

(** What the preprocessor may change of the driver. *)
Definition preprocessed (d d' : QuantizationDriver) : Prop :=
  constants_copied (fn_ d) (fn_ d')
  ∧ weights_ d ⊆ weights_ d'
  ∧ optimized_weights_ d ⊆ optimized_weights_ d'
  ∧ states_ d' = states_ d
  ∧ rescale_states_ d' = rescale_states_ d
  ∧ value_to_state_ d' = value_to_state_ d
  ∧ operand_states_ d' = operand_states_ d
  ∧ result_states_ d' = result_states_ d
  ∧ arg_states_ d' = arg_states_ d
  ∧ work_list_ d' = work_list_ d
  ∧ args_ d' = args_ d.

(** [fn'] is [fn] with quantize and dequantize casts added: the nodes of
    [fn] stay, with their names, result types, content and number of
    operands. *)
Definition casts_added (fn fn' : FuncOp) : Prop :=
  argumentTypes fn' = argumentTypes fn
  ∧ (∀ op node, body fn !! op = Some node →
       ∃ node', body fn' !! op = Some node'
         ∧ name node' = name node
         ∧ resultTypes node' = resultTypes node
         ∧ valueAttr node' = valueAttr node
         ∧ affineOperandIndex node' = affineOperandIndex node
         ∧ length (operands node') = length (operands node))
  ∧ (∀ op node', length (body fn) ≤ op → body fn' !! op = Some node' →
       name node' = QuantizeCastOp ∨ name node' = DequantizeCastOp).

(** The drivers [d] and [d'] differ at most in the function. *)
Definition only_function_differs (d d' : QuantizationDriver) : Prop :=
  states_ d' = states_ d
  ∧ rescale_states_ d' = rescale_states_ d
  ∧ value_to_state_ d' = value_to_state_ d
  ∧ operand_states_ d' = operand_states_ d
  ∧ result_states_ d' = result_states_ d
  ∧ arg_states_ d' = arg_states_ d
  ∧ weights_ d' = weights_ d
  ∧ optimized_weights_ d' = optimized_weights_ d
  ∧ work_list_ d' = work_list_ d
  ∧ args_ d' = args_ d.

(** Nothing to materialize for a state: it is empty, or it came with the
    function and no requantization is pending. *)
Definition settled (state : QuantState) (requantizes : list RequantizeState)
  : Prop :=
  IsEmpty state = true ∨ (immutable state = true ∧ requantizes = []).

#[global] Instance RequantizeState_eq_dec : EqDecision RequantizeState.
Proof. solve_decision. Defined.

#[global] Instance settled_dec state requantizes :
  Decision (settled state requantizes).
Proof. unfold settled. apply _. Defined.

(** The state [i] holds the parameters [p], or a requantization to [p] is
    pending for it. *)
Definition carries (p : QuantParams) (d : QuantizationDriver) (i : nat)
  : Prop :=
  ∃ state, states_ d !! i = Some state
           ∧ (params state = p ∨ p ∈ rescale_params <$> rescales_at d i).

(** The state [k] is the one of an operand or of a result of [op] whose
    type is a float tensor. *)
Definition float_position_state (d : QuantizationDriver) (op : Operation)
    (k : nat) : Prop :=
  (∃ i v t, getOperand (fn_ d) op i = Some v
            ∧ getType (fn_ d) v = Some t ∧ isFloatShaped t = true
            ∧ operand_states_ d !! (op, i) = Some k)
  ∨ (∃ res t, getType (fn_ d) (OpResult op res) = Some t
              ∧ isFloatShaped t = true
              ∧ result_states_ d !! (op, res) = Some k).

(** What the rounds of the same-scale loops for the operation [op] and
    the parameters [p] may change between two of their states: the index
    maps and the function stay, a state that carries [p] still does, the
    states that are not those of float tensor positions of [op] stay, and
    the flag stays false only if nothing has changed. *)
Definition broadcast_step (op : Operation) (p : QuantParams)
    (s s' : bool * QuantizationDriver) : Prop :=
  fn_ s'.2 = fn_ s.2
  ∧ operand_states_ s'.2 = operand_states_ s.2
  ∧ result_states_ s'.2 = result_states_ s.2
  ∧ (∀ k, carries p s.2 k → carries p s'.2 k)
  ∧ (∀ k, ¬ float_position_state s.2 op k →
          states_ s'.2 !! k = states_ s.2 !! k
          ∧ rescales_at s'.2 k = rescales_at s.2 k)
  ∧ (s'.1 = false → s.1 = false ∧ s'.2 = s.2).

(** Every node of [fn] is in [fn'], with at most other operands. *)
Definition nodes_kept (fn fn' : FuncOp) : Prop :=
  argumentTypes fn' = argumentTypes fn
  ∧ ∀ op node, body fn !! op = Some node →
      ∃ node', body fn' !! op = Some node' ∧ rewired node node'.

(** What the propagation keeps of the driver [d] in [d']: the nodes of the
    function, the states with their immutable flags, the parameters asked
    for by the pending requantizations in their order, the cache, the
    positions that have a state, the states of the arguments, the weights
    and the arguments. *)
Definition store_extended (d d' : QuantizationDriver) : Prop :=
  nodes_kept (fn_ d) (fn_ d')
  ∧ (∀ k s, states_ d !! k = Some s →
       ∃ s', states_ d' !! k = Some s' ∧ immutable s' = immutable s)
  ∧ (∀ j, (rescale_params <$> rescales_at d j)
          `prefix_of` (rescale_params <$> rescales_at d' j))
  ∧ value_to_state_ d ⊆ value_to_state_ d'
  ∧ (∀ q, is_Some (state_index d q) → is_Some (state_index d' q))
  ∧ (∀ arg, arg_states_ d' !! arg = arg_states_ d !! arg)
  ∧ weights_ d' = weights_ d
  ∧ optimized_weights_ d' = optimized_weights_ d
  ∧ args_ d' = args_ d.

(** The position [q] has a state, for which nothing is to be
    materialized. *)
Definition settled_position (d : QuantizationDriver) (q : Position) : Prop :=
  ∃ i state, state_index d q = Some i
             ∧ states_ d !! i = Some state
             ∧ settled state (rescales_at d i).

#[global] Instance settled_position_dec d q : Decision (settled_position d q).
Proof.
  unfold settled_position.
  destruct (state_index d q) as [i|] eqn:Hi;
    [|right; by intros (? & ? & ? & _)].
  destruct (states_ d !! i) as [state|] eqn:Hs;
    [|right; intros (? & ? & [= <-] & ? & _); congruence].
  destruct (decide (settled state (rescales_at d i))) as [Hyes|Hno].
  - left. by exists i, state.
  - right. intros (? & ? & [= <-] & Hs' & ?). congruence.
Defined.

(** The positions of an operation: its operands, then its results. *)
Definition numResults (fn : FuncOp) (op : Operation) : nat :=
  from_option (λ node, length (resultTypes node)) 0 (body fn !! op).

Definition op_positions (fn : FuncOp) (op : Operation) : list Position :=
  (OperandPos op <$> seq 0 (numOperands fn op))
  ++ (ResultPos op <$> seq 0 (numResults fn op)).

(** Nothing recorded yet in the state store, as when the driver is
    constructed. *)
Definition store_is_empty (d : QuantizationDriver) : Prop :=
  states_ d = [] ∧ value_to_state_ d = ∅ ∧ operand_states_ d = ∅
  ∧ result_states_ d = ∅ ∧ arg_states_ d = ∅.

(** What holds all along [SetupAllStates] on the function [fn]: the store
    is as the initialization builds it, and a position that has a state
    has the state of the value behind it. *)
Definition setup_invariant (fn : FuncOp) (d : QuantizationDriver) : Prop :=
  fn_ d = fn
  ∧ initial_store d
  ∧ ∀ p i, state_index d p = Some i →
      ∃ v, position_value fn p = Some v ∧ value_to_state_ d !! v = Some i.

Section Scheduler.
Context (E : Collaborators).
(** [IsOpQuantizable] (quantization_utils) and the two constructor
    arguments the propagation reads besides those of [Collaborators]. *)
Context (IsOpQuantizable : FuncOp → Operation → bool).
Context (bit_width_ : Z) (is_qdq_conversion_ : bool).

(** The body of the loop of [SetupAllStates] over the arguments. *)
Definition setup_arg (d : QuantizationDriver) (arg : nat)
  : option QuantizationDriver :=
  let d := set_args (λ args, args ++ [arg]) d in
  InitializeArgState arg (quantized_value (fn_ d) (BlockArgument arg)) d.

Definition setup_operand (op : Operation) (d : QuantizationDriver) (i : nat)
  : option QuantizationDriver :=
  operand ← getOperand (fn_ d) op i;
  operand ← dequantized_value (fn_ d) operand;
  InitializeOperandState op i operand d.

Definition setup_result (op : Operation) (d : QuantizationDriver) (res : nat)
  : option QuantizationDriver :=
  InitializeResultState op res (quantized_value (fn_ d) (OpResult op res)) d.

(** The callback of the walk of [SetupAllStates]. *)
Definition setup_op (d : QuantizationDriver) (op : Operation)
  : option QuantizationDriver :=
  scale_spec ← GetQuantScaleSpec E (fn_ d) op;
  if negb (IsOpQuantizable (fn_ d) op)
     && negb (has_same_scale_requirement scale_spec)
  then Some d
  else
    let d := set_work_list (λ work, work ++ [op]) d in
    d ← for_each (setup_operand op) d (seq 0 (numOperands (fn_ d) op));
    node ← body (fn_ d) !! op;
    for_each (setup_result op) d (seq 0 (length (resultTypes node))).

(** [SetupAllStates].  [order] lists the operations as the walk meets
    them, which is their order in the block: the order of the handles as
    long as no node has been created.  The function operation itself,
    which the walk also reaches, is not a node here. *)
Definition SetupAllStates (order : list Operation) (d : QuantizationDriver)
  : option QuantizationDriver :=
  d ← for_each setup_arg d (seq 0 (length (argumentTypes (fn_ d))));
  for_each setup_op d order.

(** The operations the walk puts on the work list. *)
Definition worklisted (fn : FuncOp) (op : Operation) : bool :=
  match GetQuantScaleSpec E fn op with
  | Some scale_spec =>
      IsOpQuantizable fn op || has_same_scale_requirement scale_spec
  | None => false
  end.

(** The positions that have a state after [SetupAllStates]: the
    arguments, and the operands and results of the operations on the work
    list. *)
Definition setup_positions (fn : FuncOp) (order : list Operation)
  : list Position :=
  (ArgPos <$> seq 0 (length (argumentTypes fn)))
  ++ (filter (λ op, worklisted fn op = true) order ≫= op_positions fn).

(** The two loops that give the chosen parameters to the operands and to
    the results of float tensor type. *)
Definition broadcast_operand (op : Operation) (p : QuantParams)
    (acc : bool * QuantizationDriver) (i : nat)
  : option (bool * QuantizationDriver) :=
  let '(changed, d) := acc in
  operand ← getOperand (fn_ d) op i;
  t ← getType (fn_ d) operand;
  if isFloatShaped t then
    '(c, d) ← SetOperandParams E op i p false d;
    Some (changed || c, d)
  else Some (changed, d).

Definition broadcast_result (op : Operation) (p : QuantParams)
    (acc : bool * QuantizationDriver) (res : nat)
  : option (bool * QuantizationDriver) :=
  let '(changed, d) := acc in
  t ← getType (fn_ d) (OpResult op res);
  if isFloatShaped t then
    '(c, d) ← SetResultParams E op res p d;
    Some (changed || c, d)
  else Some (changed, d).

Definition same_scale_broadcast (op : Operation) (p : QuantParams)
    (acc : bool * QuantizationDriver) : option (bool * QuantizationDriver) :=
  node ← body (fn_ acc.2) !! op;
  acc ← for_each (broadcast_operand op p) acc
                 (seq 0 (length (operands node)));
  for_each (broadcast_result op p) acc (seq 0 (length (resultTypes node))).

(** The fixed output range, given to every result. *)
Definition fixed_range_results (op : Operation)
    (scale_spec : OpQuantScaleSpec) (acc : bool * QuantizationDriver)
  : option (bool * QuantizationDriver) :=
  if has_fixed_output_range scale_spec && infer_tensor_range_ E
     && negb is_qdq_conversion_
  then
    node ← body (fn_ acc.2) !! op;
    let p := fixed_output_range_func scale_spec (is_signed_ E) bit_width_ in
    for_each (λ '(changed, d) i,
                match p with
                | Some _ =>
                    '(c, d) ← SetResultParams E op i p d;
                    Some (changed || c, d)
                | None => Some (changed, d)
                end)
             acc (seq 0 (length (resultTypes node)))
  else Some acc.

(** The state of the loop of [PropagateParamsAndReturnIfChanged]: the
    driver, the set [quantized_] and the flag [changed]. *)
Definition LoopState := (QuantizationDriver * gset nat * bool)%type.

(** The loop over the bias operands, in the order of their indices (the
    source walks an unordered map). *)
Definition bias_round (op : Operation) (st : LoopState)
    (it : nat * (list nat * AccumulatorScaleFunc)) : option LoopState :=
  let '(d, quantized, changed) := st in
  let '(bias_index, (non_biases, func)) := it in
  p ← GetBiasParams E op bias_index non_biases func d;
  match p with
  | None => Some (d, quantized ∖ {[op]}, changed)
  | Some _ =>
      '(c, d) ← SetBiasParamsWithAdjustments E op bias_index non_biases p d;
      Some (d, quantized, changed || c)
  end.

(** One round of the loop, for the operation [op] taken from the work
    list. *)
Definition propagate_op (op : Operation) (st : LoopState)
  : option LoopState :=
  let '(d, quantized, changed) := st in
  if bool_decide (op ∈ quantized) then Some st else
  let quantized := {[op]} ∪ quantized in
  if isa ArithConstantOp (fn_ d) op then
    '(c, d) ← propagate_constant E op d;
    Some (d, quantized, changed || c)
  else
    scale_spec ← GetQuantScaleSpec E (fn_ d) op;
    same_scale ←
      (if has_same_scale_requirement scale_spec then
         p ← GetQuantParamsForSameScaleConstraint op d;
         match p with
         | None => Some None
         | Some _ => Some <$> same_scale_broadcast op p (changed, d)
         end
       else Some (Some (changed, d)));
    match same_scale with
    | None => Some (d, quantized ∖ {[op]}, changed)
    | Some acc =>
        '(changed, d) ← fixed_range_results op scale_spec acc;
        spec ← GetQuantSpec E (fn_ d) op;
        for_each (bias_round op) (d, quantized, changed)
                 (map_to_list (biases_params spec))
    end.

(** At most [n] rounds of the loop: the operation at the back of the work
    list is taken off and handled, until the list is empty. *)
Fixpoint propagate_rounds (n : nat) (st : LoopState) : option LoopState :=
  match n with
  | 0 => Some st
  | S n =>
      let '(d, quantized, changed) := st in
      match list.last (work_list_ d) with
      | None => Some st
      | Some op =>
          let d := set_work_list (@removelast _) d in
          st ← propagate_op op (d, quantized, changed);
          propagate_rounds n st
      end
  end.

End Scheduler.

(** An argument that reaches a reshape through a quantize cast and a
    dequantize cast. *)
Definition qdq_fn : FuncOp :=
  {| body := [mkQuantizeCastOp quantized_tensor (BlockArgument 0);
              mkDequantizeCastOp tensor_f32 (OpResult 0 0);
              mkOp reshape [OpResult 1 0]];
     argumentTypes := [tensor_f32] |}.

(** Every operation but the casts is quantizable. *)
Definition quantizable (fn : FuncOp) (op : Operation) : bool :=
  negb (isa QuantizeCastOp fn op) && negb (isa DequantizeCastOp fn op).

(** [qdq_fn] after the setup, then with the propagation run for two
    rounds, and the parameters the reshape gives to its result. *)
Definition qdq_set_up : QuantizationDriver :=
  default (new_driver qdq_fn)
    (SetupAllStates example_collaborators quantizable [0; 1; 2]
       (new_driver qdq_fn)).

Definition qdq_propagated : LoopState :=
  default (qdq_set_up, ∅, false)
    (propagate_rounds example_collaborators 8 false 2 (qdq_set_up, ∅, false)).

Definition qdq_broadcast : bool * QuantizationDriver :=
  default (false, qdq_set_up)
    (same_scale_broadcast example_collaborators 2 (uniform_i8 0.5)
       (false, qdq_set_up)).

Definition qdq_finalized : QuantizationDriver :=
  default qdq_propagated.1.1 (Finalize qdq_propagated.1.1).

(** The functions with a shared constant after the preprocessing. *)
Definition three_uses_preprocessed : QuantizationDriver :=
  default (new_driver three_uses_fn)
    (PreprocessConstantOps example_collaborators (new_driver three_uses_fn)).

Definition two_uses_preprocessed : QuantizationDriver :=
  default (new_driver two_uses_fn)
    (preprocess_constant example_collaborators (new_driver two_uses_fn) 0).

(** A reshape of a float argument, after the setup: no state holds
    parameters. *)
Definition plain_reshape_fn : FuncOp :=
  {| body := [mkOp reshape [BlockArgument 0]];
     argumentTypes := [tensor_f32] |}.

Definition plain_reshape_set_up : QuantizationDriver :=
  default (new_driver plain_reshape_fn)
    (SetupAllStates example_collaborators quantizable [0]
       (new_driver plain_reshape_fn)).

(** [three_uses_fn] after the preprocessing and the setup, and after the
    round of the propagation on its weight. *)
Definition weights_set_up : QuantizationDriver :=
  default three_uses_preprocessed
    (SetupAllStates example_collaborators quantizable [0; 1; 2; 3; 4]
       three_uses_preprocessed).

Definition weights_round : LoopState :=
  default (weights_set_up, ∅, false)
    (propagate_op example_collaborators 8 false 0 (weights_set_up, ∅, false)).

(** ** What reaches the materializer *)

#[global] Instance distinct_targets_dec rescales :
  Decision (distinct_targets rescales).
Proof. unfold distinct_targets. apply _. Defined.

(** All the pending requantizations of a list share one position. *)
Definition one_position (states : list RequantizeState) : Prop :=
  Forall (λ s1, Forall (λ s2, pos s1 = pos s2) states) states.

#[global] Instance one_position_dec states : Decision (one_position states).
Proof. unfold one_position. apply _. Defined.

(** The requantizations of a list were all queued for operands. *)
Definition queued_for_operands (states : list RequantizeState) : Prop :=
  Forall (λ s, pos s = ON_OUTPUT) states.

(** The cached values are values of the function with a state in the
    vector; the state of an argument is the state of no result, and the
    requantizations pending for it were all queued for operands. *)
Definition args_apart (d : QuantizationDriver) : Prop :=
  (∀ v i, value_to_state_ d !! v = Some i →
     i < length (states_ d) ∧ is_Some (getType (fn_ d) v))
  ∧ ∀ arg i, arg_states_ d !! arg = Some i →
      i < length (states_ d)
      ∧ (∀ op r, result_states_ d !! (op, r) ≠ Some i)
      ∧ queued_for_operands (rescales_at d i).

(** A quantize cast has one operand. *)
Definition casts_are_unary (fn : FuncOp) : Prop :=
  Forall (λ node, name node = QuantizeCastOp → length (operands node) = 1)
         (body fn).





(** An argument quantized with the scale 0.25 that reaches three reshapes
    with two operands, together with the result of a reshape that is
    quantized with the scale 0.5. *)
Definition quarter_tensor : Type_ :=
  ShapedType [4%Z] (Quantized (UniformQuantizedType i8_base 0.25 0)).

Definition requantized_fn : FuncOp :=
  {| body := [mkQuantizeCastOp quarter_tensor (BlockArgument 0);
              mkDequantizeCastOp tensor_f32 (OpResult 0 0);
              mkOp reshape [OpResult 1 0];
              mkQuantizeCastOp quantized_tensor (OpResult 2 0);
              mkDequantizeCastOp tensor_f32 (OpResult 3 0);
              mkOp reshape [OpResult 1 0; OpResult 4 0];
              mkOp reshape [OpResult 4 0; OpResult 1 0];
              mkOp reshape [OpResult 4 0; OpResult 1 0]];
     argumentTypes := [tensor_f32] |}.

(** [requantized_fn] after the setup, after the first round of the
    propagation, and after the three rounds that empty the work list. *)
Definition requantized_set_up : QuantizationDriver :=
  default (new_driver requantized_fn)
    (SetupAllStates example_collaborators quantizable [0; 1; 2; 3; 4; 5; 6; 7]
       (new_driver requantized_fn)).

Definition requantized_round : LoopState :=
  default (requantized_set_up, ∅, false)
    (propagate_rounds example_collaborators 8 false 1
       (requantized_set_up, ∅, false)).

Definition requantized_propagated : LoopState :=
  default requantized_round
    (propagate_rounds example_collaborators 8 false 3 requantized_round).

(** * Properties *)

Section StateStore.

Lemma lookup_snoc_length {A} (l : list A) (x : A) :
  (l ++ [x]) !! length l = Some x.
Proof. by rewrite lookup_app_r, Nat.sub_diag. Qed.

Lemma initial_state_immutable t :
  immutable (initial_state t) = true ↔ is_Some (getQuantizedElementType t).
Proof.
  unfold initial_state, HasQuantParams. simpl.
  destruct (getQuantizedElementType t) as [q|]; case_bool_decide; simpl;
    try done; split; eauto; try done.
Qed.

Lemma InitializeStateForValue_fresh op index value as_result d t :
  value_to_state_ d !! value = None →
  getType (fn_ d) value = Some t →
  ∃ d', InitializeStateForValue op index value as_result d = Some d'
    ∧ states_ d' = states_ d ++ [initial_state t]
    ∧ value_to_state_ d' = <[value := length (states_ d)]> (value_to_state_ d)
    ∧ state_index d' (if as_result then ResultPos op index
                      else OperandPos op index) = Some (length (states_ d)).
Proof.
  intros Hv Ht. unfold InitializeStateForValue. rewrite Hv, Ht. simpl.
  eexists. split; [done|]. destruct as_result; simpl;
    by rewrite lookup_insert_eq.
Qed.

Lemma InitializeArgState_fresh arg value d t :
  value_to_state_ d !! value = None →
  getType (fn_ d) value = Some t →
  ∃ d', InitializeArgState arg value d = Some d'
    ∧ states_ d' = states_ d ++ [initial_state t]
    ∧ value_to_state_ d' = <[value := length (states_ d)]> (value_to_state_ d)
    ∧ state_index d' (ArgPos arg) = Some (length (states_ d)).
Proof.
  intros Hv Ht. unfold InitializeArgState. rewrite Hv, Ht. simpl.
  eexists. split; [done|]. simpl. by rewrite lookup_insert_eq.
Qed.

(** C1.  When a value is met for the first time, by
    [InitializeStateForValue] (operand or result) or by
    [InitializeArgState], the state created for it holds the parameters
    its type carries, and its [immutable] flag is set exactly when the type
    carries quantization parameters. *)
Theorem immutable_iff_type_is_quantized (p : Position) (value : Value)
    (d : QuantizationDriver) (t : Type_) :
  value_to_state_ d !! value = None →
  getType (fn_ d) value = Some t →
  ∃ d' state,
    initialize d (p, value) = Some d'
    ∧ states_ d' = states_ d ++ [state]
    ∧ state_at d' p = Some state
    ∧ params state = getQuantizedElementType t
    ∧ (immutable state = true ↔ is_Some (getQuantizedElementType t)).
Proof.
  intros Hv Ht. unfold initialize, state_at. simpl.
  destruct p as [op index|op index|arg]; simpl.
  - destruct (InitializeStateForValue_fresh op index value false d t Hv Ht)
      as (d' & Hd & Hs & _ & Hi).
    exists d', (initial_state t). simpl in Hi.
    rewrite Hi, Hs. simpl. rewrite lookup_snoc_length.
    repeat split; try done; apply initial_state_immutable.
  - destruct (InitializeStateForValue_fresh op index value true d t Hv Ht)
      as (d' & Hd & Hs & _ & Hi).
    exists d', (initial_state t). simpl in Hi.
    rewrite Hi, Hs. simpl. rewrite lookup_snoc_length.
    repeat split; try done; apply initial_state_immutable.
  - destruct (InitializeArgState_fresh arg value d t Hv Ht)
      as (d' & Hd & Hs & _ & Hi).
    exists d', (initial_state t). simpl in Hi.
    rewrite Hi, Hs. simpl. rewrite lookup_snoc_length.
    repeat split; try done; apply initial_state_immutable.
Qed.

(** *** One state per value *)

Lemma initialize_step d call d' :
  initialize d call = Some d' →
  store_wf d →
  store_wf d'
  ∧ (∀ w i, value_to_state_ d !! w = Some i → value_to_state_ d' !! w = Some i)
  ∧ (∃ i, state_index d' call.1 = Some i ∧ value_to_state_ d' !! call.2 = Some i)
  ∧ (∀ q, q ≠ call.1 → state_index d' q = state_index d q).
Proof.
  destruct call as [p v]. unfold initialize, InitializeOperandState,
    InitializeResultState, InitializeStateForValue, InitializeArgState.
  simpl. intros Hinit Hwf.
  destruct (value_to_state_ d !! v) as [cached|] eqn:Hv.
  - assert (d' = match p with
                 | OperandPos op index =>
                     set_operand_states <[(op, index) := cached]> d
                 | ResultPos op index =>
                     set_result_states <[(op, index) := cached]> d
                 | ArgPos arg => set_arg_states <[arg := cached]> d
                 end) as ->
      by (destruct p; simpl in Hinit; congruence).
    repeat split.
    + intros w i. destruct p; simpl; apply Hwf.
    + by destruct p.
    + exists cached. destruct p; simpl; by rewrite lookup_insert_eq.
    + intros q Hq. destruct p, q; simpl; try done;
        rewrite lookup_insert_ne; congruence.
  - destruct (getType (fn_ d) v) as [t|] eqn:Ht;
      [|destruct p; simpl in Hinit; congruence].
    set (n := length (states_ d)).
    assert (states_ d' = states_ d ++ [initial_state t]
            ∧ value_to_state_ d' = <[v := n]> (value_to_state_ d)
            ∧ state_index d' p = Some n
            ∧ ∀ q, q ≠ p → state_index d' q = state_index d q)
      as (Hs & Hm & Hp & Hq).
    { destruct p; simpl in Hinit; inversion_clear Hinit; simpl;
        rewrite lookup_insert_eq; repeat split; try done;
        intros [] ?; simpl; try done; rewrite lookup_insert_ne; congruence. }
    repeat split.
    + intros w i. rewrite Hm, Hs, length_app. simpl.
      destruct (decide (v = w)) as [->|].
      * rewrite lookup_insert_eq. intros [= <-]. unfold n. lia.
      * rewrite lookup_insert_ne by done. intros ?%Hwf. lia.
    + intros w i Hw. rewrite Hm, lookup_insert_ne; [done|congruence].
    + exists n. by rewrite Hm, lookup_insert_eq.
    + done.
Qed.

Lemma initialize_all_keeps calls : ∀ d d',
  for_each initialize d calls = Some d' →
  store_wf d →
  store_wf d'
  ∧ (∀ w i, value_to_state_ d !! w = Some i → value_to_state_ d' !! w = Some i)
  ∧ (∀ q, q ∉ calls.*1 → state_index d' q = state_index d q).
Proof.
  induction calls as [|call calls IH]; simpl; intros d d' Hrun Hwf.
  - by simplify_eq.
  - destruct (initialize d call) as [d1|] eqn:Hstep; [|done]. simpl in Hrun.
    destruct (initialize_step _ _ _ Hstep Hwf) as (Hwf1 & Hmono & _ & Hother).
    destruct (IH _ _ Hrun Hwf1) as (Hwf' & Hmono' & Hother').
    repeat split; [done|by auto|].
    intros q Hq. rewrite not_elem_of_cons in Hq. destruct Hq as [Hne Hq].
    rewrite Hother' by done. by apply Hother.
Qed.

Lemma initialize_all_resolves calls : ∀ d d' p v,
  for_each initialize d calls = Some d' →
  store_wf d →
  NoDup calls.*1 →
  (p, v) ∈ calls →
  ∃ i, state_index d' p = Some i ∧ value_to_state_ d' !! v = Some i
       ∧ i < length (states_ d').
Proof.
  induction calls as [|call calls IH]; simpl; intros d d' p v Hrun Hwf Hnd Hin.
  - by apply elem_of_nil in Hin.
  - destruct (initialize d call) as [d1|] eqn:Hstep; [|done]. simpl in Hrun.
    apply list.NoDup_cons in Hnd as [Hfresh Hnd].
    destruct (initialize_step _ _ _ Hstep Hwf) as (Hwf1 & _ & (i & Hi & Hv) & _).
    apply elem_of_cons in Hin as [<-|Hin].
    + destruct (initialize_all_keeps _ _ _ Hrun Hwf1) as (Hwf' & Hmono & Hother).
      exists i. simpl in *. rewrite Hother by done.
      split; [done|]. split; [by apply Hmono|]. eapply Hwf'. by apply Hmono.
    + by eapply IH.
Qed.

(** Distinct values never share an index. *)
Lemma initialize_step_inj d call d' :
  initialize d call = Some d' →
  store_wf d →
  (∀ v w i, value_to_state_ d !! v = Some i →
            value_to_state_ d !! w = Some i → v = w) →
  ∀ v w i, value_to_state_ d' !! v = Some i →
           value_to_state_ d' !! w = Some i → v = w.
Proof.
  destruct call as [p u]. unfold initialize, InitializeOperandState,
    InitializeResultState, InitializeStateForValue, InitializeArgState.
  simpl. intros Hinit Hwf Hinj.
  destruct (value_to_state_ d !! u) as [cached|] eqn:Hu.
  - assert (value_to_state_ d' = value_to_state_ d) as ->; [|done].
    destruct p; simpl in Hinit; by simplify_eq.
  - destruct (getType (fn_ d) u) as [t|] eqn:Ht;
      [|destruct p; simpl in Hinit; congruence].
    assert (value_to_state_ d'
            = <[u := length (states_ d)]> (value_to_state_ d)) as ->.
    { destruct p; simpl in Hinit; by simplify_eq. }
    intros v w i.
    destruct (decide (u = v)) as [<-|Hv], (decide (u = w)) as [<-|Hw];
      rewrite ?lookup_insert_eq, ?lookup_insert_ne by done; try done.
    + intros [= <-] Hw'%Hwf. lia.
    + intros Hv'%Hwf [= <-]. lia.
    + apply Hinj.
Qed.

Lemma initialize_all_inj calls : ∀ d d',
  for_each initialize d calls = Some d' →
  store_wf d →
  (∀ v w i, value_to_state_ d !! v = Some i →
            value_to_state_ d !! w = Some i → v = w) →
  ∀ v w i, value_to_state_ d' !! v = Some i →
           value_to_state_ d' !! w = Some i → v = w.
Proof.
  induction calls as [|call calls IH]; simpl; intros d d' Hrun Hwf Hinj.
  - by simplify_eq.
  - destruct (initialize d call) as [d1|] eqn:Hstep; [|done]. simpl in Hrun.
    destruct (initialize_step _ _ _ Hstep Hwf) as (Hwf1 & _).
    eapply IH; [done|done|]. by eapply initialize_step_inj.
Qed.

(** Positions initialized with different values get different states. *)
Lemma distinct_values_distinct_states fn calls d p1 p2 v1 v2 :
  for_each initialize (new_driver fn) calls = Some d →
  NoDup calls.*1 →
  (p1, v1) ∈ calls →
  (p2, v2) ∈ calls →
  v1 ≠ v2 →
  is_Some (state_index d p1) ∧ is_Some (state_index d p2)
  ∧ state_index d p1 ≠ state_index d p2.
Proof.
  intros Hrun Hnd Hin1 Hin2 Hne.
  assert (store_wf (new_driver fn)) as Hwf by (intros ??; simpl; by rewrite lookup_empty).
  destruct (initialize_all_resolves _ _ _ _ _ Hrun Hwf Hnd Hin1)
    as (i1 & Hi1 & Hv1 & _).
  destruct (initialize_all_resolves _ _ _ _ _ Hrun Hwf Hnd Hin2)
    as (i2 & Hi2 & Hv2 & _).
  rewrite Hi1, Hi2. repeat split; eauto. intros [= ->]. apply Hne.
  eapply (initialize_all_inj _ _ _ Hrun Hwf); [|done..].
  intros ???. simpl. by rewrite lookup_empty.
Qed.

Lemma new_driver_wf fn : store_wf (new_driver fn).
Proof. intros v i. simpl. by rewrite lookup_empty. Qed.

End StateStore.

Section Assignment.
Context (E : Collaborators).

Lemma rescales_at_insert d i j l :
  rescales_at (set_rescale_states <[i := l]> d) j
  = if decide (i = j) then l else rescales_at d j.
Proof.
  unfold rescales_at. simpl. case_decide as Hij.
  - subst. by rewrite lookup_insert_eq.
  - by rewrite lookup_insert_ne.
Qed.

Lemma assign_params_lookup i p states state :
  states !! i = Some state →
  assign_params i p states !! i
  = Some {| params := p; immutable := immutable state |}.
Proof.
  intros Hs. unfold assign_params. rewrite Hs.
  apply list_lookup_insert_eq. by eapply lookup_lt_Some.
Qed.

Lemma assign_params_lookup_ne i k p states :
  i ≠ k → assign_params i p states !! k = states !! k.
Proof.
  intros Hne. unfold assign_params.
  destruct (states !! i); [|done]. by apply list_lookup_insert_ne.
Qed.

Lemma assign_params_length i p states :
  length (assign_params i p states) = length states.
Proof. unfold assign_params. destruct (states !! i); [|done]. apply length_insert. Qed.

(** The loop over the pending entries finds the first one that asks for
    [p], and only adds the user to it. *)
Lemma add_user_to_rescale_found p user l1 r l2 :
  Forall (λ r', rescale_params r' ≠ p) l1 →
  rescale_params r = p →
  add_user_to_rescale p user (l1 ++ r :: l2)
  = Some (l1 ++ {| pos := pos r; rescale_params := p;
                   users := users r ++ [user] |} :: l2).
Proof.
  intros Hl1 Hr. induction Hl1 as [|r' l1 Hr' _ IH]; simpl.
  - rewrite decide_True by done. by rewrite Hr.
  - rewrite decide_False by done. by rewrite IH.
Qed.

Lemma add_user_to_rescale_none p user l :
  Forall (λ r', rescale_params r' ≠ p) l →
  add_user_to_rescale p user l = None.
Proof.
  induction 1 as [|r' l Hr' _ IH]; simpl; [done|].
  rewrite decide_False by done. by rewrite IH.
Qed.

Lemma add_user_to_rescale_not_found p user l :
  add_user_to_rescale p user l = None →
  p ∉ rescale_params <$> l.
Proof.
  induction l as [|r l IH]; simpl; intros Hl.
  - apply not_elem_of_nil.
  - case_decide; [done|].
    destruct (add_user_to_rescale p user l); [done|].
    apply not_elem_of_cons. split; [congruence|by apply IH].
Qed.

(** What [SetOperandParams] does, by the branch taken. *)
Lemma SetOperandParams_cases op index p override d i state :
  operand_states_ d !! (op, index) = Some i →
  states_ d !! i = Some state →
  (params state = p
   ∧ SetOperandParams E op index p override d = Some (false, d))
  ∨ (params state ≠ p ∧ IsEmpty state = false ∧ override = false
     ∧ ∃ rescales',
         SetOperandParams E op index p override d
         = Some (true, set_rescale_states <[i := rescales']> d)
         ∧ match add_user_to_rescale p (op, index) (rescales_at d i) with
           | Some l => rescales' = l
           | None => rescales' = rescales_at d i
                       ++ [{| pos := ON_OUTPUT; rescale_params := p;
                              users := [(op, index)] |}]
           end)
  ∨ (params state ≠ p ∧ (IsEmpty state = true ∨ override = true)
     ∧ ∃ work,
         SetOperandParams E op index p override d
         = Some (true, set_work_list work
                         (set_states (assign_params i p) d))).
Proof.
  intros Hi Hs. unfold SetOperandParams. rewrite Hi. simpl. rewrite Hs. simpl.
  case_decide as Hp; [by left|right].
  destruct (IsEmpty state) eqn:Hempty; simpl.
  - right. split; [done|]. split; [by left|]. by eexists.
  - destruct override; simpl.
    + right. split; [done|]. split; [by right|]. by eexists.
    + left. repeat split; try done.
      destruct (add_user_to_rescale p (op, index) (rescales_at d i));
        by eexists.
Qed.

Lemma SetResultParams_cases op index p d i state :
  result_states_ d !! (op, index) = Some i →
  states_ d !! i = Some state →
  (params state = p ∧ SetResultParams E op index p d = Some (false, d))
  ∨ (params state ≠ p ∧ IsEmpty state = false
     ∧ SetResultParams E op index p d
       = Some (true,
               set_rescale_states
                 <[i := rescales_at d i
                          ++ [{| pos := ON_INPUT; rescale_params := p;
                                 users := [] |}]]> d))
  ∨ (params state ≠ p ∧ IsEmpty state = true
     ∧ ∃ work,
         SetResultParams E op index p d
         = Some (true, set_work_list work
                         (set_states (assign_params i p) d))).
Proof.
  intros Hi Hs. unfold SetResultParams. rewrite Hi. simpl. rewrite Hs. simpl.
  case_decide as Hp; [by left|right].
  destruct (IsEmpty state) eqn:Hempty; simpl.
  - right. split; [done|]. split; [done|]. by eexists.
  - by left.
Qed.

(** A call without override leaves every state that holds parameters as
    it is. *)
Lemma SetOperandParams_keeps_nonempty op index p d b d' :
  SetOperandParams E op index p false d = Some (b, d') →
  ∀ k state, states_ d !! k = Some state → IsEmpty state = false →
             states_ d' !! k = Some state.
Proof.
  intros Hset k state Hk Hne.
  destruct (operand_states_ d !! (op, index)) as [i|] eqn:Hi;
    [|by unfold SetOperandParams in Hset; rewrite Hi in Hset].
  destruct (states_ d !! i) as [st|] eqn:Hs;
    [|by unfold SetOperandParams in Hset; rewrite Hi in Hset; simpl in Hset;
         rewrite Hs in Hset].
  destruct (SetOperandParams_cases op index p false d i st Hi Hs)
    as [(_ & Heq)|[(_ & _ & _ & l & Heq & _)|(_ & [Hem|?] & w & Heq)]];
    try done; rewrite Heq in Hset; simplify_eq; simpl; try done.
  rewrite assign_params_lookup_ne; [done|]. intros ->. congruence.
Qed.

Lemma SetResultParams_keeps_nonempty op index p d b d' :
  SetResultParams E op index p d = Some (b, d') →
  ∀ k state, states_ d !! k = Some state → IsEmpty state = false →
             states_ d' !! k = Some state.
Proof.
  intros Hset k state Hk Hne.
  destruct (result_states_ d !! (op, index)) as [i|] eqn:Hi;
    [|by unfold SetResultParams in Hset; rewrite Hi in Hset].
  destruct (states_ d !! i) as [st|] eqn:Hs;
    [|by unfold SetResultParams in Hset; rewrite Hi in Hset; simpl in Hset;
         rewrite Hs in Hset].
  destruct (SetResultParams_cases op index p d i st Hi Hs)
    as [(_ & Heq)|[(_ & _ & Heq)|(_ & Hem & w & Heq)]];
    rewrite Heq in Hset; simplify_eq; simpl; try done.
  rewrite assign_params_lookup_ne; [done|]. intros ->. congruence.
Qed.

Lemma SetOperandParams_Some op index p override d b d' :
  SetOperandParams E op index p override d = Some (b, d') →
  ∃ i state, operand_states_ d !! (op, index) = Some i
             ∧ states_ d !! i = Some state.
Proof.
  unfold SetOperandParams. intros Hset.
  destruct (operand_states_ d !! (op, index)) as [i|]; [|done].
  simpl in Hset. destruct (states_ d !! i) as [state|] eqn:Hs; [|done].
  by exists i, state.
Qed.

Lemma add_user_to_rescale_operand_targets p user l l' :
  add_user_to_rescale p user l = Some l' →
  operand_targets l' = operand_targets l.
Proof.
  unfold operand_targets.
  revert l'. induction l as [|r l IH]; simpl; intros l' Hl'; [done|].
  case_decide.
  - by simplify_eq.
  - destruct (add_user_to_rescale p user l) as [l0|]; simplify_eq/=.
    by rewrite (IH l0).
Qed.

Lemma elem_of_operand_targets p l :
  p ∈ operand_targets l → p ∈ rescale_params <$> l.
Proof.
  unfold operand_targets. rewrite list_elem_of_omap.
  intros (r & Hr & Hp). case_decide; simplify_eq.
  apply list_elem_of_fmap. eauto.
Qed.

Lemma SetOperandParams_distinct op index p override d b d' :
  SetOperandParams E op index p override d = Some (b, d') →
  (∀ j, distinct_targets (rescales_at d j)) →
  ∀ j, distinct_targets (rescales_at d' j).
Proof.
  intros Hset Hd j.
  destruct (SetOperandParams_Some _ _ _ _ _ _ _ Hset) as (i & state & Hi & Hs).
  destruct (SetOperandParams_cases op index p override d i state Hi Hs)
    as [(_ & Heq)|[(_ & _ & _ & l & Heq & Hl)|(_ & _ & w & Heq)]];
    rewrite Heq in Hset; simplify_eq; try apply Hd.
  rewrite rescales_at_insert. case_decide; [subst j|apply Hd].
  unfold distinct_targets.
  destruct (add_user_to_rescale p (op, index) (rescales_at d i)) as [l'|] eqn:Hadd;
    subst l.
  - rewrite (add_user_to_rescale_operand_targets _ _ _ _ Hadd). apply Hd.
  - unfold operand_targets. rewrite omap_app. simpl.
    apply list.NoDup_app. split; [apply Hd|].
    split; [|apply list.NoDup_singleton].
    intros x Hx ->%list_elem_of_singleton.
    by apply (add_user_to_rescale_not_found _ _ _ Hadd), elem_of_operand_targets.
Qed.

Lemma SetResultParams_Some op index p d b d' :
  SetResultParams E op index p d = Some (b, d') →
  ∃ i state, result_states_ d !! (op, index) = Some i
             ∧ states_ d !! i = Some state.
Proof.
  unfold SetResultParams. intros Hset.
  destruct (result_states_ d !! (op, index)) as [i|]; [|done].
  simpl in Hset. destruct (states_ d !! i) as [state|] eqn:Hs; [|done].
  by exists i, state.
Qed.

Lemma SetResultParams_distinct op index p d b d' :
  SetResultParams E op index p d = Some (b, d') →
  (∀ j, distinct_targets (rescales_at d j)) →
  ∀ j, distinct_targets (rescales_at d' j).
Proof.
  intros Hset Hd j.
  destruct (SetResultParams_Some _ _ _ _ _ _ Hset) as (i & state & Hi & Hs).
  destruct (SetResultParams_cases op index p d i state Hi Hs)
    as [(_ & Heq)|[(_ & _ & Heq)|(_ & _ & w & Heq)]];
    rewrite Heq in Hset; simplify_eq; try apply Hd.
  rewrite rescales_at_insert. case_decide; [subst j|apply Hd].
  unfold distinct_targets, operand_targets. rewrite omap_app. simpl.
  rewrite app_nil_r. apply Hd.
Qed.

(** C3, as the code has it.  A result proposal, or an operand proposal
    made without override while no pending requantization already asks for
    [P2], that meets a state holding other parameters leaves the stored
    parameters as they are, appends exactly one requantization asking for
    [P2] ([ON_INPUT], after the producer, for a result; [ON_OUTPUT], before
    the consumer, with that consumer recorded, for an operand) and reports
    a change. *)
Theorem conflict_queues_one_requantize (op : Operation) (index : nat)
    (P2 : QuantParams) (d : QuantizationDriver) (i : nat) (state : QuantState) :
  states_ d !! i = Some state →
  IsEmpty state = false →
  params state ≠ P2 →
  (result_states_ d !! (op, index) = Some i →
   ∃ d', SetResultParams E op index P2 d = Some (true, d')
     ∧ states_ d' = states_ d
     ∧ rescales_at d' i
       = rescales_at d i
           ++ [{| pos := ON_INPUT; rescale_params := P2; users := [] |}])
  ∧ (operand_states_ d !! (op, index) = Some i →
     Forall (λ r, rescale_params r ≠ P2) (rescales_at d i) →
     ∃ d', SetOperandParams E op index P2 false d = Some (true, d')
       ∧ states_ d' = states_ d
       ∧ rescales_at d' i
         = rescales_at d i
             ++ [{| pos := ON_OUTPUT; rescale_params := P2;
                    users := [(op, index)] |}]).
Proof.
  intros Hs Hne Hp. split.
  - intros Hi.
    destruct (SetResultParams_cases op index P2 d i state Hi Hs)
      as [(? & _)|[(_ & _ & Heq)|(_ & ? & _)]]; try congruence.
    eexists. split; [done|]. split; [done|].
    by rewrite rescales_at_insert, decide_True.
  - intros Hi Hall.
    destruct (SetOperandParams_cases op index P2 false d i state Hi Hs)
      as [(? & _)|[(_ & _ & _ & l & Heq & Hadd)|(_ & [?|?] & _)]];
      try congruence.
    rewrite (add_user_to_rescale_none _ _ _ Hall) in Hadd. subst l.
    eexists. split; [done|]. split; [done|].
    by rewrite rescales_at_insert, decide_True.
Qed.

(** C8.  After the initialization calls, two positions initialized with
    the same value resolve to one index of the state vector, so they read
    one record; and parameters stored through one of them (by an operand or
    a result assignment) are what the other reads. *)
Theorem shared_value_shares_state (fn : FuncOp)
    (calls : list (Position * Value)) (d : QuantizationDriver)
    (p1 p2 : Position) (v : Value) :
  for_each initialize (new_driver fn) calls = Some d →
  NoDup calls.*1 →
  (p1, v) ∈ calls →
  (p2, v) ∈ calls →
  ∃ i state,
    state_index d p1 = Some i ∧ state_index d p2 = Some i
    ∧ states_ d !! i = Some state
    ∧ value_to_state_ d !! v = Some i
    ∧ (∀ op index P override, p1 = OperandPos op index →
       ∃ b d', SetOperandParams E op index P override d = Some (b, d')
         ∧ state_at d' p2 = state_at d' p1
         ∧ (IsEmpty state = true ∨ override = true →
            params <$> state_at d' p2 = Some P))
    ∧ (∀ op index P, p1 = ResultPos op index →
       ∃ b d', SetResultParams E op index P d = Some (b, d')
         ∧ state_at d' p2 = state_at d' p1
         ∧ (IsEmpty state = true → params <$> state_at d' p2 = Some P)).
Proof.
  intros Hrun Hnd Hin1 Hin2.
  destruct (initialize_all_resolves _ _ _ _ _ Hrun (new_driver_wf fn) Hnd Hin1)
    as (i & Hi1 & Hv1 & Hlt).
  destruct (initialize_all_resolves _ _ _ _ _ Hrun (new_driver_wf fn) Hnd Hin2)
    as (i' & Hi2 & Hv2 & _).
  assert (i' = i) as -> by congruence.
  destruct (lookup_lt_is_Some_2 (states_ d) i Hlt) as [state Hs].
  exists i, state. repeat split; try done.
  - intros op index P override ->. simpl in Hi1.
    assert (∀ w l, state_at (set_rescale_states l d) p2 = state_at d p2
                   ∧ state_at (set_work_list w (set_states (assign_params i P) d)) p2
                     = Some {| params := P; immutable := immutable state |})
      as Hread.
    { intros w l. unfold state_at. destruct p2; simpl in *; rewrite Hi2; simpl;
        by rewrite (assign_params_lookup _ _ _ _ Hs). }
    destruct (SetOperandParams_cases op index P override d i state Hi1 Hs)
      as [(Hp & Heq)|[(_ & Hne & Hov & l & Heq & _)|(_ & _ & w & Heq)]];
      rewrite Heq; do 2 eexists; (split; [done|]).
    + split; [by unfold state_at; destruct p2; simpl in *; rewrite Hi1, Hi2|].
      intros _. unfold state_at. destruct p2; simpl in *; rewrite Hi2; simpl;
        by rewrite Hs; simpl; rewrite Hp.
    + split; [by unfold state_at; destruct p2; simpl in *; rewrite Hi1, Hi2|].
      intros [?|?]; congruence.
    + destruct (Hread w (λ m, m)) as [_ ->]. split; [|done].
      unfold state_at. simpl. rewrite Hi1. simpl.
      by rewrite (assign_params_lookup _ _ _ _ Hs).
  - intros op index P ->. simpl in Hi1.
    destruct (SetResultParams_cases op index P d i state Hi1 Hs)
      as [(Hp & Heq)|[(_ & Hne & Heq)|(_ & _ & w & Heq)]];
      rewrite Heq; do 2 eexists; (split; [done|]).
    + split; [by unfold state_at; destruct p2; simpl in *; rewrite Hi1, Hi2|].
      intros _. unfold state_at. destruct p2; simpl in *; rewrite Hi2; simpl;
        by rewrite Hs; simpl; rewrite Hp.
    + split; [by unfold state_at; destruct p2; simpl in *; rewrite Hi1, Hi2|].
      congruence.
    + unfold state_at. simpl. rewrite Hi1. simpl.
      rewrite (assign_params_lookup _ _ _ _ Hs).
      split; [|intros _]; destruct p2; simpl in *; rewrite Hi2; simpl;
        by rewrite (assign_params_lookup _ _ _ _ Hs).
Qed.

End Assignment.

Section SameScale.

Lemma collect_states_filter sts : ∀ imm mut,
  collect_states sts (imm, mut)
  = (imm ++ List.filter immutable sts,
     mut ++ List.filter mutable_nonempty sts).
Proof.
  unfold collect_states, mutable_nonempty.
  induction sts as [|s sts IH]; simpl; intros imm mut.
  - by rewrite !app_nil_r.
  - destruct (immutable s); simpl.
    + by rewrite IH, <- app_assoc.
    + destruct (IsEmpty s); simpl; rewrite IH; [done|by rewrite <- app_assoc].
Qed.

Lemma head_filter_find {A} (f : A → bool) l :
  head (List.filter f l) = List.find f l.
Proof. induction l as [|x l IH]; simpl; [done|]. by destruct (f x). Qed.

Lemma filter_nil_find {A} (f : A → bool) l :
  List.filter f l = [] ↔ List.find f l = None.
Proof.
  rewrite <- head_filter_find. by destruct (List.filter f l).
Qed.

Lemma single_front0 f (sts : list QuantState) (X : option QuantParams) :
  (if bool_decide (length sts = 1)
      && bool_decide (length (List.filter f sts) = 1)
   then front_params (List.filter f sts) else X)
  = match single_state f sts with Some p => Some p | None => X end.
Proof.
  destruct sts as [|s [|s' sts]]; simpl; [done| |done].
  by destruct (f s).
Qed.

Lemma single_front f (sts rest : list QuantState) (X : option QuantParams) :
  (if bool_decide (length sts = 1)
      && bool_decide (length (List.filter f sts) = 1)
   then front_params (List.filter f sts ++ rest) else X)
  = match single_state f sts with Some p => Some p | None => X end.
Proof.
  destruct sts as [|s [|s' sts]]; simpl; [done| |done].
  by destruct (f s).
Qed.

Lemma single_back f (sts0 sts : list QuantState) (X : option QuantParams) :
  (if bool_decide (length sts = 1)
      && bool_decide (length (sts0 ++ List.filter f sts) - length sts0 = 1)
   then back_params (sts0 ++ List.filter f sts) else X)
  = match single_state f sts with Some p => Some p | None => X end.
Proof.
  rewrite length_app.
  replace (length sts0 + length (List.filter f sts) - length sts0)
    with (length (List.filter f sts)) by lia.
  destruct sts as [|s [|s' sts]]; simpl; [done| |done].
  destruct (f s); simpl; [|done].
  unfold back_params. by rewrite last_snoc.
Qed.

Lemma first_front f (operand_sts result_sts : list QuantState)
    (X : option QuantParams) :
  (if negb (bool_decide (List.filter f operand_sts
                         ++ List.filter f result_sts = []))
   then front_params (List.filter f operand_sts ++ List.filter f result_sts)
   else X)
  = match first_state f operand_sts result_sts with
    | Some p => Some p
    | None => X
    end.
Proof.
  rewrite <- List.filter_app. unfold first_state, front_params.
  rewrite <- head_filter_find.
  by destruct (List.filter f (operand_sts ++ result_sts)).
Qed.

(** The chain of tests of the source, on the states it has collected,
    decides as the rules of the specification do. *)
Lemma same_scale_chain (operand_sts result_sts : list QuantState) :
  match single_state immutable operand_sts with
  | Some p => Some p
  | None =>
  match single_state immutable result_sts with
  | Some p => Some p
  | None =>
  match first_state immutable operand_sts result_sts with
  | Some p => Some p
  | None =>
  match single_state mutable_nonempty operand_sts with
  | Some p => Some p
  | None =>
  match single_state mutable_nonempty result_sts with
  | Some p => Some p
  | None =>
  match first_state mutable_nonempty operand_sts result_sts with
  | Some p => Some p
  | None => Some None
  end end end end end end
  = Some (same_scale_by_rules operand_sts result_sts).
Proof.
  unfold same_scale_by_rules.
  destruct (single_state immutable operand_sts);
    destruct (single_state immutable result_sts);
    destruct (first_state immutable operand_sts result_sts);
    destruct (single_state mutable_nonempty operand_sts);
    destruct (single_state mutable_nonempty result_sts);
    destruct (first_state mutable_nonempty operand_sts result_sts);
    reflexivity.
Qed.

(** The first immutable state wins whenever the operation has two
    results: neither single-result rule can apply before it. *)
Lemma same_scale_immutable_operand (before after result_sts : list QuantState)
    (o : QuantState) :
  Forall (λ s, immutable s = false) before →
  immutable o = true →
  length result_sts = 2 →
  same_scale_by_rules (before ++ o :: after) result_sts = params o.
Proof.
  intros Hbefore Ho Hres. unfold same_scale_by_rules.
  assert (first_state immutable (before ++ o :: after) result_sts
          = Some (params o)) as Hfirst.
  { unfold first_state. rewrite <- app_assoc.
    induction Hbefore as [|s before Hs _ IH]; simpl.
    - by rewrite Ho.
    - by rewrite Hs. }
  assert (single_state immutable result_sts = None) as ->
    by (by destruct result_sts as [|? [|? [|? ?]]]).
  rewrite Hfirst.
  assert (∀ (x : QuantParams) my, Some x ∪ my = Some x) as Hleft
    by (by intros x []).
  assert (∀ my : option QuantParams, None ∪ my = my) as Hnone
    by (by intros []).
  destruct before as [|s [|s' before]], after as [|a after]; simpl;
    rewrite ?Ho; simpl; repeat (rewrite Hnone || rewrite Hleft); done.
Qed.

(** C4.  On an operation whose operand and result positions are
    initialized, [GetQuantParamsForSameScaleConstraint] returns what the
    first matching rule of the resolution order (4.4) gives, rule 7 being
    the null result; being a function of the states, the choice is
    deterministic.  In particular, on an operation with two results whose
    first immutable state is an operand state, the parameters of that
    operand are chosen. *)
Theorem same_scale_follows_priority_order (op : Operation)
    (d : QuantizationDriver) (node : OpNode)
    (operand_sts result_sts : list QuantState) :
  body (fn_ d) !! op = Some node →
  operand_quant_states op (length (operands node)) d = Some operand_sts →
  result_quant_states op (length (resultTypes node)) d = Some result_sts →
  GetQuantParamsForSameScaleConstraint op d
  = Some (same_scale_by_rules operand_sts result_sts)
  ∧ ∀ before o after,
      operand_sts = before ++ o :: after →
      Forall (λ s, immutable s = false) before →
      immutable o = true →
      length result_sts = 2 →
      GetQuantParamsForSameScaleConstraint op d = Some (params o).
Proof.
  intros Hnode Hops Hres.
  assert (GetQuantParamsForSameScaleConstraint op d
          = Some (same_scale_by_rules operand_sts result_sts)) as Heq.
  { assert (length (operands node) = length operand_sts) as Hlo.
    { apply length_mapM in Hops. by rewrite length_seq in Hops. }
    assert (length (resultTypes node) = length result_sts) as Hlr.
    { apply length_mapM in Hres. by rewrite length_seq in Hres. }
    unfold GetQuantParamsForSameScaleConstraint.
    rewrite Hnode. simpl. rewrite Hops. simpl.
    rewrite collect_states_filter. simpl.
    rewrite Hres. simpl. rewrite collect_states_filter. rewrite Hlo, Hlr.
    rewrite single_front0. rewrite !single_back, !first_front, single_front.
    apply same_scale_chain. }
  split; [done|].
  intros before o after -> Hbefore Ho Hlen. rewrite Heq.
  by rewrite (same_scale_immutable_operand before after result_sts o).
Qed.

End SameScale.

Section Graph.

Lemma for_each_app {S A} (f : S → A → option S) l1 l2 s :
  for_each f s (l1 ++ l2) = for_each f s l1 ≫= λ s', for_each f s' l2.
Proof.
  revert s. induction l1 as [|x l1 IH]; simpl; intros s; [done|].
  destruct (f s x) as [s1|]; simpl; [apply IH|done].
Qed.

Lemma getOperand_Some fn op k v :
  getOperand fn op k = Some v ↔
  ∃ node, body fn !! op = Some node ∧ operands node !! k = Some v.
Proof.
  unfold getOperand. destruct (body fn !! op) as [node|]; simpl.
  - split; [by exists node|]. by intros (? & [= <-] & ?).
  - split; [done|]. by intros (? & ? & ?).
Qed.

Lemma elem_of_operand_slots fn op k :
  (op, k) ∈ operand_slots fn ↔ is_Some (getOperand fn op k).
Proof.
  unfold operand_slots. rewrite list_elem_of_bind. split.
  - intros (op' & Hk & Hop). apply list_elem_of_fmap in Hk as (k' & [= <- <-] & Hk).
    apply elem_of_seq in Hop, Hk. unfold numOperands in Hk.
    destruct (body fn !! op) as [node|] eqn:Hnode; simpl in Hk; [|lia].
    destruct (lookup_lt_is_Some_2 (operands node) k) as [v Hv]; [lia|].
    exists v. apply getOperand_Some. eauto.
  - intros [v (node & Hnode & Hv)%getOperand_Some]. exists op. split.
    + apply list_elem_of_fmap. exists k. split; [done|]. apply elem_of_seq.
      unfold numOperands. rewrite Hnode. simpl.
      apply lookup_lt_Some in Hv. lia.
    + apply elem_of_seq. apply lookup_lt_Some in Hnode. lia.
Qed.

Lemma NoDup_operand_slots fn : NoDup (operand_slots fn).
Proof.
  unfold operand_slots. apply NoDup_bind.
  - intros op1 op2 [op k] _ _ (?&[= <- <-]&_)%list_elem_of_fmap
      (?&[= <- <-]&_)%list_elem_of_fmap. done.
  - intros op _. apply NoDup_fmap_2; [|apply NoDup_seq]. by intros ?? [=].
  - apply NoDup_seq.
Qed.

Lemma elem_of_getUses fn v op k :
  (op, k) ∈ getUses fn v ↔ getOperand fn op k = Some v.
Proof.
  unfold getUses. rewrite list_elem_of_filter, elem_of_operand_slots. simpl.
  split; [by intros [? _]|]. intros Hv. by rewrite Hv.
Qed.

Lemma NoDup_getUses fn v : NoDup (getUses fn v).
Proof. apply list.NoDup_filter, NoDup_operand_slots. Qed.

End Graph.

Section Preprocess.
Context (E : Collaborators).

Lemma same_nodes_except_refl changed fn : same_nodes_except changed fn fn.
Proof. intros op node Hnode. by exists node. Qed.

Lemma same_nodes_except_trans c1 c2 fn1 fn2 fn3 :
  same_nodes_except c1 fn1 fn2 →
  same_nodes_except c2 fn2 fn3 →
  same_nodes_except (c1 ++ c2) fn1 fn3.
Proof.
  intros H12 H23 op node Hnode.
  destruct (H12 op node Hnode) as (node2 & Hn2 & ? & ? & ? & Hk2).
  destruct (H23 op node2 Hn2) as (node3 & Hn3 & ? & ? & ? & Hk3).
  exists node3. repeat split; try congruence.
  intros k Hk. rewrite elem_of_app in Hk.
  rewrite Hk3, Hk2; [done|tauto|tauto].
Qed.

Lemma same_nodes_except_operand changed fn fn' op k :
  same_nodes_except changed fn fn' →
  (op, k) ∉ changed →
  is_Some (body fn !! op) →
  getOperand fn' op k = getOperand fn op k.
Proof.
  intros Hsame Hk [node Hnode].
  destruct (Hsame op node Hnode) as (node' & Hnode' & _ & _ & _ & Hops).
  unfold getOperand. rewrite Hnode, Hnode'. simpl. by apply Hops.
Qed.

Lemma same_nodes_except_name changed fn fn' op :
  same_nodes_except changed fn fn' →
  is_Some (body fn !! op) →
  name <$> body fn' !! op = name <$> body fn !! op.
Proof.
  intros Hsame [node Hnode].
  destruct (Hsame op node Hnode) as (node' & Hnode' & Hname & _).
  rewrite Hnode, Hnode'. simpl. by rewrite Hname.
Qed.

Lemma same_nodes_except_copy changed fn fn' node op :
  same_nodes_except changed fn fn' →
  is_copy_of node fn op → is_copy_of node fn' op.
Proof.
  intros Hsame (n1 & Hn1 & ? & ? & ?).
  destruct (Hsame op n1 Hn1) as (n2 & Hn2 & ? & ? & ? & _).
  exists n2. repeat split; congruence.
Qed.

(** The classification of a use only looks at the kind of the user. *)
Lemma is_weight_use_name fn fn' user k :
  name <$> body fn' !! user = name <$> body fn !! user →
  is_weight_use E fn' (user, k) = is_weight_use E fn (user, k).
Proof.
  intros Hname. unfold is_weight_use, GetQuantSpec, GetQuantScaleSpec, isa.
  rewrite Hname.
  destruct (body fn !! user) as [node|], (body fn' !! user) as [node'|];
    simplify_eq/=; try done.
  by rewrite Hname.
Qed.

Lemma setOperand_spec op i v fn fn' :
  setOperand op i v fn = Some fn' →
  length (body fn') = length (body fn)
  ∧ same_nodes_except [(op, i)] fn fn'
  ∧ getOperand fn' op i = Some v.
Proof.
  unfold setOperand. intros Hset.
  destruct (body fn !! op) as [node|] eqn:Hnode; [|done]. simpl in Hset.
  destruct (operands node !! i) as [w|] eqn:Hw; [|done]. simplify_eq/=.
  assert (op < length (body fn)) as Hlt by (by eapply lookup_lt_Some).
  split; [by rewrite length_insert|]. split.
  - intros op' node' Hnode'. destruct (decide (op' = op)) as [->|Hne].
    + assert (node' = node) as -> by congruence. simpl.
      rewrite list_lookup_insert_eq by done.
      eexists. split; [done|]. repeat split. simpl. intros k Hk.
      apply list_lookup_insert_ne. intros ->. apply Hk. by left.
    + simpl. rewrite list_lookup_insert_ne by done. by exists node'.
  - unfold getOperand. simpl. rewrite list_lookup_insert_eq by done. simpl.
    apply list_lookup_insert_eq. by eapply lookup_lt_Some.
Qed.

(** What one round of the loop over the uses does. *)
Lemma preprocess_use_step cst n d use d' :
  1 < n →
  preprocess_use E cst n d use = Some d' →
  weights_ d ⊆ weights_ d'
  ∧ ∃ w, is_weight_use E (fn_ d) use = Some w
    ∧ if (w : bool) then fn_ d' = fn_ d ∧ cst ∈ weights_ d'
      else ∃ cst_node,
          body (fn_ d) !! cst = Some cst_node
          ∧ length (body (fn_ d')) = S (length (body (fn_ d)))
          ∧ is_copy_of cst_node (fn_ d') (length (body (fn_ d)))
          ∧ same_nodes_except [use] (fn_ d) (fn_ d')
          ∧ getOperand (fn_ d') use.1 use.2
            = Some (OpResult (length (body (fn_ d))) 0).
Proof.
  intros Hn. destruct use as [user k]. unfold preprocess_use.
  destruct (is_weight_use E (fn_ d) (user, k)) as [[]|];
    (destruct (GetQuantSpec E (fn_ d) user) as [spec|]; [|done]);
    [| |done]; simpl.
  - intros Hd'. split.
    + destruct (coeff_op_quant_dim spec !! k); simplify_eq/=; set_solver.
    + exists true. split; [done|].
      destruct (coeff_op_quant_dim spec !! k); simplify_eq/=;
        (split; [done|set_solver]).
  - rewrite bool_decide_eq_true_2 by done.
    destruct (body (fn_ d) !! cst) as [cst_node|] eqn:Hcst; [|done]. simpl.
    set (new := mkConstantOp (resultTypes cst_node) (valueAttr cst_node)).
    set (fn1 := set_body (λ b, b ++ [new]) (fn_ d)).
    destruct (setOperand user k (OpResult (length (body (fn_ d))) 0) fn1)
      as [fn2|] eqn:Hset; [|done].
    simpl. intros [= <-]. simpl. split; [done|].
    exists false. split; [done|]. exists cst_node.
    destruct (setOperand_spec _ _ _ _ _ Hset) as (Hlen & Hsame & Hop).
    assert (same_nodes_except [] (fn_ d) fn1) as Hext.
    { intros op node Hnode. exists node. unfold fn1. simpl.
      split; [|done]. by apply lookup_app_l_Some. }
    repeat split; try done.
    + rewrite Hlen. unfold fn1. simpl. rewrite length_app. simpl. lia.
    + eapply (same_nodes_except_copy _ fn1); [done|].
      exists new. unfold fn1. simpl. by rewrite lookup_snoc_length.
    + by apply (same_nodes_except_trans [] [(user, k)] _ fn1).
Qed.

Lemma count_propagated_snoc fn l use :
  count_propagated E fn (l ++ [use])
  = count_propagated E fn l
    + (if decide (is_weight_use E fn use = Some false) then 1 else 0).
Proof.
  unfold count_propagated. rewrite list.filter_app, length_app. f_equal.
  rewrite filter_cons, filter_nil. by case_decide.
Qed.

Lemma getOperand_node fn op k :
  is_Some (getOperand fn op k) → is_Some (body fn !! op).
Proof. intros [v (node & Hnode & _)%getOperand_Some]. eauto. Qed.

(** The loop over the uses of [cst], from the driver [d0] on: weight uses
    keep their operand and record [cst] as a weight; the propagated uses
    get, in order, the constants created at the end of the body. *)
Lemma preprocess_uses_inv cst n cst_node d0 :
  1 < n →
  body (fn_ d0) !! cst = Some cst_node →
  ∀ us d',
    for_each (preprocess_use E cst n) d0 us = Some d' →
    NoDup us →
    (∀ use, use ∈ us → is_Some (getOperand (fn_ d0) use.1 use.2)) →
    length (body (fn_ d'))
    = length (body (fn_ d0)) + count_propagated E (fn_ d0) us
    ∧ same_nodes_except us (fn_ d0) (fn_ d')
    ∧ weights_ d0 ⊆ weights_ d'
    ∧ (∀ j use, us !! j = Some use →
         (is_weight_use E (fn_ d0) use = Some true →
          getOperand (fn_ d') use.1 use.2 = getOperand (fn_ d0) use.1 use.2
          ∧ cst ∈ weights_ d')
         ∧ (is_weight_use E (fn_ d0) use = Some false →
            getOperand (fn_ d') use.1 use.2
            = Some (OpResult (length (body (fn_ d0))
                              + count_propagated E (fn_ d0) (take j us)) 0)))
    ∧ (∀ c, c < count_propagated E (fn_ d0) us →
         is_copy_of cst_node (fn_ d') (length (body (fn_ d0)) + c)).
Proof.
  intros Hn Hcst. induction us as [|use us IH] using rev_ind;
    intros d' Hrun Hnd Hex.
  - simpl in Hrun. simplify_eq. unfold count_propagated. simpl.
    split; [lia|]. split; [apply same_nodes_except_refl|]. split; [done|].
    split; [by intros j use ?|]. intros c Hc. lia.
  - rewrite for_each_app in Hrun.
    destruct (for_each (preprocess_use E cst n) d0 us) as [d1|] eqn:Hd1;
      [|done].
    simpl in Hrun.
    destruct (preprocess_use E cst n d1 use) as [d2|] eqn:Hstep; [|done].
    simpl in Hrun. simplify_eq.
    apply list.NoDup_app in Hnd as (Hnd & Hfresh & _).
    assert (use ∉ us) as Hnew.
    { intros Hin. apply (Hfresh _ Hin). by left. }
    destruct (IH d1 eq_refl Hnd) as (Hlen & Hsame & Hw & Huses & Hcopies).
    { intros u Hu. apply Hex, elem_of_app. by left. }
    destruct (preprocess_use_step _ _ _ _ _ Hn Hstep) as (Hw' & w & Hclass & Hcase).
    assert (is_Some (getOperand (fn_ d0) use.1 use.2)) as Huse.
    { apply Hex, elem_of_app. right. by left. }
    pose proof (getOperand_node _ _ _ Huse) as Huser.
    assert (is_weight_use E (fn_ d0) use = Some w) as Hclass0.
    { rewrite <- Hclass. destruct use as [user k]. symmetry.
      apply is_weight_use_name. by eapply same_nodes_except_name. }
    rewrite count_propagated_snoc.
    destruct w.
    + destruct Hcase as [Hfn Hcst_w]. rewrite Hfn, Hclass0.
      rewrite decide_False by done. rewrite Nat.add_0_r.
      split; [done|]. split.
      { rewrite <- (app_nil_r (us ++ [use])), <- app_assoc.
        eapply same_nodes_except_trans; [done|].
        apply same_nodes_except_refl. }
      split; [by etrans|]. split; [|done].
      intros j u Hj. apply lookup_app_Some in Hj as [Hj|[Hge Hj]].
      * destruct (Huses j u Hj) as [Hweight Hprop]. split.
        -- intros Hu. destruct (Hweight Hu) as [-> ?]. split; [done|by apply Hw'].
        -- intros Hu. rewrite (Hprop Hu), take_app_le; [done|].
           apply lookup_lt_Some in Hj. lia.
      * apply list_lookup_singleton_Some in Hj as [Hj <-].
        split; [|congruence]. intros _. split; [|done].
        destruct use as [user k]. simpl in *.
        by eapply same_nodes_except_operand.
    + destruct Hcase as (cst_node1 & Hcst1 & Hlen2 & Hcopy & Hsame2 & Hop).
      rewrite Hclass0, decide_True by done.
      destruct (Hsame cst cst_node Hcst) as (cst_node1' & Hc1 & _ & Hrt & Hva & _).
      assert (cst_node1' = cst_node1) as -> by congruence.
      split; [lia|]. split; [by eapply same_nodes_except_trans|].
      split; [by etrans|]. split.
      * intros j u Hj. apply lookup_app_Some in Hj as [Hj|[Hge Hj]].
        -- destruct (Huses j u Hj) as [Hweight Hprop].
           assert (u ≠ use) as Hne.
           { intros ->. apply Hnew. by eapply list_elem_of_lookup_2. }
           assert (getOperand (fn_ d') u.1 u.2 = getOperand (fn_ d1) u.1 u.2)
             as Hkeep.
           { destruct u as [user k]. simpl.
             eapply same_nodes_except_operand; [done| |].
             { intros ?%list_elem_of_singleton. done. }
             assert (is_Some (body (fn_ d0) !! user)) as [nd Hnd0].
             { eapply getOperand_node, (Hex (user, k)), elem_of_app. left.
               by eapply list_elem_of_lookup_2. }
             destruct (Hsame user nd Hnd0) as (? & ? & _). eauto. }
           rewrite Hkeep. split.
           ++ intros Hu. destruct (Hweight Hu) as [-> ?].
              split; [done|by apply Hw'].
           ++ intros Hu. rewrite (Hprop Hu), take_app_le; [done|].
              apply lookup_lt_Some in Hj. lia.
        -- apply list_lookup_singleton_Some in Hj as [Hj <-].
           split; [congruence|]. intros _.
           rewrite Hop, Hlen. do 3 f_equal.
           replace j with (length us + 0) by lia.
           by rewrite take_app_add, take_0, app_nil_r.
      * intros c Hc. destruct (decide (c < count_propagated E (fn_ d0) us))
          as [Hlt|Hge].
        -- eapply same_nodes_except_copy; [done|]. by apply Hcopies.
        -- assert (c = count_propagated E (fn_ d0) us) as -> by lia.
           rewrite <- Hlen. destruct Hcopy as (nd & ? & ? & ? & ?).
           exists nd. repeat split; congruence.
Qed.

Lemma is_weight_use_Some fn user k :
  is_Some (body fn !! user) → is_Some (is_weight_use E fn (user, k)).
Proof.
  intros [node Hnode]. unfold is_weight_use, GetQuantSpec, GetQuantScaleSpec.
  rewrite Hnode. simpl. eauto.
Qed.

(** A round of the loop succeeds when the constant and the use exist. *)
Lemma preprocess_use_progress cst n d use :
  is_Some (body (fn_ d) !! cst) →
  is_Some (getOperand (fn_ d) use.1 use.2) →
  is_Some (preprocess_use E cst n d use).
Proof.
  destruct use as [user k]. intros [cst_node Hcst] Huse. simpl in Huse.
  destruct Huse as [v (node & Hnode & Hv)%getOperand_Some].
  unfold preprocess_use.
  destruct (is_weight_use_Some (fn_ d) user k) as [w Hw]; [eauto|].
  rewrite Hw. unfold GetQuantSpec. rewrite Hnode. simpl.
  destruct w.
  - destruct (coeff_op_quant_dim _ !! k); eauto.
  - case_bool_decide; [|eauto]. rewrite Hcst. simpl.
    unfold setOperand. simpl.
    rewrite (lookup_app_l_Some _ _ _ _ Hnode). simpl. rewrite Hv. simpl. eauto.
Qed.

Lemma preprocess_uses_total cst n cst_node d0 :
  1 < n →
  body (fn_ d0) !! cst = Some cst_node →
  ∀ us,
    NoDup us →
    (∀ use, use ∈ us → is_Some (getOperand (fn_ d0) use.1 use.2)) →
    is_Some (for_each (preprocess_use E cst n) d0 us).
Proof.
  intros Hn Hcst. induction us as [|use us IH] using rev_ind; intros Hnd Hex.
  - simpl. eauto.
  - rewrite for_each_app.
    apply list.NoDup_app in Hnd as (Hnd & Hfresh & _).
    destruct IH as [d1 Hd1]; [done| |].
    { intros u Hu. apply Hex, elem_of_app. by left. }
    rewrite Hd1. simpl.
    destruct (preprocess_uses_inv cst n cst_node d0 Hn Hcst us d1 Hd1 Hnd)
      as (_ & Hsame & _).
    { intros u Hu. apply Hex, elem_of_app. by left. }
    assert (is_Some (getOperand (fn_ d0) use.1 use.2)) as Huse.
    { apply Hex, elem_of_app. right. by left. }
    destruct (preprocess_use_progress cst n d1 use) as [d2 Hd2].
    + destruct (Hsame cst cst_node Hcst) as (? & ? & _). eauto.
    + destruct use as [user k]. simpl in *.
      erewrite same_nodes_except_operand; [done|done| |].
      * intros Hin. apply (Hfresh _ Hin). by left.
      * by eapply getOperand_node.
    + rewrite Hd2. eauto.
Qed.

Lemma count_propagated_take_lt fn us j1 j2 use :
  j1 < j2 →
  us !! j1 = Some use →
  is_weight_use E fn use = Some false →
  count_propagated E fn (take j1 us) < count_propagated E fn (take j2 us).
Proof.
  intros Hlt Hj1 Hprop.
  assert (take j2 us = take j1 us ++ use :: take (j2 - S j1) (drop (S j1) us))
    as ->.
  { rewrite <- (take_drop_middle us j1 use Hj1) at 1.
    rewrite take_app_ge; rewrite length_take_le;
      try (apply lookup_lt_Some in Hj1; lia).
    f_equal. replace (j2 - j1) with (S (j2 - S j1)) by lia. done. }
  unfold count_propagated.
  rewrite list.filter_app, filter_cons, decide_True, length_app by done.
  simpl. lia.
Qed.

(** The visit of a float constant that is not skipped is the loop over
    its uses. *)
Lemma preprocess_constant_visits d cst cst_node t :
  body (fn_ d) !! cst = Some cst_node →
  name cst_node = ArithConstantOp →
  resultTypes cst_node !! 0 = Some t →
  isFloatShaped t = true →
  (∀ values, valueAttr cst_node = Some (DenseFPElementsAttr values) →
     ∃ first, values !! 0 = Some first ∧ PrimFloat.is_finite first = true) →
  preprocess_constant E d cst
  = for_each (preprocess_use E cst (length (getUses (fn_ d) (OpResult cst 0))))
             d (getUses (fn_ d) (OpResult cst 0)).
Proof.
  intros Hcst Hname Ht Hfloat Hfinite. unfold preprocess_constant.
  rewrite Hcst. simpl. rewrite Hname, bool_decide_eq_true_2 by done. simpl.
  rewrite Ht. simpl. rewrite Hfloat. simpl.
  destruct (valueAttr cst_node) as [[values|]|]; simpl; try done.
  destruct (Hfinite values eq_refl) as (first & -> & Hfirst). simpl.
  by rewrite Hfirst.
Qed.

(** C6, as the code has it.  Visiting a float constant with more than one
    use, the preprocessor leaves every weight use on the constant itself,
    which it records as a weight, and gives every propagated use a fresh
    constant of its own with the same types and content, read by no other
    use of the original.  So a weight use and a propagated use always read
    two distinct nodes (in particular when these are the only two uses),
    and the initialization that follows gives them two distinct states. *)
Theorem propagated_uses_get_own_constant (d : QuantizationDriver)
    (cst : Operation) (cst_node : OpNode) (t : Type_) :
  body (fn_ d) !! cst = Some cst_node →
  name cst_node = ArithConstantOp →
  resultTypes cst_node !! 0 = Some t →
  isFloatShaped t = true →
  (∀ values, valueAttr cst_node = Some (DenseFPElementsAttr values) →
     ∃ first, values !! 0 = Some first ∧ PrimFloat.is_finite first = true) →
  1 < length (getUses (fn_ d) (OpResult cst 0)) →
  ∃ d',
    preprocess_constant E d cst = Some d'
    ∧ (∀ j user k,
         getUses (fn_ d) (OpResult cst 0) !! j = Some (user, k) →
         (is_weight_use E (fn_ d) (user, k) = Some true →
          getOperand (fn_ d') user k = Some (OpResult cst 0)
          ∧ cst ∈ weights_ d')
         ∧ (is_weight_use E (fn_ d) (user, k) = Some false →
            ∃ new_cst,
              getOperand (fn_ d') user k = Some (OpResult new_cst 0)
              ∧ length (body (fn_ d)) ≤ new_cst
              ∧ is_copy_of cst_node (fn_ d') new_cst
              ∧ ∀ j' user' k',
                  j' ≠ j →
                  getUses (fn_ d) (OpResult cst 0) !! j' = Some (user', k') →
                  getOperand (fn_ d') user' k' ≠ Some (OpResult new_cst 0)))
    ∧ (∀ u1 u2,
         u1 ∈ getUses (fn_ d) (OpResult cst 0) →
         u2 ∈ getUses (fn_ d) (OpResult cst 0) →
         is_weight_use E (fn_ d) u1 = Some true →
         is_weight_use E (fn_ d) u2 = Some false →
         ∃ v1 v2,
           getOperand (fn_ d') u1.1 u1.2 = Some v1
           ∧ getOperand (fn_ d') u2.1 u2.2 = Some v2
           ∧ v1 ≠ v2
           ∧ ∀ calls ds,
               for_each initialize (new_driver (fn_ d')) calls = Some ds →
               NoDup calls.*1 →
               (OperandPos u1.1 u1.2, v1) ∈ calls →
               (OperandPos u2.1 u2.2, v2) ∈ calls →
               is_Some (state_index ds (OperandPos u1.1 u1.2))
               ∧ is_Some (state_index ds (OperandPos u2.1 u2.2))
               ∧ state_index ds (OperandPos u1.1 u1.2)
                 ≠ state_index ds (OperandPos u2.1 u2.2)).
Proof.
  intros Hcst Hname Ht Hfloat Hfinite Hn.
  set (uses := getUses (fn_ d) (OpResult cst 0)) in *.
  assert (∀ use, use ∈ uses → getOperand (fn_ d) use.1 use.2
                              = Some (OpResult cst 0)) as Huses.
  { intros [user k] Hin. by apply elem_of_getUses. }
  assert (∀ use, use ∈ uses → is_Some (getOperand (fn_ d) use.1 use.2))
    as Hex by (intros use Hin; rewrite (Huses use Hin); eauto).
  pose proof (NoDup_getUses (fn_ d) (OpResult cst 0)) as Hnd. fold uses in Hnd.
  destruct (preprocess_uses_total cst (length uses) cst_node d Hn Hcst uses
              Hnd Hex) as [d' Hd'].
  destruct (preprocess_uses_inv cst (length uses) cst_node d Hn Hcst uses d'
              Hd' Hnd Hex) as (Hlen & Hsame & Hw & Hjs & Hcopies).
  assert (cst < length (body (fn_ d))) as Hcst_lt by (by eapply lookup_lt_Some).
  assert (∀ j user k, uses !! j = Some (user, k) →
            is_weight_use E (fn_ d) (user, k) = Some false →
            getOperand (fn_ d') user k
            = Some (OpResult (length (body (fn_ d))
                              + count_propagated E (fn_ d) (take j uses)) 0))
    as Hprop.
  { intros j user k Hj Hp. destruct (Hjs j (user, k) Hj) as [_ Hop].
    by apply Hop. }
  assert (∀ j user k, uses !! j = Some (user, k) →
            is_weight_use E (fn_ d) (user, k) = Some true →
            getOperand (fn_ d') user k = Some (OpResult cst 0)
            ∧ cst ∈ weights_ d') as Hweight.
  { intros j user k Hj Hp. destruct (Hjs j (user, k) Hj) as [[Hop ?] _]; [done|].
    split; [|done]. simpl in Hop. rewrite Hop.
    apply (Huses (user, k)). by eapply list_elem_of_lookup_2. }
  exists d'. split; [by rewrite (preprocess_constant_visits d cst cst_node t)|].
  split.
  - intros j user k Hj. split; [by apply (Hweight j)|]. intros Hp.
    eexists. split; [by apply (Hprop j)|]. split; [lia|]. split.
    + apply Hcopies. rewrite <- (firstn_all uses) at 2.
      eapply count_propagated_take_lt; [|done..].
      by eapply lookup_lt_Some.
    + intros j' user' k' Hne Hj'.
      destruct (is_weight_use_Some (fn_ d) user' k') as [[] Hw'].
      { eapply getOperand_node, (Hex (user', k')).
        by eapply list_elem_of_lookup_2. }
      * destruct (Hweight j' user' k' Hj' Hw') as [-> _]. intros [= ?]. lia.
      * rewrite (Hprop j' user' k' Hj' Hw'). intros [= Heq].
        destruct (decide (j' < j)).
        -- pose proof (count_propagated_take_lt (fn_ d) uses j' j _
                         ltac:(done) Hj' Hw'). lia.
        -- pose proof (count_propagated_take_lt (fn_ d) uses j j' _
                         ltac:(lia) Hj Hp). lia.
  - intros [user1 k1] [user2 k2] Hin1 Hin2 Hw1 Hw2.
    apply list_elem_of_lookup_1 in Hin1 as [j1 Hj1].
    apply list_elem_of_lookup_1 in Hin2 as [j2 Hj2].
    destruct (Hweight j1 user1 k1 Hj1 Hw1) as [Hv1 _].
    pose proof (Hprop j2 user2 k2 Hj2 Hw2) as Hv2.
    do 2 eexists. split; [done|]. split; [done|].
    split; [intros [= ?]; lia|].
    intros calls ds Hrun Hcalls Hc1 Hc2.
    eapply distinct_values_distinct_states; [done..|]. intros [= ?]. lia.
Qed.

End Preprocess.

Section BiasAdjustment.
Context (E : Collaborators).

(** Case analysis on the first computation of a sequence that ended
    well. *)
Ltac step_in H :=
  match type of H with
  | (?x ≫= _) = Some _ =>
      let Hx := fresh "Hstep" in
      destruct x as [?|] eqn:Hx; [simpl in H|done]
  | (match ?x with _ => _ end) = Some _ =>
      let Hx := fresh "Hcase" in destruct x eqn:Hx; simpl in H
  end.

Lemma initialize_keeps_states d call d' :
  initialize d call = Some d' →
  ∀ k state, states_ d !! k = Some state → states_ d' !! k = Some state.
Proof.
  destruct call as [p v]. unfold initialize, InitializeOperandState,
    InitializeResultState, InitializeStateForValue, InitializeArgState.
  simpl. intros Hinit k state Hk.
  destruct (value_to_state_ d !! v) as [cached|].
  - destruct p; simpl in Hinit; by simplify_eq.
  - destruct (getType (fn_ d) v) as [t|];
      [|destruct p; simpl in Hinit; congruence].
    assert (states_ d' = states_ d ++ [initial_state t]) as ->
      by (destruct p; simpl in Hinit; by simplify_eq).
    by apply lookup_app_l_Some.
Qed.

Lemma DuplicateConstantOpIfNeeded_keeps_states op target_op operand_index
    d new_op d' :
  DuplicateConstantOpIfNeeded op target_op operand_index d = Some (new_op, d') →
  ∀ k state, states_ d !! k = Some state → states_ d' !! k = Some state.
Proof.
  unfold DuplicateConstantOpIfNeeded. intros Hdup k state Hk.
  destruct (hasOneUse (fn_ d) (OpResult op 0)); [by simplify_eq|].
  destruct (body (fn_ d) !! op) as [node|]; [|done]. simpl in Hdup.
  destruct (setOperand _ _ _ _) as [fn|]; [|done]. simpl in Hdup.
  destruct (InitializeOperandState _ _ _ _) as [d1|] eqn:Hd1; [|done].
  simpl in Hdup.
  destruct (InitializeResultState _ _ _ _) as [d2|] eqn:Hd2; [|done].
  simplify_eq/=.
  eapply (initialize_keeps_states d1 (ResultPos _ _, _)); [exact Hd2|].
  eapply (initialize_keeps_states _ (OperandPos _ _, _)); [exact Hd1|].
  done.
Qed.

(** An assignment touches no state but the one its position resolves
    to, and moves no position. *)
Lemma SetOperandParams_elsewhere op index p override d b d' :
  SetOperandParams E op index p override d = Some (b, d') →
  operand_states_ d' = operand_states_ d
  ∧ fn_ d' = fn_ d
  ∧ ∀ k, operand_states_ d !! (op, index) ≠ Some k →
         states_ d' !! k = states_ d !! k.
Proof.
  intros Hset.
  destruct (SetOperandParams_Some _ _ _ _ _ _ _ _ Hset) as (i & state & Hi & Hs).
  destruct (SetOperandParams_cases E op index p override d i state Hi Hs)
    as [(_ & Heq)|[(_ & _ & _ & l & Heq & _)|(_ & _ & w & Heq)]];
    rewrite Heq in Hset; simplify_eq; simpl; repeat split; try done.
  intros k Hk. apply assign_params_lookup_ne. congruence.
Qed.

Lemma ShouldCheckBiasScale_filter op bias_index input_indices p d
    input_index filter_index :
  ShouldCheckBiasScale op bias_index input_indices p d
  = Some (Some (input_index, filter_index)) →
  ∃ node, body (fn_ d) !! op = Some node
          ∧ affineOperandIndex node = Some filter_index.
Proof.
  unfold ShouldCheckBiasScale. intros Hcheck.
  destruct (body (fn_ d) !! op) as [node|]; [|done]. simpl in Hcheck.
  exists node. split; [done|].
  destruct (operands node !! bias_index) as [bias|]; [|done]. simpl in Hcheck.
  destruct (affineOperandIndex node) as [fi|]; [|done].
  destruct (getDefiningConstantOp (fn_ d) bias) as [bias_op|]; [|done].
  repeat (step_in Hcheck; try done); by simplify_eq.
Qed.

(** The adjustment leaves every state that holds parameters as it is,
    but for the one the filter operand resolves to. *)
Lemma SetBiasParamsWithAdjustments_keeps_nonempty op bias_index input_indices
    p d b d' :
  SetBiasParamsWithAdjustments E op bias_index input_indices p d
  = Some (b, d') →
  ∀ k state, states_ d !! k = Some state → IsEmpty state = false →
    states_ d' !! k = Some state
    ∨ ∃ node filter_index,
        body (fn_ d) !! op = Some node
        ∧ affineOperandIndex node = Some filter_index
        ∧ operand_states_ d' !! (op, filter_index) = Some k.
Proof.
  unfold SetBiasParamsWithAdjustments. intros Hset k state Hk Hne.
  destruct (ShouldCheckBiasScale op bias_index input_indices p d)
    as [[[input_index filter_index]|]|] eqn:Hcheck; [| |done]; simpl in Hset;
    [|left; by eapply SetOperandParams_keeps_nonempty].
  destruct (ShouldCheckBiasScale_filter _ _ _ _ _ _ _ Hcheck)
    as (node & Hnode & Hfilter).
  assert (∀ d1 d2 d3 c1 c3 q cst new_op,
            SetOperandParams E op bias_index q false d = Some (c1, d1) →
            DuplicateConstantOpIfNeeded cst op filter_index d1
            = Some (new_op, d2) →
            (∃ q', SetOperandParams E op filter_index q' true d2
                   = Some (c3, d3)) →
            states_ d3 !! k = Some state
            ∨ operand_states_ d3 !! (op, filter_index) = Some k) as Hpath.
  { intros d1 d2 d3 c1 c3 q cst new_op H1 H2 [q' H3].
    pose proof (SetOperandParams_keeps_nonempty E _ _ _ _ _ _ H1 k state Hk Hne)
      as Hk1.
    pose proof (DuplicateConstantOpIfNeeded_keeps_states _ _ _ _ _ _ H2 k
                  state Hk1) as Hk2.
    destruct (SetOperandParams_elsewhere _ _ _ _ _ _ _ H3) as (Hpos & _ & Hrest).
    destruct (decide (operand_states_ d2 !! (op, filter_index) = Some k)).
    - right. by rewrite Hpos.
    - left. by rewrite Hrest. }
  assert (∀ d3, states_ d3 !! k = Some state
                ∨ operand_states_ d3 !! (op, filter_index) = Some k →
                states_ d3 !! k = Some state
                ∨ ∃ node filter_index,
                    body (fn_ d) !! op = Some node
                    ∧ affineOperandIndex node = Some filter_index
                    ∧ operand_states_ d3 !! (op, filter_index) = Some k)
    as Hwrap.
  { intros d3 [?|?]; [by left|right]. by exists node, filter_index. }
  repeat (step_in Hset; try done);
    try (left; by eapply SetOperandParams_keeps_nonempty);
    try (simplify_eq; by left);
    try (simplify_eq; apply Hwrap; eapply Hpath; eauto).
Qed.

Lemma initialize_keeps_rescales d call d' :
  initialize d call = Some d' → rescale_states_ d' = rescale_states_ d.
Proof.
  destruct call as [p v]. unfold initialize, InitializeOperandState,
    InitializeResultState, InitializeStateForValue, InitializeArgState.
  simpl. intros Hinit.
  destruct (value_to_state_ d !! v) as [cached|].
  - destruct p; simpl in Hinit; by simplify_eq.
  - destruct (getType (fn_ d) v) as [t|]; destruct p; simpl in Hinit;
      by simplify_eq.
Qed.

Lemma DuplicateConstantOpIfNeeded_distinct op target_op operand_index
    d new_op d' :
  DuplicateConstantOpIfNeeded op target_op operand_index d = Some (new_op, d') →
  (∀ j, distinct_targets (rescales_at d j)) →
  ∀ j, distinct_targets (rescales_at d' j).
Proof.
  unfold DuplicateConstantOpIfNeeded. intros Hdup Hd j.
  destruct (hasOneUse (fn_ d) (OpResult op 0)); [by simplify_eq|].
  destruct (body (fn_ d) !! op) as [node|]; [|done]. simpl in Hdup.
  destruct (setOperand _ _ _ _) as [fn|]; [|done]. simpl in Hdup.
  destruct (InitializeOperandState _ _ _ _) as [d1|] eqn:Hd1; [|done].
  simpl in Hdup.
  destruct (InitializeResultState _ _ _ _) as [d2|] eqn:Hd2; [|done].
  simplify_eq/=.
  apply (initialize_keeps_rescales d1 (ResultPos _ _, _)) in Hd2.
  apply (initialize_keeps_rescales _ (OperandPos _ _, _)) in Hd1.
  unfold rescales_at. rewrite Hd2, Hd1. apply Hd.
Qed.

Lemma SetBiasParamsWithAdjustments_distinct op bias_index input_indices
    p d b d' :
  SetBiasParamsWithAdjustments E op bias_index input_indices p d
  = Some (b, d') →
  (∀ j, distinct_targets (rescales_at d j)) →
  ∀ j, distinct_targets (rescales_at d' j).
Proof.
  unfold SetBiasParamsWithAdjustments. intros Hset Hd.
  repeat (step_in Hset; try done); simplify_eq;
    eauto 8 using SetOperandParams_distinct,
                  DuplicateConstantOpIfNeeded_distinct.
Qed.

Lemma proposals_keep_distinct calls : ∀ d d',
  (∀ j, distinct_targets (rescales_at d j)) →
  for_each (propose E) d calls = Some d' →
  ∀ j, distinct_targets (rescales_at d' j).
Proof.
  induction calls as [|call calls IH]; simpl; intros d d' Hd Hrun.
  - by simplify_eq.
  - destruct (propose E d call) as [d1|] eqn:Hcall; [|done].
    simpl in Hrun. eapply IH; [|done].
    destruct call; simpl in Hcall.
    + destruct (SetOperandParams _ _ _ _ _ _) as [[? ?]|] eqn:Hset;
        simplify_eq/=. by eapply SetOperandParams_distinct.
    + destruct (SetResultParams _ _ _ _ _) as [[? ?]|] eqn:Hset;
        simplify_eq/=. by eapply SetResultParams_distinct.
    + destruct (SetBiasParamsWithAdjustments _ _ _ _ _ _) as [[? ?]|] eqn:Hset;
        simplify_eq/=. by eapply SetBiasParamsWithAdjustments_distinct.
Qed.

(** C10, as the code has it.  A conflicting operand proposal made without
    override whose parameters are already asked for by a pending
    requantization of the state, whatever its position, adds no entry: the
    consumer is appended to the users of the first such entry, the stored
    parameters stay, and the call reports a change.  Hence no run of
    assignments (operand, result or bias proposals) ever leaves a state
    with two requantizations queued for operands that ask for the same
    parameters; an entry queued for a result is not compared with the
    others.  With override the call queues nothing, and replaces the stored
    parameters. *)
Theorem operand_conflict_joins_pending_entry (op : Operation) (index : nat)
    (P2 : QuantParams) (d : QuantizationDriver) (i : nat) (state : QuantState)
    (l1 l2 : list RequantizeState) (r : RequantizeState) :
  operand_states_ d !! (op, index) = Some i →
  states_ d !! i = Some state →
  IsEmpty state = false →
  params state ≠ P2 →
  rescales_at d i = l1 ++ r :: l2 →
  Forall (λ r', rescale_params r' ≠ P2) l1 →
  rescale_params r = P2 →
  (∃ d', SetOperandParams E op index P2 false d = Some (true, d')
     ∧ states_ d' = states_ d
     ∧ rescales_at d' i
       = l1 ++ {| pos := pos r; rescale_params := P2;
                  users := users r ++ [(op, index)] |} :: l2
     ∧ length (rescales_at d' i) = length (rescales_at d i)
     ∧ ∀ j, j ≠ i → rescales_at d' j = rescales_at d j)
  ∧ (∀ calls d0 dn,
       (∀ j, distinct_targets (rescales_at d0 j)) →
       for_each (propose E) d0 calls = Some dn →
       ∀ j, distinct_targets (rescales_at dn j))
  ∧ ∃ d', SetOperandParams E op index P2 true d = Some (true, d')
      ∧ rescale_states_ d' = rescale_states_ d
      ∧ states_ d' !! i
        = Some {| params := P2; immutable := immutable state |}.
Proof.
  intros Hi Hs Hne Hp Hl Hl1 Hr.
  split; [|split; [apply proposals_keep_distinct|]]; cycle 1.
  { destruct (SetOperandParams_cases E op index P2 true d i state Hi Hs)
      as [(? & _)|[(_ & _ & ? & _)|(_ & _ & w & Heq)]]; try done.
    eexists. split; [done|]. split; [done|]. simpl.
    by apply assign_params_lookup. }
  destruct (SetOperandParams_cases E op index P2 false d i state Hi Hs)
    as [(? & _)|[(_ & _ & _ & l & Heq & Hadd)|(_ & [?|?] & _)]];
    try congruence.
  rewrite Hl, (add_user_to_rescale_found _ _ _ _ _ Hl1 Hr) in Hadd. subst l.
  eexists. split; [done|]. split; [done|].
  rewrite rescales_at_insert, decide_True by done.
  split; [done|]. split.
  - rewrite Hl, !length_app. done.
  - intros j Hj. by rewrite rescales_at_insert, decide_False.
Qed.

(** The comparison of doubles is asymmetric. *)
Lemma SFcompare_Lt_swap a b :
  SpecFloat.SFcompare a b = Some Lt → SpecFloat.SFcompare b a = Some Gt.
Proof.
  destruct a as [sa|sa| |sa ma ea], b as [sb|sb| |sb mb eb]; simpl;
    try destruct sa; try destruct sb; try done.
  - rewrite (Z.compare_antisym ea eb).
    destruct (ea ?= eb)%Z; simpl; try done.
    change (PosDef.Pos.compare_cont Eq ma mb) with (Pos.compare ma mb).
    change (PosDef.Pos.compare_cont Eq mb ma) with (Pos.compare mb ma).
    rewrite (Pos.compare_antisym ma mb). by destruct (ma ?= mb)%positive.
  - rewrite (Z.compare_antisym ea eb).
    destruct (ea ?= eb)%Z; simpl; try done.
    change (PosDef.Pos.compare_cont Eq ma mb) with (Pos.compare ma mb).
    change (PosDef.Pos.compare_cont Eq mb ma) with (Pos.compare mb ma).
    rewrite (Pos.compare_antisym ma mb). by destruct (ma ?= mb)%positive.
Qed.

Lemma ltb_asym x y : PrimFloat.ltb x y = true → PrimFloat.ltb y x = false.
Proof.
  rewrite !FloatAxioms.ltb_spec. unfold SpecFloat.SFltb.
  destruct (SpecFloat.SFcompare (Prim2SF x) (Prim2SF y)) as [[]|] eqn:Hxy;
    try done.
  by rewrite (SFcompare_Lt_swap _ _ Hxy).
Qed.

(** The per-tensor branch of the adjustment, for a bias of largest
    magnitude [B] and a proposal of scale [s], once the check applies:
    with [B / s] above the limit the bias is proposed the scale
    [B / kBiasMax], the filter constant is duplicated if it is shared, and
    the filter is then given the scale [B / kBiasMax / input_scale]; with
    [B / s] below the limit the proposal is assigned as it is. *)
Lemma bias_rescaled_above_limit op bias_index input_indices base s zp d
    input_index filter_index input_state ibase input_scale izp
    filter_state fbase fscale fzp bias bias_op bias_node values :
  ShouldCheckBiasScale op bias_index input_indices
    (Some (UniformQuantizedType base s zp)) d
  = Some (Some (input_index, filter_index)) →
  GetOperandQuantState op input_index d = Some input_state →
  params input_state = Some (UniformQuantizedType ibase input_scale izp) →
  GetOperandQuantState op filter_index d = Some filter_state →
  params filter_state = Some (UniformQuantizedType fbase fscale fzp) →
  getOperand (fn_ d) op bias_index = Some bias →
  getDefiningConstantOp (fn_ d) bias = Some bias_op →
  body (fn_ d) !! bias_op = Some bias_node →
  valueAttr bias_node = Some (DenseFPElementsAttr values) →
  (PrimFloat.ltb kBiasMax_double
     (PrimFloat.div (bias_half_range values) s) = true →
   SetBiasParamsWithAdjustments E op bias_index input_indices
     (Some (UniformQuantizedType base s zp)) d
   = '(changed1, d1) ←
       SetOperandParams E op bias_index
         (getChecked E
            (UniformQuantizedType base
               (PrimFloat.div (bias_half_range values) kBiasMax_double) 0%Z))
         false d;
     filter ← getOperand (fn_ d1) op filter_index;
     filter_cst ← getDefiningConstantOp (fn_ d1) filter;
     '(filter_op, d2) ←
       DuplicateConstantOpIfNeeded filter_cst op filter_index d1;
     '(changed2, d3) ←
       SetOperandParams E op filter_index
         (getChecked E
            (UniformQuantizedType fbase
               (PrimFloat.div
                  (PrimFloat.div (bias_half_range values) kBiasMax_double)
                  input_scale) 0%Z))
         true d2;
     Some (changed1 || changed2, d3))
  ∧ (PrimFloat.ltb (PrimFloat.div (bias_half_range values) s)
       kBiasMax_double = true →
     SetBiasParamsWithAdjustments E op bias_index input_indices
       (Some (UniformQuantizedType base s zp)) d
     = SetOperandParams E op bias_index
         (Some (UniformQuantizedType base s zp)) false d).
Proof.
  intros Hcheck Hin Hpin Hfilter Hpfilter Hbias Hbias_op Hnode Hattr.
  unfold SetBiasParamsWithAdjustments.
  rewrite Hcheck. simpl. rewrite Hin. simpl. rewrite Hfilter. simpl.
  rewrite Hbias. simpl. rewrite Hbias_op. simpl. rewrite Hpin. simpl.
  rewrite Hnode. simpl. rewrite Hattr. simpl. split.
  - intros Habove. rewrite (ltb_asym _ _ Habove).
    destruct (SetOperandParams E op bias_index _ false d) as [[c1 d1]|];
      [|done]. simpl.
    destruct (getOperand (fn_ d1) op filter_index) as [filter|]; [|done]. simpl.
    destruct (getDefiningConstantOp (fn_ d1) filter) as [cst|]; [|done]. simpl.
    destruct (DuplicateConstantOpIfNeeded cst op filter_index d1)
      as [[new_op d2]|]; [|done]. simpl.
    by rewrite Hpfilter.
  - intros Hbelow. by rewrite Hbelow.
Qed.

(** C2, as the code has it.  A state that holds parameters (as every
    state created immutable does) keeps them through [SetResultParams],
    through [SetOperandParams] called without override, and through
    [SetBiasParamsWithAdjustments] unless it is the state of the filter
    operand: through these its parameters change at most once, from empty
    to a value.  [SetOperandParams] called with override, as the bias
    adjustment calls it for the filter, replaces the parameters of a state
    that is not immutable. *)
Theorem settled_params_survive_proposals (op index : nat) (p : QuantParams)
    (input_indices : list nat) (d d' : QuantizationDriver) (b : bool)
    (k : nat) (state : QuantState) :
  states_ d !! k = Some state →
  IsEmpty state = false →
  (SetOperandParams E op index p false d = Some (b, d') →
   states_ d' !! k = Some state)
  ∧ (SetResultParams E op index p d = Some (b, d') →
     states_ d' !! k = Some state)
  ∧ (SetBiasParamsWithAdjustments E op index input_indices p d = Some (b, d') →
     states_ d' !! k = Some state
     ∨ ∃ node filter_index,
         body (fn_ d) !! op = Some node
         ∧ affineOperandIndex node = Some filter_index
         ∧ operand_states_ d' !! (op, filter_index) = Some k)
  ∧ (operand_states_ d !! (op, index) = Some k →
     immutable state = false →
     params state ≠ p →
     ∃ d'', SetOperandParams E op index p true d = Some (true, d'')
       ∧ states_ d'' !! k = Some {| params := p; immutable := false |}).
Proof.
  intros Hk Hne. split; [|split; [|split]].
  - intros Hset. by eapply SetOperandParams_keeps_nonempty.
  - intros Hset. by eapply SetResultParams_keeps_nonempty.
  - intros Hset. by eapply SetBiasParamsWithAdjustments_keeps_nonempty.
  - intros Hi Hmut Hp.
    destruct (SetOperandParams_cases E op index p true d k state Hi Hk)
      as [(? & _)|[(_ & _ & ? & _)|(_ & _ & w & Heq)]]; try done.
    eexists. split; [done|]. simpl.
    by rewrite (assign_params_lookup _ _ _ _ Hk), Hmut.
Qed.

End BiasAdjustment.

Section Materializer.

(** With pending requantizations that disagree on the position,
    [RequantizeOpResult] leaves the function as it is. *)
Lemma RequantizeOpResult_declines op index states fn s1 s2 :
  s1 ∈ states → s2 ∈ states → pos s1 ≠ pos s2 →
  RequantizeOpResult op index states fn = Some fn.
Proof.
  intros Hs1 Hs2 Hne. unfold RequantizeOpResult.
  destruct states as [|front rest]; [done|].
  case_decide; [done|].
  destruct (forallb _ (front :: rest)) eqn:Hall; [|done].
  rewrite forallb_forall in Hall. exfalso. apply Hne.
  apply list_elem_of_In, Hall, bool_decide_eq_true in Hs1.
  apply list_elem_of_In, Hall, bool_decide_eq_true in Hs2. congruence.
Qed.

(** A float constant whose first element is not finite is left alone. *)
Lemma preprocess_constant_skips E d cst cst_node t first rest :
  body (fn_ d) !! cst = Some cst_node →
  resultTypes cst_node !! 0 = Some t →
  valueAttr cst_node = Some (DenseFPElementsAttr (first :: rest)) →
  PrimFloat.is_finite first = false →
  preprocess_constant E d cst = Some d.
Proof.
  intros Hcst Ht Hattr Hfirst. unfold preprocess_constant.
  rewrite Hcst. simpl. case_bool_decide; [|done]. simpl.
  rewrite Ht. simpl. destruct (isFloatShaped t); [|done]. simpl.
  rewrite Hattr. simpl. by rewrite Hfirst.
Qed.

End Materializer.

(** * Further properties of the driver *)

Section AssignmentReports.
Context (E : Collaborators).

Lemma add_user_to_rescale_changes p user l l' :
  add_user_to_rescale p user l = Some l' → l' ≠ l.
Proof.
  revert l'. induction l as [|r l IH]; intros l' H; simpl in H; [done|].
  destruct (decide (rescale_params r = p)).
  - injection H as <-. intros Heq. injection Heq as Hr.
    apply (f_equal users) in Hr. simpl in Hr.
    apply (f_equal length) in Hr. rewrite length_app in Hr. simpl in Hr. lia.
  - destruct (add_user_to_rescale p user l) as [l0|]; [|done].
    simpl in H. injection H as <-. intros Heq. injection Heq as Heq.
    by eapply IH.
Qed.

Lemma add_user_to_rescale_params p user l l' :
  add_user_to_rescale p user l = Some l' →
  rescale_params <$> l' = rescale_params <$> l.
Proof.
  revert l'. induction l as [|r l IH]; intros l' H; simpl in H; [done|].
  destruct (decide (rescale_params r = p)).
  - by injection H as <-.
  - destruct (add_user_to_rescale p user l) as [l0|]; [|done].
    simpl in H. injection H as <-. simpl. f_equal. by apply IH.
Qed.

Lemma IsEmpty_params (s : QuantState) : IsEmpty s = true ↔ params s = None.
Proof. unfold IsEmpty, HasQuantParams. by rewrite bool_decide_eq_true. Qed.

(** What an assignment leaves as it is. *)
Lemma SetOperandParams_shape op index p override d b d' :
  SetOperandParams E op index p override d = Some (b, d') →
  fn_ d' = fn_ d
  ∧ length (states_ d') = length (states_ d)
  ∧ (∀ k, immutable <$> states_ d' !! k = immutable <$> states_ d !! k)
  ∧ value_to_state_ d' = value_to_state_ d
  ∧ operand_states_ d' = operand_states_ d
  ∧ result_states_ d' = result_states_ d
  ∧ arg_states_ d' = arg_states_ d
  ∧ weights_ d' = weights_ d
  ∧ optimized_weights_ d' = optimized_weights_ d
  ∧ args_ d' = args_ d
  ∧ (∀ j, (rescale_params <$> rescales_at d j)
          `prefix_of` (rescale_params <$> rescales_at d' j)).
Proof.
  intros Hset.
  destruct (SetOperandParams_Some E _ _ _ _ _ _ _ Hset) as (i & state & Hi & Hs).
  destruct (SetOperandParams_cases E op index p override d i state Hi Hs)
    as [(_ & Heq)|[(_ & _ & _ & l & Heq & Hl)|(_ & _ & w & Heq)]];
    rewrite Heq in Hset; simplify_eq; simpl.
  - by repeat split.
  - repeat split; try done. intros j. rewrite rescales_at_insert.
    case_decide as Hj; [subst j|done].
    destruct (add_user_to_rescale p (op, index) (rescales_at d i)) as [l0|] eqn:Ha;
      subst l.
    + by rewrite (add_user_to_rescale_params _ _ _ _ Ha).
    + rewrite fmap_app. by apply prefix_app_r.
  - repeat split; try done.
    + by rewrite assign_params_length.
    + intros k. destruct (decide (i = k)) as [<-|Hk].
      * by rewrite (assign_params_lookup _ _ _ _ Hs), Hs.
      * by rewrite assign_params_lookup_ne.
Qed.

Lemma SetResultParams_shape op index p d b d' :
  SetResultParams E op index p d = Some (b, d') →
  fn_ d' = fn_ d
  ∧ length (states_ d') = length (states_ d)
  ∧ (∀ k, immutable <$> states_ d' !! k = immutable <$> states_ d !! k)
  ∧ value_to_state_ d' = value_to_state_ d
  ∧ operand_states_ d' = operand_states_ d
  ∧ result_states_ d' = result_states_ d
  ∧ arg_states_ d' = arg_states_ d
  ∧ weights_ d' = weights_ d
  ∧ optimized_weights_ d' = optimized_weights_ d
  ∧ args_ d' = args_ d
  ∧ (∀ j, (rescale_params <$> rescales_at d j)
          `prefix_of` (rescale_params <$> rescales_at d' j)).
Proof.
  intros Hset.
  destruct (SetResultParams_Some E _ _ _ _ _ _ Hset) as (i & state & Hi & Hs).
  destruct (SetResultParams_cases E op index p d i state Hi Hs)
    as [(_ & Heq)|[(_ & _ & Heq)|(_ & _ & w & Heq)]];
    rewrite Heq in Hset; simplify_eq; simpl.
  - by repeat split.
  - repeat split; try done. intros j. rewrite rescales_at_insert.
    case_decide as Hj; [subst j|done].
    rewrite fmap_app. by apply prefix_app_r.
  - repeat split; try done.
    + by rewrite assign_params_length.
    + intros k. destruct (decide (i = k)) as [<-|Hk].
      * by rewrite (assign_params_lookup _ _ _ _ Hs), Hs.
      * by rewrite assign_params_lookup_ne.
Qed.

(** X1 (SetOperandParams, SetResultParams): the value an assignment
    returns is false exactly when the state of the position already holds
    the proposed parameters, and then the driver is left as it was; when it
    is true, the record of that state or its list of pending
    requantizations is no longer what it was. *)
Theorem assignment_reports_change (op : Operation) (index : nat)
    (p : QuantParams) (override b : bool) (d d' : QuantizationDriver) :
  (SetOperandParams E op index p override d = Some (b, d') →
   ∃ i state,
     operand_states_ d !! (op, index) = Some i
     ∧ states_ d !! i = Some state
     ∧ (b = false ↔ params state = p)
     ∧ (b = false → d' = d)
     ∧ (b = true → states_ d' !! i ≠ states_ d !! i
                   ∨ rescales_at d' i ≠ rescales_at d i))
  ∧ (SetResultParams E op index p d = Some (b, d') →
     ∃ i state,
       result_states_ d !! (op, index) = Some i
       ∧ states_ d !! i = Some state
       ∧ (b = false ↔ params state = p)
       ∧ (b = false → d' = d)
       ∧ (b = true → states_ d' !! i ≠ states_ d !! i
                     ∨ rescales_at d' i ≠ rescales_at d i)).
Proof.
  split; intros Hset.
  - destruct (SetOperandParams_Some E _ _ _ _ _ _ _ Hset)
      as (i & state & Hi & Hs).
    exists i, state. split; [done|]. split; [done|].
    destruct (SetOperandParams_cases E op index p override d i state Hi Hs)
      as [(Hp & Heq)|[(Hp & _ & _ & l & Heq & Hl)|(Hp & _ & w & Heq)]];
      rewrite Heq in Hset; simplify_eq; simpl.
    + by repeat split.
    + repeat split; try done. intros _. right.
      rewrite rescales_at_insert, decide_True by done.
      destruct (add_user_to_rescale p (op, index) (rescales_at d i)) as [l0|] eqn:Ha;
        subst l.
      * by eapply add_user_to_rescale_changes.
      * intros Heq'. apply (f_equal length) in Heq'.
        rewrite length_app in Heq'. simpl in Heq'. lia.
    + repeat split; try done. intros _. left.
      rewrite (assign_params_lookup _ _ _ _ Hs), Hs. intros Heq'.
      injection Heq' as Heq'. apply Hp. by rewrite <- Heq'.
  - destruct (SetResultParams_Some E _ _ _ _ _ _ Hset)
      as (i & state & Hi & Hs).
    exists i, state. split; [done|]. split; [done|].
    destruct (SetResultParams_cases E op index p d i state Hi Hs)
      as [(Hp & Heq)|[(Hp & _ & Heq)|(Hp & _ & w & Heq)]];
      rewrite Heq in Hset; simplify_eq; simpl.
    + by repeat split.
    + repeat split; try done. intros _. right.
      rewrite rescales_at_insert, decide_True by done.
      intros Heq'. apply (f_equal length) in Heq'.
      rewrite length_app in Heq'. simpl in Heq'. lia.
    + repeat split; try done. intros _. left.
      rewrite (assign_params_lookup _ _ _ _ Hs), Hs. intros Heq'.
      injection Heq' as Heq'. apply Hp. by rewrite <- Heq'.
Qed.

(** X2 (SetOperandParams, SetResultParams): a proposal for a position
    whose state is empty is stored in that state, which keeps its flag; the
    position then reads the proposed parameters, and the same proposal made
    again reports no change. *)
Theorem assignment_to_empty_state_settles (op : Operation) (index : nat)
    (p : QuantParams) (override : bool) (d : QuantizationDriver) (i : nat)
    (state : QuantState) :
  states_ d !! i = Some state →
  IsEmpty state = true →
  p ≠ None →
  (operand_states_ d !! (op, index) = Some i →
   ∃ d', SetOperandParams E op index p override d = Some (true, d')
     ∧ GetOperandQuantState op index d'
       = Some {| params := p; immutable := immutable state |}
     ∧ SetOperandParams E op index p override d' = Some (false, d'))
  ∧ (result_states_ d !! (op, index) = Some i →
     ∃ d', SetResultParams E op index p d = Some (true, d')
       ∧ GetResultQuantState op index d'
         = Some {| params := p; immutable := immutable state |}
       ∧ SetResultParams E op index p d' = Some (false, d')).
Proof.
  intros Hs Hempty Hp.
  assert (params state ≠ p) as Hne
    by (apply IsEmpty_params in Hempty; congruence).
  split; intros Hi.
  - destruct (SetOperandParams_cases E op index p override d i state Hi Hs)
      as [(? & _)|[(_ & ? & _)|(_ & _ & w & Heq)]]; [done|congruence|].
    eexists. split; [exact Heq|].
    assert (GetOperandQuantState op index
              (set_work_list w (set_states (assign_params i p) d))
            = Some {| params := p; immutable := immutable state |}) as Hget.
    { unfold GetOperandQuantState. simpl. rewrite Hi. simpl.
      by apply assign_params_lookup. }
    split; [done|].
    unfold GetOperandQuantState in Hget. simpl in Hget.
    rewrite Hi in Hget. simpl in Hget.
    destruct (SetOperandParams_cases E op index p override
                (set_work_list w (set_states (assign_params i p) d)) i _ Hi Hget)
      as [(_ & Heq')|[(? & _)|(? & _)]]; done.
  - destruct (SetResultParams_cases E op index p d i state Hi Hs)
      as [(? & _)|[(_ & ? & _)|(_ & _ & w & Heq)]]; [done|congruence|].
    eexists. split; [exact Heq|].
    assert (GetResultQuantState op index
              (set_work_list w (set_states (assign_params i p) d))
            = Some {| params := p; immutable := immutable state |}) as Hget.
    { unfold GetResultQuantState. simpl. rewrite Hi. simpl.
      by apply assign_params_lookup. }
    split; [done|].
    unfold GetResultQuantState in Hget. simpl in Hget.
    rewrite Hi in Hget. simpl in Hget.
    destruct (SetResultParams_cases E op index p
                (set_work_list w (set_states (assign_params i p) d)) i _ Hi Hget)
      as [(_ & Heq')|[(? & _)|(? & _)]]; done.
Qed.

(** X3 (SetOperandParams, SetResultParams): an assignment never adds or
    removes a state and never changes the immutable flag of one; it leaves
    the function, the index maps, the weights and the arguments as they
    are, and the parameters asked for by the requantizations already
    pending stay, in their order. *)
Theorem assignment_keeps_the_store_shape (op : Operation) (index : nat)
    (p : QuantParams) (override b : bool) (d d' : QuantizationDriver) :
  SetOperandParams E op index p override d = Some (b, d')
  ∨ SetResultParams E op index p d = Some (b, d') →
  fn_ d' = fn_ d
  ∧ length (states_ d') = length (states_ d)
  ∧ (∀ k, immutable <$> states_ d' !! k = immutable <$> states_ d !! k)
  ∧ value_to_state_ d' = value_to_state_ d
  ∧ operand_states_ d' = operand_states_ d
  ∧ result_states_ d' = result_states_ d
  ∧ arg_states_ d' = arg_states_ d
  ∧ weights_ d' = weights_ d
  ∧ optimized_weights_ d' = optimized_weights_ d
  ∧ args_ d' = args_ d
  ∧ (∀ j, (rescale_params <$> rescales_at d j)
          `prefix_of` (rescale_params <$> rescales_at d' j)).
Proof.
  intros [H|H].
  - by eapply SetOperandParams_shape.
  - by eapply SetResultParams_shape.
Qed.

End AssignmentReports.

Section Setup.
Context (E : Collaborators).
Context (IsOpQuantizable : FuncOp → Operation → bool).

(** What one initialization call does, in full. *)
Lemma initialize_effect d p v d' :
  initialize d (p, v) = Some d' →
  fn_ d' = fn_ d
  ∧ rescale_states_ d' = rescale_states_ d
  ∧ work_list_ d' = work_list_ d
  ∧ args_ d' = args_ d
  ∧ weights_ d' = weights_ d
  ∧ optimized_weights_ d' = optimized_weights_ d
  ∧ (∀ q, q ≠ p → state_index d' q = state_index d q)
  ∧ match value_to_state_ d !! v with
    | Some i =>
        states_ d' = states_ d
        ∧ value_to_state_ d' = value_to_state_ d
        ∧ state_index d' p = Some i
    | None =>
        ∃ t, getType (fn_ d) v = Some t
             ∧ states_ d' = states_ d ++ [initial_state t]
             ∧ value_to_state_ d'
               = <[v := length (states_ d)]> (value_to_state_ d)
             ∧ state_index d' p = Some (length (states_ d))
    end.
Proof.
  unfold initialize, InitializeOperandState, InitializeResultState,
    InitializeStateForValue, InitializeArgState. simpl. intros Hinit.
  destruct (value_to_state_ d !! v) as [cached|] eqn:Hv.
  - destruct p; simpl in Hinit; simplify_eq; simpl;
      rewrite lookup_insert_eq; repeat split; try done;
      intros [] ?; simpl; try done; rewrite lookup_insert_ne; congruence.
  - destruct (getType (fn_ d) v) as [t|] eqn:Ht;
      [|destruct p; simpl in Hinit; congruence].
    destruct p; simpl in Hinit; simplify_eq; simpl;
      (repeat split; try done;
       [intros [] ?; simpl; try done; rewrite lookup_insert_ne; congruence
       |exists t; by rewrite lookup_insert_eq]).
Qed.

Lemma initialize_initial_store d p v d' :
  initialize d (p, v) = Some d' → initial_store d → initial_store d'.
Proof.
  intros Hinit (Hsize & Htype & Hinj & Hpos).
  destruct (initialize_effect d p v d' Hinit)
    as (Hfn & _ & _ & _ & _ & _ & Hother & Hcase).
  destruct (value_to_state_ d !! v) as [cached|] eqn:Hv.
  - destruct Hcase as (Hs & Hm & Hp).
    unfold initial_store. rewrite Hs, Hm, Hfn.
    repeat split; try done.
    intros q i Hq. destruct (decide (q = p)) as [->|Hne].
    + exists v. congruence.
    + rewrite Hother in Hq by done. by eapply Hpos.
  - destruct Hcase as (t & Ht & Hs & Hm & Hp).
    unfold initial_store. rewrite Hs, Hm, Hfn.
    assert (∀ w i, value_to_state_ d !! w = Some i → i < length (states_ d))
      as Hlt.
    { intros w i Hw. destruct (Htype w i Hw) as (? & _ & Hl).
      by eapply lookup_lt_Some. }
    repeat split.
    + rewrite map_size_insert_None by done. rewrite length_app. simpl. lia.
    + intros w i. destruct (decide (v = w)) as [<-|Hne].
      * rewrite lookup_insert_eq. intros [= <-]. exists t. split; [done|].
        apply lookup_snoc_length.
      * rewrite lookup_insert_ne by done. intros Hw.
        destruct (Htype w i Hw) as (t' & Ht' & Hl). exists t'.
        split; [done|]. rewrite lookup_app_l; [done|].
        by eapply lookup_lt_Some.
    + intros w1 w2 i.
      destruct (decide (v = w1)) as [<-|Hne1];
        destruct (decide (v = w2)) as [<-|Hne2]; try done.
      * rewrite lookup_insert_eq, lookup_insert_ne by done.
        intros [= <-] Hw%Hlt. lia.
      * rewrite lookup_insert_eq, lookup_insert_ne by done.
        intros Hw%Hlt [= <-]. lia.
      * rewrite !lookup_insert_ne by done. apply Hinj.
    + intros q i Hq. destruct (decide (q = p)) as [->|Hne].
      * exists v. rewrite lookup_insert_eq. congruence.
      * rewrite Hother in Hq by done.
        destruct (Hpos q i Hq) as (w & Hw). exists w.
        rewrite lookup_insert_ne; [done|congruence].
Qed.

Lemma initialize_domain d p v d' :
  initialize d (p, v) = Some d' →
  ∀ w, is_Some (value_to_state_ d' !! w)
       ↔ w = v ∨ is_Some (value_to_state_ d !! w).
Proof.
  intros Hinit w.
  destruct (initialize_effect d p v d' Hinit)
    as (_ & _ & _ & _ & _ & _ & _ & Hcase).
  destruct (value_to_state_ d !! v) as [cached|] eqn:Hv.
  - destruct Hcase as (_ & -> & _). split; [by right|].
    intros [->|?]; [by rewrite Hv|done].
  - destruct Hcase as (t & _ & _ & -> & _).
    destruct (decide (v = w)) as [<-|Hne].
    + rewrite lookup_insert_eq. split; [by left|by eexists].
    + rewrite lookup_insert_ne by done. split; [by right|].
      by intros [->|?].
Qed.

Lemma new_driver_initial_store fn : initial_store (new_driver fn).
Proof.
  unfold initial_store. simpl. repeat split; try done.
  intros [] i; simpl; by rewrite lookup_empty.
Qed.

Lemma initialize_all_initial_store calls : ∀ d d',
  for_each initialize d calls = Some d' →
  initial_store d →
  initial_store d'
  ∧ fn_ d' = fn_ d
  ∧ rescale_states_ d' = rescale_states_ d
  ∧ work_list_ d' = work_list_ d
  ∧ (∀ w, is_Some (value_to_state_ d' !! w)
          ↔ w ∈ calls.*2 ∨ is_Some (value_to_state_ d !! w)).
Proof.
  induction calls as [|[p v] calls IH]; intros d d' Hrun Hinv; simpl in Hrun.
  - simplify_eq. split_and!; try done. intros w. split; [by right|].
    intros [Hin|?]; [|done]. by apply elem_of_nil in Hin.
  - destruct (initialize d (p, v)) as [d1|] eqn:Hinit; [|done]. simpl in Hrun.
    destruct (IH d1 d' Hrun (initialize_initial_store _ _ _ _ Hinit Hinv))
      as (Hinv' & Hfn & Hr & Hw & Hdom).
    destruct (initialize_effect d p v d1 Hinit)
      as (Hfn1 & Hr1 & Hw1 & _).
    split_and!; try congruence. intros w. split.
    + intros Hs. apply Hdom in Hs as [Hin|Hs].
      * left. simpl. by apply list_elem_of_further.
      * apply (initialize_domain _ _ _ _ Hinit) in Hs as [->|Hs];
          [left; simpl; apply list_elem_of_here|by right].
    + intros Hs. apply Hdom. simpl in Hs.
      destruct Hs as [[->|Hin]%elem_of_cons|Hs].
      * right. apply (initialize_domain _ _ _ _ Hinit). by left.
      * by left.
      * right. apply (initialize_domain _ _ _ _ Hinit). by right.
Qed.

(** X4 (InitializeStateForValue, InitializeArgState): whatever
    initialization calls are made on a new driver, the state vector holds
    exactly one state for each value met: the cache has as many entries as
    there are states, no two values share a state, the state of a value is
    the record its type gives, every position points to the state of some
    value, and the values in the cache are those of the calls.  The calls
    queue no requantization and leave the function and the work list as
    they are. *)
Theorem initialization_keeps_one_state_per_value (fn : FuncOp)
    (calls : list (Position * Value)) (d : QuantizationDriver) :
  for_each initialize (new_driver fn) calls = Some d →
  initial_store d
  ∧ fn_ d = fn
  ∧ rescale_states_ d = ∅
  ∧ work_list_ d = []
  ∧ ∀ v, is_Some (value_to_state_ d !! v) ↔ v ∈ calls.*2.
Proof.
  intros Hrun.
  destruct (initialize_all_initial_store calls _ _ Hrun
              (new_driver_initial_store fn))
    as (Hinv & Hfn & Hr & Hw & Hdom).
  split_and!; try done. intros v. split.
  - intros Hs. apply Hdom in Hs as [?|Hs]; [done|].
    simpl in Hs. rewrite lookup_empty in Hs. by destruct Hs.
  - intros Hin. apply Hdom. by left.
Qed.

Lemma set_args_id d : set_args (λ args, args) d = d.
Proof. by destruct d. Qed.

Lemma initialize_setup_invariant fn d p v d' :
  setup_invariant fn d →
  position_value fn p = Some v →
  initialize d (p, v) = Some d' →
  setup_invariant fn d'
  ∧ is_Some (state_index d' p)
  ∧ (∀ q i, state_index d q = Some i → state_index d' q = Some i)
  ∧ (∀ q, q ≠ p → state_index d' q = state_index d q).
Proof.
  intros (Hfn & Hstore & Hpos) Hv Hinit.
  pose proof (initialize_initial_store _ _ _ _ Hinit Hstore) as Hstore'.
  destruct (initialize_effect d p v d' Hinit)
    as (Hfn' & _ & _ & _ & _ & _ & Hother & Hcase).
  assert (∃ i, state_index d' p = Some i ∧ value_to_state_ d' !! v = Some i
               ∧ (∀ w j, value_to_state_ d !! w = Some j →
                         value_to_state_ d' !! w = Some j)
               ∧ (∀ j, value_to_state_ d !! v = Some j → j = i))
    as (i & Hp & Hc & Hmono & Hsame).
  { destruct (value_to_state_ d !! v) as [cached|] eqn:Hc.
    - destruct Hcase as (_ & Hm & Hp). exists cached. rewrite Hm.
      split_and!; try done. by intros j [= ->].
    - destruct Hcase as (t & _ & _ & Hm & Hp). exists (length (states_ d)).
      rewrite Hm, lookup_insert_eq. split_and!; try done.
      intros w j Hw. rewrite lookup_insert_ne; [done|congruence]. }
  split_and!.
  - split_and!; [congruence|done|].
    intros q j Hq. destruct (decide (q = p)) as [->|Hne].
    + exists v. split; [done|]. congruence.
    + rewrite Hother in Hq by done.
      destruct (Hpos q j Hq) as (w & Hw & Hcw). exists w. split; [done|].
      by apply Hmono.
  - by eexists.
  - intros q j Hq. destruct (decide (q = p)) as [->|Hne].
    + destruct (Hpos p j Hq) as (w & Hw & Hcw).
      rewrite Hv in Hw. injection Hw as <-.
      by rewrite (Hsame j Hcw).
    + by rewrite Hother.
  - done.
Qed.

(** A loop whose rounds are initialization calls for the positions
    [g i]. *)
Lemma setup_positions_run fn (g : nat → Position)
    (f : QuantizationDriver → nat → option QuantizationDriver) :
  (∀ d i d', setup_invariant fn d → f d i = Some d' →
     ∃ v a, position_value fn (g i) = Some v
            ∧ initialize (set_args a d) (g i, v) = Some d') →
  ∀ l d d', setup_invariant fn d → for_each f d l = Some d' →
    setup_invariant fn d'
    ∧ (∀ i, i ∈ l → is_Some (state_index d' (g i)))
    ∧ (∀ q i, state_index d q = Some i → state_index d' q = Some i)
    ∧ (∀ q, q ∉ g <$> l → state_index d' q = state_index d q)
    ∧ work_list_ d' = work_list_ d
    ∧ rescale_states_ d' = rescale_states_ d
    ∧ weights_ d' = weights_ d
    ∧ optimized_weights_ d' = optimized_weights_ d.
Proof.
  intros Hf. induction l as [|i l IH]; intros d d' Hinv Hrun; simpl in Hrun.
  - simplify_eq. split_and!; try done. by intros i ?%elem_of_nil.
  - destruct (f d i) as [d1|] eqn:Hstep; [|done]. simpl in Hrun.
    destruct (Hf d i d1 Hinv Hstep) as (v & a & Hv & Hinit).
    destruct (initialize_setup_invariant fn (set_args a d) (g i) v d1)
      as (Hinv1 & Hset & Hmono & Hother); [exact Hinv|done|done|].
    destruct (initialize_effect _ _ _ _ Hinit)
      as (_ & Hr & Hw & _ & Hwt & Hopt & _).
    destruct (IH d1 d' Hinv1 Hrun)
      as (Hinv' & Hcov & Hmono' & Hother' & Hw' & Hr' & Hwt' & Hopt').
    split_and!; try done.
    + intros j [->|Hj]%elem_of_cons; [|by apply Hcov].
      destruct Hset as (k & Hk). exists k. by apply Hmono'.
    + intros q j Hq. apply Hmono'. by apply (Hmono q j).
    + intros q Hq. rewrite fmap_cons in Hq.
      apply not_elem_of_cons in Hq as (Hne & Hq).
      rewrite Hother' by done. by rewrite Hother.
    + by rewrite Hw'.
    + by rewrite Hr'.
    + by rewrite Hwt'.
    + by rewrite Hopt'.
Qed.

Lemma setup_arg_args l : ∀ d d',
  for_each setup_arg d l = Some d' → args_ d' = args_ d ++ l.
Proof.
  induction l as [|arg l IH]; intros d d' Hrun; simpl in Hrun.
  - simplify_eq. by rewrite app_nil_r.
  - destruct (setup_arg d arg) as [d1|] eqn:Hstep; [|done]. simpl in Hrun.
    rewrite (IH d1 d' Hrun).
    destruct (initialize_effect _ (ArgPos arg) _ _ Hstep) as (_ & _ & _ & -> & _).
    simpl. by rewrite <- app_assoc.
Qed.

Lemma setup_operands_args op l : ∀ d d',
  for_each (setup_operand op) d l = Some d' → args_ d' = args_ d.
Proof.
  induction l as [|i l IH]; intros d d' Hrun; simpl in Hrun; [congruence|].
  destruct (setup_operand op d i) as [d1|] eqn:Hstep; [|done]. simpl in Hrun.
  rewrite (IH d1 d' Hrun). unfold setup_operand in Hstep.
  destruct (getOperand (fn_ d) op i) as [v|]; [simpl in Hstep|done].
  destruct (dequantized_value (fn_ d) v) as [w|]; [simpl in Hstep|done].
  by destruct (initialize_effect _ (OperandPos op i) _ _ Hstep)
    as (_ & _ & _ & -> & _).
Qed.

Lemma setup_results_args op l : ∀ d d',
  for_each (setup_result op) d l = Some d' → args_ d' = args_ d.
Proof.
  induction l as [|i l IH]; intros d d' Hrun; simpl in Hrun; [congruence|].
  destruct (setup_result op d i) as [d1|] eqn:Hstep; [|done]. simpl in Hrun.
  rewrite (IH d1 d' Hrun).
  by destruct (initialize_effect _ (ResultPos op i) _ _ Hstep)
    as (_ & _ & _ & -> & _).
Qed.

Lemma elem_of_op_positions fn op q :
  q ∈ op_positions fn op ↔
  (∃ i, q = OperandPos op i ∧ i < numOperands fn op)
  ∨ (∃ res, q = ResultPos op res ∧ res < numResults fn op).
Proof.
  unfold op_positions. rewrite elem_of_app, !list_elem_of_fmap.
  setoid_rewrite elem_of_seq. split;
    (intros [(i & -> & Hi)|(i & -> & Hi)]; [left|right]);
    exists i; (split; [done|lia]).
Qed.

(** One round of the walk. *)
Lemma setup_op_step fn d op d' :
  setup_invariant fn d →
  setup_op E IsOpQuantizable d op = Some d' →
  setup_invariant fn d'
  ∧ work_list_ d'
    = work_list_ d ++ (if worklisted E IsOpQuantizable fn op then [op] else [])
  ∧ args_ d' = args_ d
  ∧ rescale_states_ d' = rescale_states_ d
  ∧ weights_ d' = weights_ d
  ∧ optimized_weights_ d' = optimized_weights_ d
  ∧ (∀ q i, state_index d q = Some i → state_index d' q = Some i)
  ∧ (worklisted E IsOpQuantizable fn op = true →
     ∀ q, q ∈ op_positions fn op → is_Some (state_index d' q))
  ∧ (∀ q, ¬ (worklisted E IsOpQuantizable fn op = true
             ∧ q ∈ op_positions fn op) →
          state_index d' q = state_index d q).
Proof.
  intros Hinv Hstep. pose proof Hinv as (Hfn & _).
  unfold setup_op in Hstep. unfold worklisted. rewrite Hfn in Hstep.
  destruct (GetQuantScaleSpec E fn op) as [scale_spec|] eqn:Hspec;
    [simpl in Hstep|done].
  destruct (IsOpQuantizable fn op) eqn:Hquant;
    destruct (has_same_scale_requirement scale_spec) eqn:Hsame;
    simpl in Hstep |- *;
    try (simplify_eq; rewrite app_nil_r; split_and!; try done;
         by intros q [? _]).
  all: match type of Hstep with
       | (for_each ?f ?d0 ?l ≫= _) = _ =>
           destruct (for_each f d0 l) as [d1|] eqn:Hops; [simpl in Hstep|done]
       end.
  all: rewrite Hfn in Hops;
    destruct (setup_positions_run fn (OperandPos op) (setup_operand op))
      with (l := seq 0 (numOperands fn op))
           (d := set_work_list (λ work, work ++ [op]) d) (d' := d1)
      as (Hinv1 & Hcov1 & Hmono1 & Hother1 & Hw1 & Hr1 & Hwt1 & Hopt1);
    [intros d0 i d0' (Hfn0 & _) Hs; unfold setup_operand in Hs;
     rewrite Hfn0 in Hs; simpl;
     destruct (getOperand fn op i) as [v|]; [simpl in Hs|done];
     destruct (dequantized_value fn v) as [w|] eqn:Hw; [simpl in Hs|done];
     exists w, (λ args, args); by rewrite set_args_id
    |exact Hinv|done|].
  all: pose proof Hinv1 as (Hfn1 & _); rewrite Hfn1 in Hstep;
    destruct (body fn !! op) as [node|] eqn:Hnode; [simpl in Hstep|done];
    destruct (setup_positions_run fn (ResultPos op) (setup_result op))
      with (l := seq 0 (length (resultTypes node))) (d := d1) (d' := d')
      as (Hinv2 & Hcov2 & Hmono2 & Hother2 & Hw2 & Hr2 & Hwt2 & Hopt2);
    [intros d0 i d0' (Hfn0 & _) Hs; unfold setup_result in Hs;
     rewrite Hfn0 in Hs; simpl;
     exists (quantized_value fn (OpResult op i)), (λ args, args);
     by rewrite set_args_id
    |done|done|].
  all: split_and!; try done;
    [by rewrite Hw2, Hw1
    |by rewrite (setup_results_args _ _ _ _ Hstep),
                (setup_operands_args _ _ _ _ Hops)
    |by rewrite Hr2, Hr1
    |by rewrite Hwt2, Hwt1
    |by rewrite Hopt2, Hopt1
    |intros q i Hq; apply Hmono2; by apply (Hmono1 q i)
    |intros _ q [(i & -> & Hi)|(res & -> & Hres)]%elem_of_op_positions;
     [destruct (Hcov1 i) as (k & Hk); [apply elem_of_seq; lia|];
      exists k; by apply Hmono2
     |apply Hcov2; apply elem_of_seq; unfold numResults in Hres;
      rewrite Hnode in Hres; simpl in Hres; lia]
    |intros q Hq; rewrite Hother2, Hother1; [done| |];
     intros (i & -> & Hi%elem_of_seq)%list_elem_of_fmap; apply Hq;
     (split; [done|]); apply elem_of_op_positions;
     [left|right; unfold numResults; rewrite Hnode; simpl];
     exists i; (split; [done|lia])].
Qed.

Lemma setup_ops_run fn order : ∀ d d',
  setup_invariant fn d →
  for_each (setup_op E IsOpQuantizable) d order = Some d' →
  setup_invariant fn d'
  ∧ work_list_ d'
    = work_list_ d
      ++ filter (λ op, worklisted E IsOpQuantizable fn op = true) order
  ∧ args_ d' = args_ d
  ∧ rescale_states_ d' = rescale_states_ d
  ∧ weights_ d' = weights_ d
  ∧ optimized_weights_ d' = optimized_weights_ d
  ∧ (∀ q i, state_index d q = Some i → state_index d' q = Some i)
  ∧ (∀ q, q ∈ filter (λ op, worklisted E IsOpQuantizable fn op = true) order
                ≫= op_positions fn →
          is_Some (state_index d' q))
  ∧ (∀ q, q ∉ filter (λ op, worklisted E IsOpQuantizable fn op = true) order
                ≫= op_positions fn →
          state_index d' q = state_index d q).
Proof.
  induction order as [|op order IH]; intros d d' Hinv Hrun; simpl in Hrun.
  - simplify_eq. rewrite app_nil_r. split_and!; try done.
    by intros q ?%elem_of_nil.
  - destruct (setup_op E IsOpQuantizable d op) as [d1|] eqn:Hstep; [|done].
    simpl in Hrun.
    destruct (setup_op_step fn d op d1 Hinv Hstep)
      as (Hinv1 & Hw1 & Ha1 & Hr1 & Hwt1 & Hopt1 & Hmono1 & Hcov1 & Hother1).
    destruct (IH d1 d' Hinv1 Hrun)
      as (Hinv' & Hw' & Ha' & Hr' & Hwt' & Hopt' & Hmono' & Hcov' & Hother').
    rewrite filter_cons.
    split_and!; try done; try congruence.
    + rewrite Hw', Hw1, <- app_assoc. f_equal.
      destruct (worklisted E IsOpQuantizable fn op); by case_decide.
    + intros q i Hq. apply Hmono'. by apply (Hmono1 q i).
    + intros q Hq. case_decide as Hop.
      * simpl in Hq. apply elem_of_app in Hq as [Hq|Hq]; [|by apply Hcov'].
        destruct (Hcov1 Hop q Hq) as (k & Hk). exists k. by apply Hmono'.
      * by apply Hcov'.
    + intros q Hq. case_decide as Hop.
      * simpl in Hq. apply not_elem_of_app in Hq as (Hq1 & Hq2).
        rewrite Hother' by done. apply Hother1. by intros (_ & ?).
      * rewrite Hother' by done. apply Hother1. by intros (? & _).
Qed.

Lemma store_is_empty_setup_invariant d :
  store_is_empty d → setup_invariant (fn_ d) d.
Proof.
  intros (Hs & Hv & Ho & Hr & Ha). unfold setup_invariant, initial_store.
  rewrite Hs, Hv. split_and!; try done.
  - intros [] i; simpl; by rewrite ?Ho, ?Hr, ?Ha, lookup_empty.
  - intros [] i; simpl; by rewrite ?Ho, ?Hr, ?Ha, lookup_empty.
Qed.

Lemma setup_arg_step fn d0 i d0' :
  setup_invariant fn d0 → setup_arg d0 i = Some d0' →
  ∃ v a, position_value fn (ArgPos i) = Some v
         ∧ initialize (set_args a d0) (ArgPos i, v) = Some d0'.
Proof.
  intros (Hfn0 & _) Hs. unfold setup_arg in Hs. simpl in Hs.
  rewrite Hfn0 in Hs.
  exists (quantized_value fn (BlockArgument i)), (λ args, args ++ [i]).
  by split.
Qed.

(** [SetupAllStates] on a driver whose store is empty. *)
Lemma SetupAllStates_spec order d d' :
  store_is_empty d →
  SetupAllStates E IsOpQuantizable order d = Some d' →
  setup_invariant (fn_ d) d'
  ∧ args_ d' = args_ d ++ seq 0 (length (argumentTypes (fn_ d)))
  ∧ work_list_ d'
    = work_list_ d
      ++ filter (λ op, worklisted E IsOpQuantizable (fn_ d) op = true) order
  ∧ rescale_states_ d' = rescale_states_ d
  ∧ weights_ d' = weights_ d
  ∧ optimized_weights_ d' = optimized_weights_ d
  ∧ ∀ q, is_Some (state_index d' q)
         ↔ q ∈ setup_positions E IsOpQuantizable (fn_ d) order.
Proof.
  intros Hempty Hrun. unfold SetupAllStates in Hrun.
  pose proof (store_is_empty_setup_invariant d Hempty) as Hinv.
  destruct (for_each setup_arg d (seq 0 (length (argumentTypes (fn_ d)))))
    as [d1|] eqn:Hargs; [simpl in Hrun|done].
  destruct (setup_positions_run (fn_ d) ArgPos setup_arg
              (setup_arg_step (fn_ d)) _ d d1 Hinv Hargs)
    as (Hinv1 & Hcov1 & Hmono1 & Hother1 & Hw1 & Hr1 & Hwt1 & Hopt1).
  destruct (setup_ops_run (fn_ d) order d1 d' Hinv1 Hrun)
    as (Hinv' & Hw' & Ha' & Hr' & Hwt' & Hopt' & Hmono' & Hcov' & Hother').
  split_and!; try done; try congruence.
  - by rewrite Ha', (setup_arg_args _ _ _ Hargs).
  - intros q. unfold setup_positions. rewrite elem_of_app.
    destruct (decide (q ∈ filter
                (λ op, worklisted E IsOpQuantizable (fn_ d) op = true) order
                ≫= op_positions (fn_ d))) as [Hin|Hout].
    + split; [by right|]. intros _. by apply Hcov'.
    + rewrite (Hother' q Hout).
      destruct (decide (q ∈ ArgPos <$> seq 0 (length (argumentTypes (fn_ d)))))
        as [Hin1|Hout1].
      * split; [by left|]. intros _.
        apply list_elem_of_fmap in Hin1 as (i & -> & Hi). by apply Hcov1.
      * rewrite (Hother1 q Hout1).
        destruct Hempty as (_ & _ & Ho & Hr & Ha).
        split; [|by intros [?|?]].
        destruct q; simpl; rewrite ?Ho, ?Hr, ?Ha, lookup_empty;
          by intros [? ?].
Qed.

(** X5 (SetupAllStates): on a driver whose store is empty, every
    argument and every operand and result of an operation put on the work
    list gets the state of the value behind it: for an operand that comes
    from a dequantize cast the argument of the cast, for an argument or a
    result whose only user is a quantize cast the result of the cast, the
    value itself otherwise.  That state is the record the type of this
    value gives. *)
Theorem setup_gives_each_position_the_state_of_its_value
    (order : list Operation) (d d' : QuantizationDriver) (p : Position) :
  store_is_empty d →
  SetupAllStates E IsOpQuantizable order d = Some d' →
  p ∈ setup_positions E IsOpQuantizable (fn_ d) order →
  ∃ v t i,
    position_value (fn_ d) p = Some v
    ∧ getType (fn_ d) v = Some t
    ∧ state_index d' p = Some i
    ∧ value_to_state_ d' !! v = Some i
    ∧ state_at d' p = Some (initial_state t).
Proof.
  intros Hempty Hrun Hp.
  destruct (SetupAllStates_spec order d d' Hempty Hrun)
    as ((Hfn & (_ & Htype & _) & Hpos) & _ & _ & _ & _ & _ & Hcov).
  apply Hcov in Hp as (i & Hi).
  destruct (Hpos p i Hi) as (v & Hv & Hc).
  destruct (Htype v i Hc) as (t & Ht & Hs).
  exists v, t, i. rewrite Hfn in Ht. split_and!; try done.
  unfold state_at. by rewrite Hi.
Qed.

(** X6 (SetupAllStates): the walk puts on the work list, in the order it
    meets them, the operations that are quantizable or have the same-scale
    requirement, and records the arguments in their order; it gives a
    state to the positions of these operations and to the arguments, and
    to no other position.  It builds one state for each value, and leaves
    the function, the pending requantizations and the weights as they
    were. *)
Theorem setup_schedules_the_quantizable_operations
    (order : list Operation) (d d' : QuantizationDriver) :
  store_is_empty d →
  SetupAllStates E IsOpQuantizable order d = Some d' →
  fn_ d' = fn_ d
  ∧ args_ d' = args_ d ++ seq 0 (length (argumentTypes (fn_ d)))
  ∧ work_list_ d'
    = work_list_ d
      ++ filter (λ op, worklisted E IsOpQuantizable (fn_ d) op = true) order
  ∧ initial_store d'
  ∧ rescale_states_ d' = rescale_states_ d
  ∧ weights_ d' = weights_ d
  ∧ optimized_weights_ d' = optimized_weights_ d
  ∧ ∀ q, is_Some (state_index d' q)
         ↔ q ∈ setup_positions E IsOpQuantizable (fn_ d) order.
Proof.
  intros Hempty Hrun.
  destruct (SetupAllStates_spec order d d' Hempty Hrun)
    as ((Hfn & Hstore & _) & Ha & Hw & Hr & Hwt & Hopt & Hcov).
  by split_and!.
Qed.

Lemma initialize_is_Some d p v :
  is_Some (getType (fn_ d) v) → is_Some (initialize d (p, v)).
Proof.
  intros (t & Ht). unfold initialize, InitializeOperandState,
    InitializeResultState, InitializeStateForValue, InitializeArgState.
  simpl. destruct (value_to_state_ d !! v); rewrite ?Ht; by destruct p.
Qed.

Lemma for_each_progress {S A} (I : S → Prop) (f : S → A → option S) l :
  (∀ s x, x ∈ l → I s → ∃ s', f s x = Some s' ∧ I s') →
  ∀ s, I s → ∃ s', for_each f s l = Some s' ∧ I s'.
Proof.
  induction l as [|x l IH]; intros Hf s Hs; simpl; [by exists s|].
  destruct (Hf s x) as (s1 & -> & Hs1); [apply list_elem_of_here|done|].
  simpl. apply IH; [|done]. intros s0 y Hy. apply Hf.
  by apply list_elem_of_further.
Qed.

Lemma setup_position_progress fn d p v a :
  setup_invariant fn d →
  position_value fn p = Some v →
  is_Some (getType fn v) →
  ∃ d', initialize (set_args a d) (p, v) = Some d' ∧ setup_invariant fn d'.
Proof.
  intros Hinv Hv Ht. pose proof Hinv as (Hfn & _).
  destruct (initialize_is_Some (set_args a d) p v) as (d' & Hd');
    [simpl; by rewrite Hfn|].
  exists d'. split; [done|].
  by destruct (initialize_setup_invariant fn (set_args a d) p v d').
Qed.

(** X7 (SetupAllStates): the setup completes on a driver whose store is
    empty when the operations of the walk exist and the value behind each
    position it initializes has a type. *)
Theorem setup_completes (order : list Operation) (d : QuantizationDriver) :
  store_is_empty d →
  Forall (λ op, is_Some (body (fn_ d) !! op)) order →
  Forall (λ p, is_Some (position_value (fn_ d) p ≫= getType (fn_ d)))
         (setup_positions E IsOpQuantizable (fn_ d) order) →
  is_Some (SetupAllStates E IsOpQuantizable order d).
Proof.
  intros Hempty Hbody0 Hvalues0.
  assert (∀ op, op ∈ order → is_Some (body (fn_ d) !! op)) as Hbody
    by by apply list.Forall_forall.
  assert (∀ p, p ∈ setup_positions E IsOpQuantizable (fn_ d) order →
            ∃ v, position_value (fn_ d) p = Some v
                 ∧ is_Some (getType (fn_ d) v)) as Hvalues.
  { intros p Hp. rewrite list.Forall_forall in Hvalues0.
    specialize (Hvalues0 p Hp).
    destruct (position_value (fn_ d) p) as [v|]; [|by destruct Hvalues0].
    by exists v. }
  clear Hbody0 Hvalues0. set (fn := fn_ d) in *.
  pose proof (store_is_empty_setup_invariant d Hempty) as Hinv.
  unfold SetupAllStates. fold fn.
  destruct (for_each_progress (setup_invariant fn) setup_arg
              (seq 0 (length (argumentTypes fn)))) with (s := d)
    as (d1 & -> & Hinv1); [|done|].
  { intros s arg Harg Hs. pose proof Hs as (Hfn & _).
    destruct (Hvalues (ArgPos arg)) as (v & Hv & Ht).
    { unfold setup_positions. apply elem_of_app. left.
      apply list_elem_of_fmap. by exists arg. }
    unfold setup_arg. simpl. rewrite Hfn. simpl in Hv. injection Hv as <-.
    by apply (setup_position_progress fn s (ArgPos arg)). }
  simpl.
  destruct (for_each_progress (setup_invariant fn)
              (setup_op E IsOpQuantizable) order) with (s := d1)
    as (d' & -> & _); [|done|done].
  intros s op Hop Hs. pose proof Hs as (Hfn & _).
  destruct (Hbody op Hop) as (node & Hnode).
  unfold setup_op. rewrite Hfn. unfold GetQuantScaleSpec. rewrite Hnode.
  simpl.
  destruct (negb (IsOpQuantizable fn op)
            && negb (has_same_scale_requirement
                       (op_quant_scale_spec_getter_ E (name node))))
    eqn:Hskip; [by exists s|]. rewrite Hfn.
  assert (worklisted E IsOpQuantizable fn op = true) as Hlisted.
  { unfold worklisted, GetQuantScaleSpec. rewrite Hnode. simpl.
    destruct (IsOpQuantizable fn op); [done|]. simpl in *.
    by destruct (has_same_scale_requirement _). }
  assert (∀ q, q ∈ op_positions fn op →
            ∃ v, position_value fn q = Some v ∧ is_Some (getType fn v))
    as Hq.
  { intros q Hq. apply Hvalues. unfold setup_positions. apply elem_of_app.
    right. apply list_elem_of_bind. exists op. split; [done|].
    by apply list_elem_of_filter. }
  destruct (for_each_progress (setup_invariant fn) (setup_operand op)
              (seq 0 (numOperands fn op)))
    with (s := set_work_list (λ work, work ++ [op]) s)
    as (s1 & -> & Hs1); [|exact Hs|].
  { intros s0 i Hi Hs0. pose proof Hs0 as (Hfn0 & _).
    destruct (Hq (OperandPos op i)) as (v & Hv & Ht).
    { apply elem_of_op_positions. left. exists i. split; [done|].
      apply elem_of_seq in Hi. lia. }
    unfold setup_operand. rewrite Hfn0.
    destruct (setup_position_progress fn s0 (OperandPos op i) v
                (λ args, args)) as (s0' & Hs0' & Hinv0'); [done|done|done|].
    rewrite set_args_id in Hs0'. simpl in Hv.
    destruct (getOperand fn op i) as [o|]; [simpl in Hv |- *|done].
    rewrite Hv. simpl. by exists s0'. }
  simpl. pose proof Hs1 as (Hfn1 & _). rewrite Hfn1, Hnode. simpl.
  apply (for_each_progress (setup_invariant fn) (setup_result op)); [|done].
  intros s0 res Hres Hs0. pose proof Hs0 as (Hfn0 & _).
  destruct (Hq (ResultPos op res)) as (v & Hv & Ht).
  { apply elem_of_op_positions. right. exists res. split; [done|].
    unfold numResults. rewrite Hnode. simpl. apply elem_of_seq in Hres. lia. }
  unfold setup_result. rewrite Hfn0. simpl in Hv. injection Hv as <-.
  destruct (setup_position_progress fn s0 (ResultPos op res)
              (quantized_value fn (OpResult op res)) (λ args, args))
    as (s0' & Hs0' & Hinv0'); [done|done|done|].
  rewrite set_args_id in Hs0'. by exists s0'.
Qed.

End Setup.

Section PreprocessKeeps.
Context (E : Collaborators).

Lemma rewired_refl node : rewired node node.
Proof. by repeat split. Qed.

Lemma rewired_trans n1 n2 n3 : rewired n1 n2 → rewired n2 n3 → rewired n1 n3.
Proof.
  intros (? & ? & ? & ? & ? & ?) (? & ? & ? & ? & ? & ?).
  repeat split; congruence.
Qed.

Lemma constants_copied_refl fn : constants_copied fn fn.
Proof.
  split_and!; [done| |].
  - intros op node Hnode. exists node. split_and!; [done|apply rewired_refl|].
    intros k v Hv. exists v. by split; [|left].
  - intros op node' Hop Hnode. apply lookup_lt_Some in Hnode. lia.
Qed.

Lemma same_constant_later fn fn' v v' :
  constants_copied fn fn' → same_constant fn v v' → same_constant fn' v v'.
Proof.
  intros (_ & Hkeep & _) (c & c' & n & n' & -> & -> & Hc & Hc' & Hn & Hn' & Ht & Ha).
  destruct (Hkeep c n Hc) as (m & Hm & (Hm1 & Hm2 & Hm3 & _) & _).
  destruct (Hkeep c' n' Hc') as (m' & Hm' & (Hm1' & Hm2' & Hm3' & _) & _).
  exists c, c', m, m'. split_and!; try done; congruence.
Qed.

Lemma same_constant_trans fn v1 v2 v3 :
  same_constant fn v1 v2 → same_constant fn v2 v3 → same_constant fn v1 v3.
Proof.
  intros (c & c' & n & n' & -> & -> & Hc & Hc' & Hn & Hn' & Ht & Ha)
         (c2 & c3 & n2 & n3 & Heq & -> & Hc2 & Hc3 & Hn2 & Hn3 & Ht3 & Ha3).
  injection Heq as <-. rewrite Hc' in Hc2. injection Hc2 as <-.
  exists c, c3, n, n3. split_and!; try done; congruence.
Qed.

Lemma constants_copied_trans fn1 fn2 fn3 :
  constants_copied fn1 fn2 → constants_copied fn2 fn3 →
  constants_copied fn1 fn3.
Proof.
  intros H12 H23. pose proof H12 as (Ha & Hkeep & Hnew).
  pose proof H23 as (Ha' & Hkeep' & Hnew').
  split_and!; [congruence| |].
  - intros op node Hnode.
    destruct (Hkeep op node Hnode) as (node2 & Hnode2 & Hre & Hops).
    destruct (Hkeep' op node2 Hnode2) as (node3 & Hnode3 & Hre' & Hops').
    exists node3. split_and!; [done|by eapply rewired_trans|].
    intros k v Hv. destruct (Hops k v Hv) as (v2 & Hv2 & Hsame).
    destruct (Hops' k v2 Hv2) as (v3 & Hv3 & Hsame').
    exists v3. split; [done|].
    destruct Hsame as [->|Hsame]; [done|]. right.
    apply (same_constant_later _ _ _ _ H23) in Hsame.
    destruct Hsame' as [->|Hsame']; [done|].
    by eapply same_constant_trans.
  - intros op node3 Hop Hnode3.
    destruct (decide (op < length (body fn2))) as [Hlt|Hge].
    + destruct (lookup_lt_is_Some_2 _ _ Hlt) as (node2 & Hnode2).
      destruct (Hnew op node2 Hop Hnode2) as (Hname & Hnil).
      destruct (Hkeep' op node2 Hnode2)
        as (node3' & Hnode3' & (Hn & _ & _ & _ & _ & Hlen) & _).
      rewrite Hnode3 in Hnode3'. injection Hnode3' as <-.
      split; [congruence|]. rewrite Hnil in Hlen.
      by destruct (operands node3).
    + apply (Hnew' op node3); [lia|done].
Qed.

Lemma preprocessed_refl d : preprocessed d d.
Proof. split_and!; try done. apply constants_copied_refl. Qed.

Lemma preprocessed_trans d1 d2 d3 :
  preprocessed d1 d2 → preprocessed d2 d3 → preprocessed d1 d3.
Proof.
  intros (Hc & Hw & Ho & ? & ? & ? & ? & ? & ? & ? & ?)
         (Hc' & Hw' & Ho' & ? & ? & ? & ? & ? & ? & ? & ?).
  split_and!; try congruence.
  - by eapply constants_copied_trans.
  - by etrans.
  - by etrans.
Qed.

Lemma setOperand_body op i v fn fn' :
  setOperand op i v fn = Some fn' →
  ∃ node, body fn !! op = Some node
    ∧ is_Some (operands node !! i)
    ∧ body fn' = <[op := set_operands <[i := v]> node]> (body fn)
    ∧ argumentTypes fn' = argumentTypes fn.
Proof.
  unfold setOperand. intros H.
  destruct (body fn !! op) as [node|]; [simpl in H|done].
  destruct (operands node !! i) as [w|] eqn:Hw; [simpl in H|done].
  injection H as <-. exists node. by split_and!.
Qed.

(** One round of the loop over the uses of the constant [cst]. *)
Lemma preprocess_use_copied cst n d use d' cst_node :
  body (fn_ d) !! cst = Some cst_node →
  name cst_node = ArithConstantOp →
  getOperand (fn_ d) use.1 use.2 = Some (OpResult cst 0) →
  preprocess_use E cst n d use = Some d' →
  preprocessed d d'
  ∧ ∀ slot, slot ≠ use →
      getOperand (fn_ d') slot.1 slot.2 = getOperand (fn_ d) slot.1 slot.2.
Proof.
  destruct use as [user k]. intros Hcst Hname Huse Hstep. simpl in Huse.
  unfold preprocess_use in Hstep.
  destruct (is_weight_use E (fn_ d) (user, k)) as [[]|];
    (destruct (GetQuantSpec E (fn_ d) user) as [spec|]; [|done]);
    [| |done]; simpl in Hstep.
  - assert (weights_ d ⊆ {[cst]} ∪ weights_ d) as Hw by set_solver.
    destruct (coeff_op_quant_dim spec !! k) as [dim|]; simplify_eq; simpl.
    + split; [|done]. split_and!; try done; simpl.
      * apply constants_copied_refl.
      * destruct (optimized_weights_ d !! cst) eqn:Ho; [done|].
        by apply insert_subseteq.
    + split; [|done]. split_and!; try done; simpl.
      apply constants_copied_refl.
  - case_bool_decide as Hn; simpl in Hstep;
      [|simplify_eq; split; [apply preprocessed_refl|done]].
    rewrite Hcst in Hstep. simpl in Hstep.
    match type of Hstep with
    | (setOperand _ _ _ ?f ≫= _) = _ =>
        destruct (setOperand user k (OpResult (length (body (fn_ d))) 0) f)
          as [fn2|] eqn:Hset; [simpl in Hstep|done]
    end.
    injection Hstep as <-. simpl.
    apply setOperand_body in Hset as (node_u & Hu & _ & Hbody & Hargs).
    simpl in Hu, Hbody, Hargs.
    apply getOperand_Some in Huse as (node & Hnode & Hk).
    pose proof (lookup_lt_Some _ _ _ Hnode) as Hlt.
    rewrite lookup_app_l in Hu by done.
    rewrite Hnode in Hu. injection Hu as <-.
    set (new := mkConstantOp (resultTypes cst_node) (valueAttr cst_node)) in *.
    set (m := length (body (fn_ d))) in *.
    assert (∀ op, op ≠ user →
              body fn2 !! op = (body (fn_ d) ++ [new]) !! op) as Hother.
    { intros op Hop. rewrite Hbody. by rewrite list_lookup_insert_ne. }
    assert (body fn2 !! user = Some (set_operands <[k := OpResult m 0]> node))
      as Huser.
    { rewrite Hbody. apply list_lookup_insert_eq. rewrite length_app. lia. }
    assert (body fn2 !! m = Some new) as Hnew.
    { rewrite Hother by lia. apply lookup_snoc_length. }
    split.
    + split_and!; try done. split_and!; [done| |].
      * intros op node0 Hnode0.
        destruct (decide (op = user)) as [->|Hop].
        -- rewrite Hnode in Hnode0. injection Hnode0 as <-.
           eexists. split; [exact Huser|]. split.
           { repeat split; simpl. by rewrite length_insert. }
           intros k' v Hv. simpl.
           destruct (decide (k' = k)) as [->|Hk'].
           ++ exists (OpResult m 0). split.
              { apply list_lookup_insert_eq. by eapply lookup_lt_Some. }
              right. rewrite Hk in Hv. injection Hv as <-.
              destruct (decide (cst = user)) as [->|Hcu].
              ** rewrite Hnode in Hcst. injection Hcst as ->.
                 eexists user, m, _, new. by split_and!.
              ** exists cst, m, cst_node, new. split_and!; try done.
                 rewrite Hother by done. rewrite lookup_app_l; [done|].
                 by eapply lookup_lt_Some.
           ++ exists v. split; [|by left].
              by rewrite list_lookup_insert_ne.
        -- exists node0. split_and!.
           ++ rewrite Hother by done. rewrite lookup_app_l; [done|].
              by eapply lookup_lt_Some.
           ++ apply rewired_refl.
           ++ intros k' v Hv. exists v. by split; [|left].
      * intros op node' Hop Hnode'. simpl in Hop, Hnode'. fold m in Hop.
        assert (op = m) as ->.
        { pose proof (lookup_lt_Some _ _ _ Hnode') as Hl.
          rewrite Hbody, length_insert, length_app in Hl.
          simpl in Hl. unfold m in *. lia. }
        rewrite Hnew in Hnode'. by injection Hnode' as <-.
    + intros [op j] Hslot. simpl. unfold getOperand.
      destruct (decide (op = user)) as [->|Hop].
      * rewrite Huser, Hnode. simpl. rewrite list_lookup_insert_ne; [done|].
        congruence.
      * rewrite Hother by done.
        destruct (decide (op < m)) as [Hlt'|Hge].
        -- by rewrite lookup_app_l.
        -- rewrite (lookup_ge_None_2 (body (fn_ d))) by (unfold m in *; lia).
           destruct (decide (op = m)) as [->|Hne].
           ++ unfold m. rewrite lookup_snoc_length. simpl.
              by rewrite lookup_nil.
           ++ rewrite lookup_ge_None_2; [done|].
              rewrite length_app. simpl. unfold m in *. lia.
Qed.

Lemma preprocess_uses_copied cst n : ∀ us d d',
  NoDup us →
  (∃ cst_node, body (fn_ d) !! cst = Some cst_node
               ∧ name cst_node = ArithConstantOp) →
  (∀ use, use ∈ us → getOperand (fn_ d) use.1 use.2 = Some (OpResult cst 0)) →
  for_each (preprocess_use E cst n) d us = Some d' →
  preprocessed d d'.
Proof.
  induction us as [|use us IH]; intros d d' Hnd (cst_node & Hcst & Hname)
    Huses Hrun; simpl in Hrun.
  - simplify_eq. apply preprocessed_refl.
  - destruct (preprocess_use E cst n d use) as [d1|] eqn:Hstep; [|done].
    simpl in Hrun. apply list.NoDup_cons in Hnd as (Hnotin & Hnd).
    destruct (preprocess_use_copied cst n d use d1 cst_node)
      as (Hpre & Hslots); [done|done|apply Huses, list_elem_of_here|done|].
    eapply preprocessed_trans; [exact Hpre|].
    apply IH; [done| | |done].
    + destruct Hpre as ((_ & Hkeep & _) & _).
      destruct (Hkeep cst cst_node Hcst) as (node' & Hnode' & (Hn & _) & _).
      exists node'. split; [done|congruence].
    + intros use' Hin. rewrite Hslots; [|by intros ->].
      apply Huses. by apply list_elem_of_further.
Qed.

Lemma preprocess_constant_copied d cst d' :
  preprocess_constant E d cst = Some d' → preprocessed d d'.
Proof.
  unfold preprocess_constant. intros Hrun.
  destruct (body (fn_ d) !! cst) as [cst_node|] eqn:Hcst; [simpl in Hrun|done].
  case_bool_decide as Hname; simpl in Hrun;
    [|simplify_eq; apply preprocessed_refl].
  destruct (resultTypes cst_node !! 0) as [t|]; [simpl in Hrun|done].
  destruct (isFloatShaped t); simpl in Hrun;
    [|simplify_eq; apply preprocessed_refl].
  match type of Hrun with
  | (?x ≫= _) = _ => destruct x as [[]|]; simpl in Hrun;
      [simplify_eq; apply preprocessed_refl| |done]
  end.
  eapply preprocess_uses_copied; [apply NoDup_getUses| | |exact Hrun].
  - by exists cst_node.
  - intros [user k] Hin. by apply elem_of_getUses.
Qed.

Lemma preprocess_walk_copied l : ∀ d d',
  for_each (preprocess_constant E) d l = Some d' → preprocessed d d'.
Proof.
  induction l as [|cst l IH]; intros d d' Hrun; simpl in Hrun.
  - simplify_eq. apply preprocessed_refl.
  - destruct (preprocess_constant E d cst) as [d1|] eqn:Hstep; [|done].
    simpl in Hrun. eapply preprocessed_trans.
    + by eapply preprocess_constant_copied.
    + by apply IH.
Qed.

(** X8 (PreprocessConstantOps): the preprocessor keeps every node of the
    function, with its name, result types, content and number of
    operands; an operand reads the value it read before or the result of a
    constant with the same types and content; the nodes it adds are
    constants; the types of the arguments stay. *)
Theorem preprocessing_only_copies_constants (d d' : QuantizationDriver) :
  PreprocessConstantOps E d = Some d' →
  constants_copied (fn_ d) (fn_ d').
Proof.
  intros Hrun. by destruct (preprocess_walk_copied _ _ _ Hrun).
Qed.

(** X9 (PreprocessConstantOps): the preprocessor leaves the state store,
    the pending requantizations, the work list and the arguments as they
    are; the set of weights only grows, and a quantization dimension
    recorded for a weight is never replaced. *)
Theorem preprocessing_keeps_the_state_store (d d' : QuantizationDriver) :
  PreprocessConstantOps E d = Some d' →
  states_ d' = states_ d
  ∧ rescale_states_ d' = rescale_states_ d
  ∧ value_to_state_ d' = value_to_state_ d
  ∧ operand_states_ d' = operand_states_ d
  ∧ result_states_ d' = result_states_ d
  ∧ arg_states_ d' = arg_states_ d
  ∧ work_list_ d' = work_list_ d
  ∧ args_ d' = args_ d
  ∧ weights_ d ⊆ weights_ d'
  ∧ (∀ cst dim, optimized_weights_ d !! cst = Some dim →
                optimized_weights_ d' !! cst = Some dim)
  ∧ (store_is_empty d → store_is_empty d').
Proof.
  intros Hrun.
  destruct (preprocess_walk_copied _ _ _ Hrun)
    as (_ & Hw & Ho & Hs & Hr & Hv & Hos & Hrs & Has & Hwl & Ha).
  split_and!; try done.
  - intros cst dim Hdim. by eapply lookup_weaken.
  - unfold store_is_empty. by rewrite Hs, Hv, Hos, Hrs, Has.
Qed.

Lemma preprocess_use_fn cst n d use d' :
  preprocess_use E cst n d use = Some d' →
  fn_ d' = fn_ d ∨ (1 < n ∧ is_weight_use E (fn_ d) use = Some false).
Proof.
  destruct use as [user k]. unfold preprocess_use.
  destruct (is_weight_use E (fn_ d) (user, k)) as [[]|];
    (destruct (GetQuantSpec E (fn_ d) user) as [spec|]; [|done]);
    [| |done]; simpl.
  - destruct (coeff_op_quant_dim spec !! k); intros; simplify_eq; by left.
  - case_bool_decide; [by right|]. intros; simplify_eq. by left.
Qed.

Lemma preprocess_uses_fn cst n : ∀ us d d',
  for_each (preprocess_use E cst n) d us = Some d' →
  fn_ d' = fn_ d
  ∨ (1 < n ∧ ∃ use, use ∈ us ∧ is_weight_use E (fn_ d) use = Some false).
Proof.
  induction us as [|use us IH]; intros d d' Hrun; simpl in Hrun.
  - simplify_eq. by left.
  - destruct (preprocess_use E cst n d use) as [d1|] eqn:Hstep; [|done].
    simpl in Hrun.
    destruct (preprocess_use_fn _ _ _ _ _ Hstep) as [Hfn|(Hn & Hw)].
    + destruct (IH d1 d' Hrun) as [Hfn'|(Hn & use' & Hin & Hw)].
      * left. congruence.
      * right. split; [done|]. exists use'. rewrite <- Hfn.
        split; [by apply list_elem_of_further|done].
    + right. split; [done|]. exists use. split; [apply list_elem_of_here|done].
Qed.

(** X10 (PreprocessConstantOps): the callback of the walk changes the
    function only at a constant of float tensor type that has more than one
    use, one of which is not a weight use: a constant with a single use is
    never duplicated, whatever its user. *)
Theorem only_shared_constants_are_duplicated (d d' : QuantizationDriver)
    (cst : Operation) :
  preprocess_constant E d cst = Some d' →
  fn_ d' ≠ fn_ d →
  ∃ cst_node t use,
    body (fn_ d) !! cst = Some cst_node
    ∧ name cst_node = ArithConstantOp
    ∧ resultTypes cst_node !! 0 = Some t
    ∧ isFloatShaped t = true
    ∧ 1 < length (getUses (fn_ d) (OpResult cst 0))
    ∧ use ∈ getUses (fn_ d) (OpResult cst 0)
    ∧ is_weight_use E (fn_ d) use = Some false.
Proof.
  unfold preprocess_constant. intros Hrun Hfn.
  destruct (body (fn_ d) !! cst) as [cst_node|] eqn:Hcst; [simpl in Hrun|done].
  case_bool_decide as Hname; simpl in Hrun; [|congruence].
  destruct (resultTypes cst_node !! 0) as [t|] eqn:Ht; [simpl in Hrun|done].
  destruct (isFloatShaped t) eqn:Hfloat; simpl in Hrun; [|congruence].
  match type of Hrun with
  | (?x ≫= _) = _ => destruct x as [[]|]; simpl in Hrun; [congruence| |done]
  end.
  destruct (preprocess_uses_fn _ _ _ _ _ Hrun) as [?|(Hn & use & Hin & Hw)];
    [done|].
  by exists cst_node, t, use.
Qed.

End PreprocessKeeps.

Section SameScaleChoice.

Lemma GetQuantParamsForSameScaleConstraint_rules op d node
    operand_sts result_sts :
  body (fn_ d) !! op = Some node →
  operand_quant_states op (length (operands node)) d = Some operand_sts →
  result_quant_states op (length (resultTypes node)) d = Some result_sts →
  GetQuantParamsForSameScaleConstraint op d
  = Some (same_scale_by_rules operand_sts result_sts).
Proof.
  intros Hnode Hops Hres.
  assert (length (operands node) = length operand_sts) as Hlo.
  { apply length_mapM in Hops. by rewrite length_seq in Hops. }
  assert (length (resultTypes node) = length result_sts) as Hlr.
  { apply length_mapM in Hres. by rewrite length_seq in Hres. }
  unfold GetQuantParamsForSameScaleConstraint.
  rewrite Hnode. simpl. rewrite Hops. simpl.
  rewrite collect_states_filter. simpl.
  rewrite Hres. simpl. rewrite collect_states_filter. rewrite Hlo, Hlr.
  rewrite single_front0. rewrite !single_back, !first_front, single_front.
  apply same_scale_chain.
Qed.

Lemma option_union_first {A} (x y : option A) :
  x ∪ y = match x with Some a => Some a | None => y end.
Proof. by destruct x, y. Qed.

Lemma single_state_Some f sts p :
  single_state f sts = Some p →
  ∃ s, s ∈ sts ∧ f s = true ∧ params s = p.
Proof.
  destruct sts as [|s [|? ?]]; simpl; try done.
  destruct (f s) eqn:Hf; [|done]. intros [= <-]. exists s.
  split; [apply list_elem_of_here|done].
Qed.

Lemma first_state_Some f operand_sts result_sts p :
  first_state f operand_sts result_sts = Some p →
  ∃ s, s ∈ operand_sts ++ result_sts ∧ f s = true ∧ params s = p.
Proof.
  unfold first_state. intros Hfind.
  destruct (List.find f (operand_sts ++ result_sts)) as [s|] eqn:Hs; [|done].
  injection Hfind as <-. apply find_some in Hs as (Hin & Hf).
  exists s. split; [by apply list_elem_of_In|done].
Qed.

Lemma first_state_None f operand_sts result_sts :
  first_state f operand_sts result_sts = None →
  Forall (λ s, f s = false) (operand_sts ++ result_sts).
Proof.
  unfold first_state. intros Hfind.
  destruct (List.find f (operand_sts ++ result_sts)) as [s|] eqn:Hs; [done|].
  apply list.Forall_forall. intros s Hin.
  apply (find_none _ _ Hs). by apply list_elem_of_In.
Qed.

(** The parameters chosen for a same-scale operation, by kind of
    state. *)
Lemma same_scale_by_rules_choice operand_sts result_sts :
  (∃ s, s ∈ operand_sts ++ result_sts ∧ immutable s = true
        ∧ same_scale_by_rules operand_sts result_sts = params s)
  ∨ (Forall (λ s, immutable s = false) (operand_sts ++ result_sts)
     ∧ ∃ s, s ∈ operand_sts ++ result_sts ∧ mutable_nonempty s = true
            ∧ same_scale_by_rules operand_sts result_sts = params s)
  ∨ (Forall (λ s, immutable s = false) (operand_sts ++ result_sts)
     ∧ Forall (λ s, mutable_nonempty s = false) (operand_sts ++ result_sts)
     ∧ same_scale_by_rules operand_sts result_sts = None).
Proof.
  unfold same_scale_by_rules. rewrite !option_union_first.
  destruct (single_state immutable operand_sts) as [p|] eqn:H1.
  { left. apply single_state_Some in H1 as (s & Hin & Hf & <-).
    exists s. split_and!; [|done..]. apply elem_of_app. by left. }
  destruct (single_state immutable result_sts) as [p|] eqn:H2.
  { left. apply single_state_Some in H2 as (s & Hin & Hf & <-).
    exists s. split_and!; [|done..]. apply elem_of_app. by right. }
  destruct (first_state immutable operand_sts result_sts) as [p|] eqn:H3.
  { left. apply first_state_Some in H3 as (s & Hin & Hf & <-). by exists s. }
  apply first_state_None in H3. right.
  destruct (single_state mutable_nonempty operand_sts) as [p|] eqn:H4.
  { left. split; [done|].
    apply single_state_Some in H4 as (s & Hin & Hf & <-).
    exists s. split_and!; [|done..]. apply elem_of_app. by left. }
  destruct (single_state mutable_nonempty result_sts) as [p|] eqn:H5.
  { left. split; [done|].
    apply single_state_Some in H5 as (s & Hin & Hf & <-).
    exists s. split_and!; [|done..]. apply elem_of_app. by right. }
  destruct (first_state mutable_nonempty operand_sts result_sts)
    as [p|] eqn:H6.
  { left. split; [done|].
    apply first_state_Some in H6 as (s & Hin & Hf & <-). by exists s. }
  apply first_state_None in H6. by right.
Qed.

(** X11 (GetQuantParamsForSameScaleConstraint): the parameters chosen for
    an operation are those of one of the states of its operands and
    results: of an immutable state whenever there is one, of a state that
    holds parameters otherwise; the choice is null when no state is
    immutable and none holds parameters. *)
Theorem same_scale_choice_is_a_recorded_state (op : Operation)
    (d : QuantizationDriver) (node : OpNode)
    (operand_sts result_sts : list QuantState) :
  body (fn_ d) !! op = Some node →
  operand_quant_states op (length (operands node)) d = Some operand_sts →
  result_quant_states op (length (resultTypes node)) d = Some result_sts →
  ∃ p, GetQuantParamsForSameScaleConstraint op d = Some p
    ∧ (Exists (λ s, immutable s = true) (operand_sts ++ result_sts) →
       ∃ s, s ∈ operand_sts ++ result_sts ∧ immutable s = true
            ∧ params s = p)
    ∧ (Forall (λ s, immutable s = false) (operand_sts ++ result_sts) →
       Exists (λ s, IsEmpty s = false) (operand_sts ++ result_sts) →
       ∃ s, s ∈ operand_sts ++ result_sts ∧ immutable s = false
            ∧ IsEmpty s = false ∧ params s = p)
    ∧ (Forall (λ s, immutable s = false ∧ IsEmpty s = true)
              (operand_sts ++ result_sts) →
       p = None).
Proof.
  intros Hnode Hops Hres.
  exists (same_scale_by_rules operand_sts result_sts).
  split; [by eapply GetQuantParamsForSameScaleConstraint_rules|].
  destruct (same_scale_by_rules_choice operand_sts result_sts)
    as [(s & Hin & Hi & ->)|[(Hall & s & Hin & Hm & ->)|(Hall & Hnone & ->)]].
  - split_and!.
    + intros _. by exists s.
    + intros Hno _. rewrite list.Forall_forall in Hno.
      specialize (Hno s Hin). congruence.
    + intros Hno. rewrite list.Forall_forall in Hno.
      destruct (Hno s Hin). congruence.
  - apply andb_true_iff in Hm as (Hm1 & Hm2).
    apply negb_true_iff in Hm1, Hm2. split_and!.
    + intros (s' & Hin' & Hi')%list.Exists_exists. rewrite list.Forall_forall in Hall.
      specialize (Hall s' Hin'). congruence.
    + intros _ _. by exists s.
    + intros Hno. rewrite list.Forall_forall in Hno.
      destruct (Hno s Hin). congruence.
  - split_and!.
    + intros (s' & Hin' & Hi')%list.Exists_exists. rewrite list.Forall_forall in Hall.
      specialize (Hall s' Hin'). congruence.
    + intros _ (s' & Hin' & He')%list.Exists_exists.
      rewrite list.Forall_forall in Hall, Hnone.
      specialize (Hall s' Hin'). specialize (Hnone s' Hin').
      unfold mutable_nonempty in Hnone. rewrite Hall, He' in Hnone. done.
    + done.
Qed.

End SameScaleChoice.

Section Materialize.

Lemma NoDup_singleton_eq {A} (l : list A) (a : A) :
  NoDup l → (∀ x, x ∈ l ↔ x = a) → l = [a].
Proof.
  intros Hnd Hin. destruct l as [|x l].
  - assert (a ∈ []) as Ha by by apply Hin. by apply elem_of_nil in Ha.
  - assert (x = a) as -> by (apply Hin, list_elem_of_here).
    apply list.NoDup_cons in Hnd as (Hnotin & _).
    destruct l as [|y l]; [done|].
    assert (y = a) as ->.
    { apply Hin. apply list_elem_of_further, list_elem_of_here. }
    destruct Hnotin. apply list_elem_of_here.
Qed.

Lemma value_with_type_is_defined fn value t :
  getType fn value = Some t →
  ∀ op index, length (body fn) ≤ op → value ≠ OpResult op index.
Proof.
  intros Ht op index Hop ->. simpl in Ht.
  rewrite lookup_ge_None_2 in Ht; done.
Qed.

(** The function after the two casts have been inserted for [value]. *)
Lemma QuantizeValue_body value q fn t new_type :
  getType fn value = Some t →
  castFromExpressedType q t = Some new_type →
  ∃ fn', QuantizeValue value (Some q) fn = Some fn'
    ∧ argumentTypes fn' = argumentTypes fn
    ∧ body fn'
      = (set_operands
           (fmap (replace_value value (OpResult (S (length (body fn))) 0)))
         <$> body fn)
        ++ [set_volatile (mkQuantizeCastOp new_type value);
            mkDequantizeCastOp t (OpResult (length (body fn)) 0)].
Proof.
  intros Ht Hcast. unfold QuantizeValue. rewrite Ht. simpl. rewrite Hcast.
  simpl. set (n := length (body fn)).
  assert (length (body fn ++ [mkQuantizeCastOp new_type value]) = S n) as Hlen
    by (rewrite length_app; simpl; lia).
  rewrite Hlen. unfold setVolatile. simpl.
  rewrite lookup_app_l by (rewrite Hlen; lia).
  rewrite lookup_app_r by (unfold n; lia). rewrite Nat.sub_diag. simpl.
  unfold replaceUsesOfWith. simpl.
  assert (<[n:=set_volatile (mkQuantizeCastOp new_type value)]>
            ((body fn ++ [mkQuantizeCastOp new_type value])
             ++ [mkDequantizeCastOp t (OpResult n 0)])
          = body fn ++ [set_volatile (mkQuantizeCastOp new_type value);
                        mkDequantizeCastOp t (OpResult n 0)]) as ->.
  { rewrite <- app_assoc. simpl.
    rewrite insert_app_r_alt by (unfold n; lia).
    by rewrite Nat.sub_diag. }
  rewrite fmap_app. simpl.
  rewrite lookup_app_r by (rewrite length_fmap; unfold n; lia).
  rewrite length_fmap, Nat.sub_diag. simpl.
  eexists. split; [done|]. simpl. split; [done|].
  assert (<[n:=set_volatile (mkQuantizeCastOp new_type value)]>
            ((body fn ++ [mkQuantizeCastOp new_type value])
             ++ [mkDequantizeCastOp t (OpResult n 0)])
          = body fn ++ [set_volatile (mkQuantizeCastOp new_type value);
                        mkDequantizeCastOp t (OpResult n 0)]) as ->.
  { rewrite <- app_assoc. simpl.
    rewrite insert_app_r_alt by (unfold n; lia).
    by rewrite Nat.sub_diag. }
  rewrite fmap_app.
  rewrite insert_app_r_alt by (rewrite length_fmap; unfold n; lia).
  rewrite length_fmap, Nat.sub_diag. simpl. f_equal.
  unfold set_operands, set_volatile, mkQuantizeCastOp, mkDequantizeCastOp.
  simpl. unfold replace_value.
  destruct (decide (value = value)) as [_|?]; [|done].
  destruct (decide (OpResult (S n) 0 = OpResult (S n) 0)) as [_|?]; [|done].
  destruct (decide (OpResult n 0 = value)) as [Heq|_]; [|done].
  exfalso. symmetry in Heq. revert Heq.
  apply (value_with_type_is_defined fn value t Ht). unfold n. lia.
Qed.

(** X12 (QuantizeValue): for a value whose type holds the expressed type
    of the parameters, a quantize cast of the value and a dequantize cast
    of its result are added; the quantize cast is marked volatile and is
    the only remaining user of the value, every operand that read the value
    reads the result of the dequantize cast, which has the type of the
    value, and the other operands and the types stay. *)
Theorem quantize_value_inserts_a_cast_pair (value : Value)
    (q : QuantizedType) (fn : FuncOp) (t new_type : Type_) :
  getType fn value = Some t →
  castFromExpressedType q t = Some new_type →
  ∃ fn', QuantizeValue value (Some q) fn = Some fn'
    ∧ length (body fn') = length (body fn) + 2
    ∧ isa QuantizeCastOp fn' (length (body fn)) = true
    ∧ isa DequantizeCastOp fn' (S (length (body fn))) = true
    ∧ volatile <$> body fn' !! length (body fn) = Some true
    ∧ getType fn' (OpResult (length (body fn)) 0) = Some new_type
    ∧ getType fn' (OpResult (S (length (body fn))) 0) = Some t
    ∧ getOperand fn' (S (length (body fn))) 0
      = Some (OpResult (length (body fn)) 0)
    ∧ getUses fn' value = [(length (body fn), 0)]
    ∧ (∀ op k w, getOperand fn op k = Some w →
         getOperand fn' op k
         = Some (if decide (w = value)
                 then OpResult (S (length (body fn))) 0 else w))
    ∧ (∀ v t', getType fn v = Some t' → getType fn' v = Some t').
Proof.
  intros Ht Hcast.
  destruct (QuantizeValue_body value q fn t new_type Ht Hcast)
    as (fn' & Hrun & Hargs & Hbody).
  set (n := length (body fn)) in *.
  pose proof (value_with_type_is_defined fn value t Ht) as Hfresh. fold n in Hfresh.
  assert (body fn' !! n = Some (set_volatile (mkQuantizeCastOp new_type value)))
    as Hq.
  { rewrite Hbody, lookup_app_r by (rewrite length_fmap; unfold n; lia).
    by rewrite length_fmap, Nat.sub_diag. }
  assert (body fn' !! S n
          = Some (mkDequantizeCastOp t (OpResult n 0))) as Hdq.
  { rewrite Hbody, lookup_app_r by (rewrite length_fmap; unfold n; lia).
    rewrite length_fmap. by replace (S n - length (body fn)) with 1
      by (unfold n; lia). }
  assert (∀ op node, body fn !! op = Some node →
            body fn' !! op
            = Some (set_operands
                      (fmap (replace_value value (OpResult (S n) 0))) node))
    as Hold.
  { intros op node Hnode. rewrite Hbody, lookup_app_l.
    - by rewrite list_lookup_fmap, Hnode.
    - rewrite length_fmap. by eapply lookup_lt_Some. }
  assert (∀ op k w, getOperand fn op k = Some w →
            getOperand fn' op k
            = Some (if decide (w = value) then OpResult (S n) 0 else w))
    as Hops.
  { intros op k w (node & Hnode & Hw)%getOperand_Some.
    unfold getOperand. rewrite (Hold op node Hnode). simpl.
    rewrite list_lookup_fmap, Hw. done. }
  exists fn'. split_and!; try done.
  - rewrite Hbody, length_app, length_fmap. simpl. unfold n. lia.
  - unfold isa. by rewrite Hq.
  - unfold isa. by rewrite Hdq.
  - by rewrite Hq.
  - simpl. by rewrite Hq.
  - simpl. by rewrite Hdq.
  - unfold getOperand. by rewrite Hdq.
  - apply NoDup_singleton_eq; [apply NoDup_getUses|]. intros [op k].
    rewrite elem_of_getUses. split.
    + intros Huse. destruct (decide (op < n)) as [Hlt|Hge].
      * destruct (lookup_lt_is_Some_2 (body fn) op Hlt) as (node & Hnode).
        unfold getOperand in Huse. rewrite (Hold op node Hnode) in Huse.
        simpl in Huse. rewrite list_lookup_fmap in Huse.
        destruct (operands node !! k) as [w|]; [|done]. simpl in Huse.
        injection Huse as Huse. unfold replace_value in Huse.
        case_decide; [|done]. symmetry in Huse.
        by apply Hfresh in Huse; [|lia].
      * destruct (decide (op = n)) as [->|Hn].
        -- unfold getOperand in Huse. rewrite Hq in Huse. simpl in Huse.
           by destruct k.
        -- destruct (decide (op = S n)) as [->|Hsn].
           ++ unfold getOperand in Huse. rewrite Hdq in Huse. simpl in Huse.
              destruct k; [|done].
              injection Huse as Huse. symmetry in Huse.
              by apply Hfresh in Huse; [|lia].
           ++ unfold getOperand in Huse.
              rewrite lookup_ge_None_2 in Huse; [done|].
              rewrite Hbody, length_app, length_fmap. simpl. unfold n in *.
              lia.
    + intros [= -> ->]. unfold getOperand. by rewrite Hq.
  - intros [op index|arg] t' Hv; simpl in *.
    + destruct (body fn !! op) as [node|] eqn:Hnode; [|done].
      by rewrite (Hold op node Hnode).
    + by rewrite Hargs.
Qed.

Lemma RequantizeValue_on_input_body value front rest q fn t new_type :
  pos front = ON_INPUT →
  rescale_params front = Some q →
  getType fn value = Some t →
  castFromExpressedType q t = Some new_type →
  ∃ fn', RequantizeValue value (front :: rest) fn = Some fn'
    ∧ argumentTypes fn' = argumentTypes fn
    ∧ body fn'
      = (set_operands
           (fmap (replace_value value (OpResult (length (body fn)) 0)))
         <$> body fn)
        ++ [mkQuantizeCastOp new_type value].
Proof.
  intros Hpos Hq Ht Hcast. unfold RequantizeValue. rewrite Hpos, Ht. simpl.
  rewrite Hq. simpl. rewrite Hcast. simpl. set (n := length (body fn)).
  unfold replaceUsesOfWith. simpl. rewrite fmap_app.
  rewrite lookup_app_r by (rewrite length_fmap; unfold n; lia).
  rewrite length_fmap, Nat.sub_diag. simpl.
  eexists. split; [done|]. simpl. split; [done|].
  rewrite fmap_app.
  rewrite insert_app_r_alt by (rewrite length_fmap; unfold n; lia).
  rewrite length_fmap, Nat.sub_diag. simpl. f_equal.
  unfold set_operands, mkQuantizeCastOp. simpl. unfold replace_value.
  destruct (decide (value = value)) as [_|?]; [|done].
  by destruct (decide (OpResult n 0 = OpResult n 0)) as [_|?].
Qed.

(** X13 (RequantizeValue): when the first pending requantization is on
    the input side, one quantize cast of the value to its parameters is
    added; it becomes the only user of the value and every operand that
    read the value reads its result.  The requantizations after the first
    one are not looked at. *)
Theorem requantize_on_input_inserts_one_cast (value : Value)
    (front : RequantizeState) (rest : list RequantizeState)
    (q : QuantizedType) (fn : FuncOp) (t new_type : Type_) :
  pos front = ON_INPUT →
  rescale_params front = Some q →
  getType fn value = Some t →
  castFromExpressedType q t = Some new_type →
  ∃ fn', RequantizeValue value (front :: rest) fn = Some fn'
    ∧ RequantizeValue value [front] fn = Some fn'
    ∧ length (body fn') = length (body fn) + 1
    ∧ isa QuantizeCastOp fn' (length (body fn)) = true
    ∧ getType fn' (OpResult (length (body fn)) 0) = Some new_type
    ∧ getUses fn' value = [(length (body fn), 0)]
    ∧ (∀ op k w, getOperand fn op k = Some w →
         getOperand fn' op k
         = Some (if decide (w = value)
                 then OpResult (length (body fn)) 0 else w))
    ∧ (∀ v t', getType fn v = Some t' → getType fn' v = Some t').
Proof.
  intros Hpos Hparams Ht Hcast.
  destruct (RequantizeValue_on_input_body value front rest q fn t new_type
              Hpos Hparams Ht Hcast) as (fn' & Hrun & Hargs & Hbody).
  destruct (RequantizeValue_on_input_body value front [] q fn t new_type
              Hpos Hparams Ht Hcast) as (fn1 & Hrun1 & Hargs1 & Hbody1).
  assert (fn1 = fn') as ->.
  { destruct fn1, fn'. simpl in *. congruence. }
  set (n := length (body fn)) in *.
  pose proof (value_with_type_is_defined fn value t Ht) as Hfresh.
  fold n in Hfresh.
  assert (body fn' !! n = Some (mkQuantizeCastOp new_type value)) as Hq.
  { rewrite Hbody, lookup_app_r by (rewrite length_fmap; unfold n; lia).
    by rewrite length_fmap, Nat.sub_diag. }
  assert (∀ op node, body fn !! op = Some node →
            body fn' !! op
            = Some (set_operands
                      (fmap (replace_value value (OpResult n 0))) node))
    as Hold.
  { intros op node Hnode. rewrite Hbody, lookup_app_l.
    - by rewrite list_lookup_fmap, Hnode.
    - rewrite length_fmap. by eapply lookup_lt_Some. }
  exists fn'. split_and!; try done.
  - rewrite Hbody, length_app, length_fmap. simpl. unfold n. lia.
  - unfold isa. by rewrite Hq.
  - simpl. by rewrite Hq.
  - apply NoDup_singleton_eq; [apply NoDup_getUses|]. intros [op k].
    rewrite elem_of_getUses. split.
    + intros Huse. destruct (decide (op < n)) as [Hlt|Hge].
      * destruct (lookup_lt_is_Some_2 (body fn) op Hlt) as (node & Hnode).
        unfold getOperand in Huse. rewrite (Hold op node Hnode) in Huse.
        simpl in Huse. rewrite list_lookup_fmap in Huse.
        destruct (operands node !! k) as [w|]; [|done]. simpl in Huse.
        injection Huse as Huse. unfold replace_value in Huse.
        case_decide; [|done]. symmetry in Huse.
        by apply Hfresh in Huse; [|lia].
      * destruct (decide (op = n)) as [->|Hn].
        -- unfold getOperand in Huse. rewrite Hq in Huse. simpl in Huse.
           by destruct k.
        -- unfold getOperand in Huse.
           rewrite lookup_ge_None_2 in Huse; [done|].
           rewrite Hbody, length_app, length_fmap. simpl. unfold n in *. lia.
    + intros [= -> ->]. unfold getOperand. by rewrite Hq.
  - intros op k w (node & Hnode & Hw)%getOperand_Some.
    unfold getOperand. rewrite (Hold op node Hnode). simpl.
    by rewrite list_lookup_fmap, Hw.
  - intros [op index|arg] t' Hv; simpl in *.
    + destruct (body fn !! op) as [node|] eqn:Hnode; [|done].
      by rewrite (Hold op node Hnode).
    + by rewrite Hargs.
Qed.

Lemma casts_added_refl fn : casts_added fn fn.
Proof.
  split_and!; [done| |].
  - intros op node Hnode. exists node. by split_and!.
  - intros op node' Hop Hnode. apply lookup_lt_Some in Hnode. lia.
Qed.

Lemma casts_added_trans fn1 fn2 fn3 :
  casts_added fn1 fn2 → casts_added fn2 fn3 → casts_added fn1 fn3.
Proof.
  intros (Ha & Hkeep & Hnew) (Ha' & Hkeep' & Hnew').
  split_and!; [congruence| |].
  - intros op node Hnode.
    destruct (Hkeep op node Hnode)
      as (node2 & Hnode2 & ? & ? & ? & ? & ?).
    destruct (Hkeep' op node2 Hnode2)
      as (node3 & Hnode3 & ? & ? & ? & ? & ?).
    exists node3. split_and!; congruence.
  - intros op node3 Hop Hnode3.
    destruct (decide (op < length (body fn2))) as [Hlt|Hge].
    + destruct (lookup_lt_is_Some_2 _ _ Hlt) as (node2 & Hnode2).
      destruct (Hkeep' op node2 Hnode2) as (node3' & Hnode3' & Hn & _).
      rewrite Hnode3 in Hnode3'. injection Hnode3' as <-. rewrite Hn.
      by apply (Hnew op).
    + apply (Hnew' op node3); [lia|done].
Qed.

Lemma casts_added_create node fn :
  name node = QuantizeCastOp ∨ name node = DequantizeCastOp →
  casts_added fn (create node fn).2.
Proof.
  intros Hname. split_and!; [done| |]; simpl.
  - intros op node0 Hnode0. exists node0. split_and!; try done.
    by apply lookup_app_l_Some.
  - intros op node' Hop Hnode'.
    assert (op = length (body fn)) as ->.
    { apply lookup_lt_Some in Hnode'. rewrite length_app in Hnode'.
      simpl in Hnode'. lia. }
    rewrite lookup_snoc_length in Hnode'. by injection Hnode' as <-.
Qed.

(** A function whose nodes are those of [fn], each with other operands or
    another volatile flag. *)
Lemma casts_added_pointwise fn fn' :
  argumentTypes fn' = argumentTypes fn →
  length (body fn') = length (body fn) →
  (∀ op node, body fn !! op = Some node →
     ∃ node', body fn' !! op = Some node'
       ∧ name node' = name node
       ∧ resultTypes node' = resultTypes node
       ∧ valueAttr node' = valueAttr node
       ∧ affineOperandIndex node' = affineOperandIndex node
       ∧ length (operands node') = length (operands node)) →
  casts_added fn fn'.
Proof.
  intros Ha Hlen Hkeep. split_and!; [done|done|].
  intros op node' Hop Hnode'. apply lookup_lt_Some in Hnode'. lia.
Qed.

Lemma casts_added_setOperand op i v fn fn' :
  setOperand op i v fn = Some fn' → casts_added fn fn'.
Proof.
  intros (node & Hnode & _ & Hbody & Hargs)%setOperand_body.
  apply casts_added_pointwise; [done|by rewrite Hbody, length_insert|].
  intros op' node' Hnode'. rewrite Hbody.
  destruct (decide (op' = op)) as [->|Hne].
  - rewrite list_lookup_insert_eq by by eapply lookup_lt_Some.
    rewrite Hnode in Hnode'. injection Hnode' as <-.
    eexists. split; [done|]. simpl. by rewrite length_insert.
  - rewrite list_lookup_insert_ne by done. exists node'. by split_and!.
Qed.

Lemma casts_added_setVolatile op fn fn' :
  setVolatile op fn = Some fn' → casts_added fn fn'.
Proof.
  unfold setVolatile. intros H.
  destruct (body fn !! op) as [node|] eqn:Hnode; [simpl in H|done].
  injection H as <-.
  apply casts_added_pointwise; [done|by simpl; rewrite length_insert|].
  intros op' node' Hnode'. simpl.
  destruct (decide (op' = op)) as [->|Hne].
  - rewrite list_lookup_insert_eq by by eapply lookup_lt_Some.
    rewrite Hnode in Hnode'. injection Hnode' as <-.
    eexists. by split.
  - rewrite list_lookup_insert_ne by done. exists node'. by split_and!.
Qed.

Lemma casts_added_replaceAllUsesWith from to fn :
  casts_added fn (replaceAllUsesWith from to fn).
Proof.
  apply casts_added_pointwise; [done|by simpl; rewrite length_fmap|].
  intros op node Hnode. simpl. rewrite list_lookup_fmap, Hnode. simpl.
  eexists. split; [done|]. simpl. by rewrite length_fmap.
Qed.

Lemma casts_added_replaceUsesOfWith op from to fn fn' :
  replaceUsesOfWith op from to fn = Some fn' → casts_added fn fn'.
Proof.
  unfold replaceUsesOfWith. intros H.
  destruct (body fn !! op) as [node|] eqn:Hnode; [simpl in H|done].
  injection H as <-.
  apply casts_added_pointwise; [done|by simpl; rewrite length_insert|].
  intros op' node' Hnode'. simpl.
  destruct (decide (op' = op)) as [->|Hne].
  - rewrite list_lookup_insert_eq by by eapply lookup_lt_Some.
    rewrite Hnode in Hnode'. injection Hnode' as <-.
    eexists. split; [done|]. simpl. by rewrite length_fmap.
  - rewrite list_lookup_insert_ne by done. exists node'. by split_and!.
Qed.

Lemma casts_added_QuantizeValue value p fn fn' :
  QuantizeValue value p fn = Some fn' → casts_added fn fn'.
Proof.
  unfold QuantizeValue. intros H.
  destruct (getType fn value) as [t|]; [simpl in H|done].
  destruct p as [q|]; [simpl in H|done].
  destruct (castFromExpressedType q t) as [new_type|];
    [|injection H as <-; apply casts_added_refl].
  simpl in H.
  match type of H with
  | (setVolatile ?op ?f ≫= _) = _ =>
      destruct (setVolatile op f) as [fn3|] eqn:Hvol; [simpl in H|done]
  end.
  eapply casts_added_trans;
    [apply (casts_added_create (mkQuantizeCastOp new_type value)); by left|].
  eapply casts_added_trans;
    [apply (casts_added_create
              (mkDequantizeCastOp t (OpResult (length (body fn)) 0)));
     by right|].
  eapply casts_added_trans; [by eapply casts_added_setVolatile|].
  eapply casts_added_trans; [apply casts_added_replaceAllUsesWith|].
  by eapply casts_added_replaceUsesOfWith.
Qed.

Lemma casts_added_setOperands l v : ∀ fn fn',
  for_each (λ fn (op_index : OpValue),
              setOperand op_index.1 op_index.2 v fn) fn l = Some fn' →
  casts_added fn fn'.
Proof.
  induction l as [|[op i] l IH]; intros fn fn' H; simpl in H.
  - injection H as <-. apply casts_added_refl.
  - destruct (setOperand op i v fn) as [fn1|] eqn:Hset; [simpl in H|done].
    eapply casts_added_trans; [by eapply casts_added_setOperand|by apply IH].
Qed.

Lemma casts_added_requantize_before_user value dequant_op acc state acc' :
  requantize_before_user value dequant_op acc state = Some acc' →
  casts_added acc.1 acc'.1.
Proof.
  destruct acc as [fn clobber_first]. unfold requantize_before_user.
  intros H. simpl.
  destruct (getType fn value) as [t|]; [simpl in H|done].
  destruct (castToExpressedType t) as [expressed_type|];
    [|injection H as <-; apply casts_added_refl].
  destruct (rescale_params state) as [q|]; [simpl in H|done].
  destruct (castFromExpressedType q expressed_type) as [new_type|];
    [|injection H as <-; apply casts_added_refl].
  simpl in H.
  eapply casts_added_trans;
    [apply (casts_added_create (mkQuantizeCastOp new_type value)); by left|].
  destruct clobber_first.
  - match type of H with
    | (setOperand ?a ?b ?c ?f ≫= _) = _ =>
        destruct (setOperand a b c f) as [fn2|] eqn:Hset; [simpl in H|done]
    end.
    injection H as <-. simpl. by eapply casts_added_setOperand.
  - match type of H with
    | (?x ≫= _) = _ => destruct x as [dequant_type|]; [simpl in H|done]
    end.
    match type of H with
    | (for_each ?f ?s ?l ≫= _) = _ =>
        destruct (for_each f s l) as [fn2|] eqn:Hset; [simpl in H|done]
    end.
    injection H as <-. simpl.
    eapply casts_added_trans; [|by eapply casts_added_setOperands].
    apply (casts_added_create (mkDequantizeCastOp _ _)). by right.
Qed.

Lemma casts_added_requantize_loop value dequant_op states : ∀ acc acc',
  for_each (requantize_before_user value dequant_op) acc states = Some acc' →
  casts_added acc.1 acc'.1.
Proof.
  induction states as [|state states IH]; intros acc acc' H; simpl in H.
  - injection H as <-. apply casts_added_refl.
  - destruct (requantize_before_user value dequant_op acc state)
      as [acc1|] eqn:Hstep; [simpl in H|done].
    eapply casts_added_trans;
      [by eapply casts_added_requantize_before_user|by apply IH].
Qed.

Lemma casts_added_RequantizeValue value states fn fn' :
  RequantizeValue value states fn = Some fn' → casts_added fn fn'.
Proof.
  unfold RequantizeValue. intros H.
  destruct states as [|front rest]; [injection H as <-; apply casts_added_refl|].
  destruct (pos front).
  - injection H as <-. apply casts_added_refl.
  - destruct (getType fn value) as [t|]; [simpl in H|done].
    destruct (rescale_params front) as [q|]; [simpl in H|done].
    destruct (castFromExpressedType q t) as [new_type|];
      [|injection H as <-; apply casts_added_refl].
    simpl in H.
    eapply casts_added_trans;
      [apply (casts_added_create (mkQuantizeCastOp new_type value)); by left|].
    eapply casts_added_trans; [apply casts_added_replaceAllUsesWith|].
    by eapply casts_added_replaceUsesOfWith.
  - destruct (getUses fn value) as [|[user k] [|? ?]];
      try (injection H as <-; apply casts_added_refl).
    destruct (isa DequantizeCastOp fn user); cbn [negb] in H;
      [|injection H as <-; apply casts_added_refl].
    match type of H with
    | (fst <$> for_each ?f ?s ?l) = _ =>
        destruct (for_each f s l) as [acc|] eqn:Hloop; [|done]
    end.
    cbn [fmap option_fmap option_map] in H.
    injection H as <-.
    by apply (casts_added_requantize_loop _ _ _ _ _ Hloop).
Qed.

Lemma casts_added_RequantizeOpResult op index states fn fn' :
  RequantizeOpResult op index states fn = Some fn' → casts_added fn fn'.
Proof.
  unfold RequantizeOpResult. intros H.
  destruct states as [|front rest]; [injection H as <-; apply casts_added_refl|].
  case_decide; [injection H as <-; apply casts_added_refl|].
  match type of H with
  | (if ?b then _ else _) = _ => destruct b;
      [injection H as <-; apply casts_added_refl|]
  end.
  match type of H with
  | (?x ≫= _) = _ => destruct x as [value|]; [|done]
  end.
  change (RequantizeValue value (front :: rest) fn = Some fn') in H.
  by eapply casts_added_RequantizeValue.
Qed.

Lemma casts_added_RequantizeArg arg states fn fn' :
  RequantizeArg arg states fn = Some fn' → casts_added fn fn'.
Proof. unfold RequantizeArg. apply casts_added_RequantizeValue. Qed.

Lemma only_function_differs_refl d : only_function_differs d d.
Proof. by split_and!. Qed.

Lemma FinalizeArg_casts d arg d' :
  FinalizeArg d arg = Some d' →
  only_function_differs d d' ∧ casts_added (fn_ d) (fn_ d').
Proof.
  unfold FinalizeArg. intros H.
  destruct (GetArgQuantState arg d) as [state|]; [simpl in H|done].
  destruct (GetArgRequantizeStates arg d) as [requantizes|];
    [simpl in H|done].
  match type of H with
  | (if ?b then _ else _) = _ => destruct b;
      [injection H as <-; split;
         [apply only_function_differs_refl|apply casts_added_refl]|]
  end.
  match type of H with
  | (?x ≫= _) = _ => destruct x as [fn1|] eqn:H1; [simpl in H|done]
  end.
  match type of H with
  | (?x ≫= _) = _ => destruct x as [fn2|] eqn:H2; [simpl in H|done]
  end.
  injection H as <-. split; [by split_and!|]. simpl.
  eapply casts_added_trans.
  - destruct (negb (immutable state));
      [by eapply casts_added_QuantizeValue
      |injection H1 as <-; apply casts_added_refl].
  - destruct (negb (bool_decide (requantizes = [])));
      [by eapply casts_added_RequantizeArg
      |injection H2 as <-; apply casts_added_refl].
Qed.

Lemma FinalizeResult_casts d it d' :
  FinalizeResult d it = Some d' →
  only_function_differs d d' ∧ casts_added (fn_ d) (fn_ d').
Proof.
  destruct it as [op res_index]. unfold FinalizeResult. intros H.
  destruct (GetResultQuantState op res_index d) as [state|];
    [simpl in H|done].
  destruct (GetResultRequantizeStates op res_index d) as [requantizes|];
    [simpl in H|done].
  match type of H with
  | (if ?b then _ else _) = _ => destruct b;
      [injection H as <-; split;
         [apply only_function_differs_refl|apply casts_added_refl]|]
  end.
  match type of H with
  | (?x ≫= _) = _ => destruct x as [fn1|] eqn:H1; [simpl in H|done]
  end.
  match type of H with
  | (?x ≫= _) = _ => destruct x as [fn2|] eqn:H2; [simpl in H|done]
  end.
  injection H as <-. split; [by split_and!|]. simpl.
  eapply casts_added_trans.
  - destruct (negb (immutable state));
      [by eapply casts_added_QuantizeValue
      |injection H1 as <-; apply casts_added_refl].
  - destruct (negb (bool_decide (requantizes = [])));
      [by eapply casts_added_RequantizeOpResult
      |injection H2 as <-; apply casts_added_refl].
Qed.

Lemma finalize_loop_casts {A}
    (f : QuantizationDriver → A → option QuantizationDriver) l :
  (∀ d x d', f d x = Some d' →
     only_function_differs d d' ∧ casts_added (fn_ d) (fn_ d')) →
  ∀ d d', for_each f d l = Some d' →
    only_function_differs d d' ∧ casts_added (fn_ d) (fn_ d').
Proof.
  intros Hf. induction l as [|x l IH]; intros d d' H; simpl in H.
  - injection H as <-.
    split; [apply only_function_differs_refl|apply casts_added_refl].
  - destruct (f d x) as [d1|] eqn:Hstep; [simpl in H|done].
    destruct (Hf d x d1 Hstep)
      as ((? & ? & ? & ? & ? & ? & ? & ? & ? & ?) & Hc1).
    destruct (IH d1 d' H) as ((? & ? & ? & ? & ? & ? & ? & ? & ? & ?) & Hc2).
    split; [split_and!; congruence|by eapply casts_added_trans].
Qed.

(** X14 (Finalize, QuantizeValue, RequantizeValue): the finalization
    changes nothing of the driver but the function, and in the function it
    only adds quantize and dequantize casts and rewires operands: every
    node stays, with its name, its result types, its content and its
    number of operands, and so does the type of every argument. *)
Theorem finalize_only_adds_casts (d d' : QuantizationDriver) :
  Finalize d = Some d' →
  only_function_differs d d' ∧ casts_added (fn_ d) (fn_ d').
Proof.
  unfold Finalize. intros H.
  destruct (for_each FinalizeArg d (args_ d)) as [d1|] eqn:Hargs;
    [simpl in H|done].
  destruct (finalize_loop_casts FinalizeArg _ FinalizeArg_casts _ _ Hargs)
    as ((? & ? & ? & ? & ? & ? & ? & ? & ? & ?) & Hc1).
  destruct (finalize_loop_casts FinalizeResult _ FinalizeResult_casts _ _ H)
    as ((? & ? & ? & ? & ? & ? & ? & ? & ? & ?) & Hc2).
  split; [split_and!; congruence|by eapply casts_added_trans].
Qed.

Lemma for_each_fixed {S A} (f : S → A → option S) l s :
  (∀ x, x ∈ l → f s x = Some s) → for_each f s l = Some s.
Proof.
  induction l as [|x l IH]; intros Hf; simpl; [done|].
  rewrite Hf by apply list_elem_of_here. simpl. apply IH.
  intros y Hy. apply Hf. by apply list_elem_of_further.
Qed.

(** X15 (Finalize): when the state of every recorded argument and of
    every result position is empty, or is immutable with no requantization
    pending, the finalization leaves the driver and its function exactly
    as they are. *)
Theorem finalize_leaves_settled_states (d : QuantizationDriver) :
  Forall (λ arg, settled_position d (ArgPos arg)) (args_ d) →
  Forall (λ it, settled_position d (ResultPos it.1.1 it.1.2))
         (map_to_list (result_states_ d)) →
  Finalize d = Some d.
Proof.
  intros Hargs0 Hresults0.
  assert (∀ arg, arg ∈ args_ d →
            ∃ i state, arg_states_ d !! arg = Some i
                       ∧ states_ d !! i = Some state
                       ∧ settled state (rescales_at d i)) as Hargs.
  { intros arg Hin. rewrite list.Forall_forall in Hargs0.
    by apply Hargs0. }
  assert (∀ op res_index i, result_states_ d !! (op, res_index) = Some i →
            ∃ state, states_ d !! i = Some state
                     ∧ settled state (rescales_at d i)) as Hresults.
  { intros op res_index i Hin. rewrite list.Forall_forall in Hresults0.
    apply elem_of_map_to_list in Hin.
    destruct (Hresults0 _ Hin) as (i' & state & Hi & Hs & Hsettled).
    simpl in Hi. apply elem_of_map_to_list in Hin.
    unfold OpValue in *. rewrite Hin in Hi. injection Hi as <-.
    by exists state. }
  clear Hargs0 Hresults0. unfold Finalize.
  rewrite for_each_fixed.
  - simpl. apply for_each_fixed. intros [op res_index] Hin.
    apply list_elem_of_fmap in Hin as ([[op' res'] i] & [= <- <-] & Hin).
    apply elem_of_map_to_list in Hin.
    destruct (Hresults op res_index i Hin) as (state & Hs & Hsettled).
    unfold FinalizeResult, GetResultQuantState, GetResultRequantizeStates.
    unfold OpValue in *. rewrite Hin. simpl. rewrite Hs. simpl.
    destruct Hsettled as [->|(-> & ->)]; [done|].
    rewrite bool_decide_eq_true_2 by done. simpl. by rewrite orb_true_r.
  - intros arg Hin.
    destruct (Hargs arg Hin) as (i & state & Hi & Hs & Hsettled).
    unfold FinalizeArg, GetArgQuantState, GetArgRequantizeStates.
    rewrite Hi. simpl. rewrite Hs. simpl.
    destruct Hsettled as [->|(-> & ->)]; [done|].
    rewrite bool_decide_eq_true_2 by done. simpl. by rewrite orb_true_r.
Qed.

Lemma setOperand_getOperand op i v fn fn' :
  setOperand op i v fn = Some fn' →
  length (body fn') = length (body fn)
  ∧ ∀ op' i', getOperand fn' op' i'
              = if decide ((op', i') = (op, i)) then Some v
                else getOperand fn op' i'.
Proof.
  unfold setOperand. intros H.
  destruct (body fn !! op) as [node|] eqn:Hnode; [simpl in H|done].
  destruct (operands node !! i) as [w|] eqn:Hw; [simpl in H|done].
  injection H as <-. simpl. split; [by rewrite length_insert|].
  intros op' i'. unfold getOperand. simpl.
  destruct (decide (op' = op)) as [->|Hne].
  - rewrite list_lookup_insert_eq by by eapply lookup_lt_Some.
    rewrite Hnode. simpl. destruct (decide (i' = i)) as [->|Hi].
    + rewrite decide_True by done. apply list_lookup_insert_eq.
      by eapply lookup_lt_Some.
    + rewrite decide_False by congruence.
      by rewrite list_lookup_insert_ne.
  - rewrite decide_False by congruence.
    by rewrite list_lookup_insert_ne.
Qed.

Lemma setOperand_elsewhere op i v fn fn' :
  setOperand op i v fn = Some fn' →
  ∀ op', op' ≠ op → body fn' !! op' = body fn !! op'.
Proof.
  intros (node & _ & _ & Hbody & _)%setOperand_body op' Hne.
  rewrite Hbody. by rewrite list_lookup_insert_ne.
Qed.

Lemma setOperands_getOperand l v : ∀ fn,
  Forall (λ u : OpValue, is_Some (getOperand fn u.1 u.2)) l →
  ∃ fn', for_each (λ fn (op_index : OpValue),
                     setOperand op_index.1 op_index.2 v fn) fn l = Some fn'
    ∧ length (body fn') = length (body fn)
    ∧ (∀ op i, getOperand fn' op i
               = if decide ((op, i) ∈ l) then Some v else getOperand fn op i)
    ∧ (∀ op, op ∉ l.*1 → body fn' !! op = body fn !! op).
Proof.
  induction l as [|[op0 i0] l IH]; intros fn Hall.
  - exists fn. by split_and!.
  - apply list.Forall_cons in Hall as (Hfirst & Hall). simpl in Hfirst.
    destruct Hfirst as (w & Hw).
    apply getOperand_Some in Hw as (node & Hnode & Hw).
    set (fn1 := set_body <[op0:=set_operands <[i0:=v]> node]> fn).
    assert (setOperand op0 i0 v fn = Some fn1) as Hset.
    { unfold setOperand. rewrite Hnode. simpl. by rewrite Hw. }
    cbn [for_each]. cbn [fst snd]. rewrite Hset. cbn [mbind option_bind].
    destruct (setOperand_getOperand _ _ _ _ _ Hset) as (Hlen1 & Hget1).
    destruct (IH fn1) as (fn' & Hrun & Hlen & Hget & Helse).
    { eapply list.Forall_impl; [exact Hall|]. intros [op i] Hs. simpl in *.
      rewrite Hget1. by case_decide. }
    exists fn'. split_and!; [done|congruence| |].
    + intros op i. rewrite Hget, Hget1.
      destruct (decide ((op, i) ∈ l)) as [Hin|Hout].
      * rewrite decide_True; [done|]. by apply list_elem_of_further.
      * destruct (decide ((op, i) = (op0, i0))) as [Heq|Hne].
        -- rewrite decide_True; [done|]. rewrite Heq. apply list_elem_of_here.
        -- rewrite decide_False; [done|].
           intros [?|?]%elem_of_cons; done.
    + intros op Hop. rewrite fmap_cons in Hop.
      apply not_elem_of_cons in Hop as (Hne & Hop). simpl in Hne.
      rewrite Helse by done.
      by apply (setOperand_elsewhere _ _ _ _ _ Hset).
Qed.

(** X25 (RequantizeValue): for a value whose only user is a dequantize
    cast and a single pending requantization on the output side, one
    quantize cast of the value to the requested parameters is added.  If
    the result of the dequantize cast has at most one use, this cast is
    made to read the new quantize cast and nothing else changes.
    Otherwise a second dequantize cast, of the same type, reads the new
    quantize cast, the users listed by the requantization are made to
    read it, and no other operand changes. *)
Theorem requantize_on_output_redirects_the_users (value : Value)
    (state : RequantizeState) (fn : FuncOp) (dequant_op k : nat)
    (t e new_type : Type_) (q : QuantizedType) :
  pos state = ON_OUTPUT →
  getUses fn value = [(dequant_op, k)] →
  isa DequantizeCastOp fn dequant_op = true →
  getType fn value = Some t →
  castToExpressedType t = Some e →
  rescale_params state = Some q →
  castFromExpressedType q e = Some new_type →
  (length (getUses fn (OpResult dequant_op 0)) ≤ 1 →
   ∃ fn', RequantizeValue value [state] fn = Some fn'
     ∧ length (body fn') = S (length (body fn))
     ∧ body fn' !! length (body fn) = Some (mkQuantizeCastOp new_type value)
     ∧ getOperand fn' dequant_op 0 = Some (OpResult (length (body fn)) 0)
     ∧ ∀ op i, (op, i) ≠ (dequant_op, 0) → op < length (body fn) →
         getOperand fn' op i = getOperand fn op i)
  ∧ (1 < length (getUses fn (OpResult dequant_op 0)) →
     ∀ dequant_type,
       getType fn (OpResult dequant_op 0) = Some dequant_type →
       Forall (λ u : OpValue, is_Some (getOperand fn u.1 u.2)) (users state) →
       ∃ fn', RequantizeValue value [state] fn = Some fn'
         ∧ length (body fn') = S (S (length (body fn)))
         ∧ body fn' !! length (body fn)
           = Some (mkQuantizeCastOp new_type value)
         ∧ body fn' !! S (length (body fn))
           = Some (mkDequantizeCastOp dequant_type
                     (OpResult (length (body fn)) 0))
         ∧ (∀ op i, (op, i) ∈ users state →
              getOperand fn' op i = Some (OpResult (S (length (body fn))) 0))
         ∧ (∀ op i, (op, i) ∉ users state → op < length (body fn) →
              getOperand fn' op i = getOperand fn op i)).
Proof.
  intros Hpos Huses Hisa Ht He Hq Hcast. set (n := length (body fn)).
  assert (getOperand fn dequant_op k = Some value) as Hk.
  { apply elem_of_getUses. rewrite Huses. apply list_elem_of_here. }
  apply getOperand_Some in Hk as (dq_node & Hdq & Hvalue).
  pose proof (lookup_lt_Some _ _ _ Hdq) as Hlt. fold n in Hlt.
  set (fn1 := set_body (λ b, b ++ [mkQuantizeCastOp new_type value]) fn).
  assert (∀ op i, op < n → getOperand fn1 op i = getOperand fn op i) as Hfn1.
  { intros op i Hop. unfold getOperand, fn1. simpl.
    by rewrite lookup_app_l. }
  split.
  - intros Hclobber. unfold RequantizeValue. rewrite Hpos, Huses, Hisa.
    simpl. rewrite bool_decide_eq_true_2 by (simpl; lia).
    rewrite Ht. simpl. rewrite He, Hq. simpl. rewrite Hcast. simpl.
    fold n. fold fn1.
    assert (is_Some (getOperand fn1 dequant_op 0)) as (w & Hw).
    { rewrite Hfn1 by done. unfold getOperand. rewrite Hdq. simpl.
      apply lookup_lt_is_Some_2. apply lookup_lt_Some in Hvalue. lia. }
    apply getOperand_Some in Hw as (node1 & Hnode1 & Hw).
    assert (setOperand dequant_op 0 (OpResult n 0) fn1
            = Some (set_body
                      <[dequant_op:=set_operands <[0:=OpResult n 0]> node1]>
                      fn1)) as Hset.
    { unfold setOperand. rewrite Hnode1. simpl. by rewrite Hw. }
    rewrite Hset. simpl. eexists. split; [done|].
    destruct (setOperand_getOperand _ _ _ _ _ Hset) as (Hlen & Hget).
    simpl in Hlen. split_and!.
    + simpl. rewrite length_insert, length_app. simpl. unfold n. lia.
    + simpl. rewrite list_lookup_insert_ne by lia.
      apply lookup_snoc_length.
    + rewrite Hget. by rewrite decide_True.
    + intros op i Hne Hop. rewrite Hget, decide_False by done.
      by apply Hfn1.
  - intros Hshared dequant_type Hdqt Husers. unfold RequantizeValue.
    rewrite Hpos, Huses, Hisa. simpl.
    rewrite bool_decide_eq_false_2 by (simpl; lia).
    rewrite Ht. simpl. rewrite He, Hq. simpl. rewrite Hcast. simpl.
    fold n.
    assert ((body fn ++ [mkQuantizeCastOp new_type value]) !! dequant_op
            = Some dq_node) as -> by by apply lookup_app_l_Some.
    simpl in Hdqt. rewrite Hdq in Hdqt. simpl in Hdqt. simpl.
    rewrite Hdqt. simpl.
    assert (length (body fn ++ [mkQuantizeCastOp new_type value]) = S n)
      as -> by (rewrite length_app; simpl; unfold n; lia).
    set (fn2 := set_body
                  (λ b, b ++ [mkDequantizeCastOp dequant_type (OpResult n 0)])
                  fn1).
    assert (∀ op i, op < n → getOperand fn2 op i = getOperand fn op i)
      as Hfn2.
    { intros op i Hop. unfold getOperand, fn2, fn1. simpl.
      rewrite lookup_app_l by (rewrite length_app; simpl; unfold n in *; lia).
      by rewrite lookup_app_l. }
    destruct (setOperands_getOperand (users state) (OpResult (S n) 0) fn2)
      as (fn' & Hrun & Hlen & Hget & Helse).
    { eapply list.Forall_impl; [exact Husers|]. intros [op i] Hs. simpl in *.
      rewrite Hfn2; [done|]. destruct Hs as (w & Hs).
      apply getOperand_Some in Hs as (nd & Hnd & _).
      by eapply lookup_lt_Some. }
    fold fn1. fold fn2. rewrite Hrun. simpl. exists fn'.
    split; [done|].
    assert (∀ op i, (op, i) ∈ users state → op < n) as Hexisting.
    { intros op i Hin. rewrite list.Forall_forall in Husers.
      destruct (Husers _ Hin) as (w & Hs). simpl in Hs.
      apply getOperand_Some in Hs as (nd & Hnd & _).
      by eapply lookup_lt_Some. }
    assert (∀ m, n ≤ m → body fn' !! m = body fn2 !! m) as Hnew.
    { intros m Hm. apply Helse.
      intros ([op i] & -> & Hin%Hexisting)%list_elem_of_fmap. simpl in *. lia. }
    split_and!.
    + rewrite Hlen. unfold fn2, fn1. simpl. rewrite !length_app. simpl.
      unfold n. lia.
    + rewrite Hnew by lia. unfold fn2, fn1. simpl.
      rewrite lookup_app_l by (rewrite length_app; simpl; unfold n; lia).
      apply lookup_snoc_length.
    + rewrite Hnew by lia. unfold fn2, fn1. simpl.
      rewrite lookup_app_r by (rewrite length_app; simpl; unfold n; lia).
      rewrite length_app. simpl.
      by replace (S n - (length (body fn) + 1)) with 0 by (unfold n; lia).
    + intros op i Hin. rewrite Hget. by rewrite decide_True.
    + intros op i Hout Hop. rewrite Hget, decide_False by done.
      by apply Hfn2.
Qed.

End Materialize.

Section BiasChecks.
Context (E : Collaborators).

Lemma has_width_true w p :
  has_width w p = Some true →
  ∃ q, p = Some q ∧ getStorageTypeIntegralWidth q = w.
Proof.
  unfold has_width. destruct p as [q|]; [simpl|done].
  intros [= Hw%bool_decide_eq_true]. by exists q.
Qed.

(** X16 (ShouldCheckBiasScale): the scale of a bias is checked only for an
    operation with the affine interface whose bias and filter are
    constants, the bias with float content, whose two input indices are
    the filter and one other operand, and whose input, filter and proposed
    bias parameters have storage widths 8, 8 and 32. *)
Theorem bias_check_applies_to_constant_8_bit_operands (op : Operation)
    (bias_index : nat) (input_indices : list nat) (p : QuantParams)
    (d : QuantizationDriver) (input_index filter_index : nat) :
  ShouldCheckBiasScale op bias_index input_indices p d
  = Some (Some (input_index, filter_index)) →
  ∃ node bias bias_op bias_node values filter filter_op
      input_state filter_state qi qf qb,
    body (fn_ d) !! op = Some node
    ∧ affineOperandIndex node = Some filter_index
    ∧ operands node !! bias_index = Some bias
    ∧ getDefiningConstantOp (fn_ d) bias = Some bias_op
    ∧ body (fn_ d) !! bias_op = Some bias_node
    ∧ valueAttr bias_node = Some (DenseFPElementsAttr values)
    ∧ operands node !! filter_index = Some filter
    ∧ getDefiningConstantOp (fn_ d) filter = Some filter_op
    ∧ (input_indices = [filter_index; input_index]
       ∨ input_indices = [input_index; filter_index])
    ∧ GetOperandQuantState op input_index d = Some input_state
    ∧ params input_state = Some qi
    ∧ getStorageTypeIntegralWidth qi = 8%Z
    ∧ GetOperandQuantState op filter_index d = Some filter_state
    ∧ params filter_state = Some qf
    ∧ getStorageTypeIntegralWidth qf = 8%Z
    ∧ p = Some qb
    ∧ getStorageTypeIntegralWidth qb = 32%Z.
Proof.
  unfold ShouldCheckBiasScale. intros H.
  destruct (body (fn_ d) !! op) as [node|] eqn:Hnode; [simpl in H|done].
  destruct (operands node !! bias_index) as [bias|] eqn:Hbias;
    [simpl in H|done].
  destruct (affineOperandIndex node) as [filter_index'|] eqn:Haffine;
    [|done].
  destruct (getDefiningConstantOp (fn_ d) bias) as [bias_op|] eqn:Hbias_op;
    [|done].
  case_bool_decide as Hlen; simpl in H; [|done].
  destruct (body (fn_ d) !! bias_op) as [bias_node|] eqn:Hbias_node;
    [simpl in H|done].
  destruct (valueAttr bias_node) as [[values|]|] eqn:Hattr; try done.
  destruct (operands node !! filter_index') as [filter|] eqn:Hfilter;
    [simpl in H|done].
  destruct (getDefiningConstantOp (fn_ d) filter) as [filter_op|]
    eqn:Hfilter_op; [|done].
  destruct input_indices as [|i0 [|i1 [|? ?]]]; try done. simpl in H.
  assert (∀ i,
    (GetOperandQuantState op i d
     ≫= λ input_state,
          GetOperandQuantState op filter_index' d
          ≫= λ filter_state,
               has_width 8 (params input_state)
               ≫= λ w_in,
                    if negb w_in then Some None
                    else has_width 8 (params filter_state)
                         ≫= λ w_filter,
                              if negb w_filter then Some None
                              else has_width 32 p
                                   ≫= λ w_bias,
                                        if negb w_bias then Some None
                                        else Some (Some (i, filter_index')))
    = Some (Some (input_index, filter_index)) →
    i = input_index ∧ filter_index' = filter_index
    ∧ ∃ input_state filter_state qi qf qb,
        GetOperandQuantState op input_index d = Some input_state
        ∧ params input_state = Some qi
        ∧ getStorageTypeIntegralWidth qi = 8%Z
        ∧ GetOperandQuantState op filter_index d = Some filter_state
        ∧ params filter_state = Some qf
        ∧ getStorageTypeIntegralWidth qf = 8%Z
        ∧ p = Some qb
        ∧ getStorageTypeIntegralWidth qb = 32%Z) as Hwidths.
  { intros i Hw.
    destruct (GetOperandQuantState op i d) as [input_state|] eqn:Hin;
      [simpl in Hw|done].
    destruct (GetOperandQuantState op filter_index' d) as [filter_state|]
      eqn:Hfs; [simpl in Hw|done].
    destruct (has_width 8 (params input_state)) as [[]|] eqn:Hw1;
      try done. simpl in Hw.
    destruct (has_width 8 (params filter_state)) as [[]|] eqn:Hw2;
      try done. simpl in Hw.
    destruct (has_width 32 p) as [[]|] eqn:Hw3; try done. simpl in Hw.
    injection Hw as <- <-.
    apply has_width_true in Hw1 as (qi & ? & ?).
    apply has_width_true in Hw2 as (qf & ? & ?).
    apply has_width_true in Hw3 as (qb & ? & ?).
    split; [done|]. split; [done|].
    by exists input_state, filter_state, qi, qf, qb. }
  case_decide as H0.
  - destruct (Hwidths i1 H)
      as (-> & -> & input_state & filter_state & qi & qf & qb & Hrest).
    subst i0.
    exists node, bias, bias_op, bias_node, values, filter, filter_op,
      input_state, filter_state, qi, qf, qb.
    split_and!; try done; try apply Hrest. by left.
  - case_decide as H1; [|done].
    destruct (Hwidths i0 H)
      as (-> & -> & input_state & filter_state & qi & qf & qb & Hrest).
    subst i1.
    exists node, bias, bias_op, bias_node, values, filter, filter_op,
      input_state, filter_state, qi, qf, qb.
    split_and!; try done; try apply Hrest. by right.
Qed.

(** X17 (SetBiasParamsWithAdjustments, ShouldCheckBiasScale): for an
    operation without the affine interface, for a bias that is not a
    constant, and whenever the number of input indices is not two, the
    bias proposal is an ordinary operand assignment. *)
Theorem bias_proposal_without_check_is_an_assignment (op : Operation)
    (bias_index : nat) (input_indices : list nat) (p : QuantParams)
    (d : QuantizationDriver) (node : OpNode) (bias : Value) :
  body (fn_ d) !! op = Some node →
  operands node !! bias_index = Some bias →
  affineOperandIndex node = None
  ∨ getDefiningConstantOp (fn_ d) bias = None
  ∨ length input_indices ≠ 2 →
  SetBiasParamsWithAdjustments E op bias_index input_indices p d
  = SetOperandParams E op bias_index p false d.
Proof.
  intros Hnode Hbias Hcond.
  assert (ShouldCheckBiasScale op bias_index input_indices p d = Some None)
    as Hcheck.
  { unfold ShouldCheckBiasScale. rewrite Hnode. simpl. rewrite Hbias. simpl.
    destruct (affineOperandIndex node) as [filter_index|];
      destruct (getDefiningConstantOp (fn_ d) bias) as [bias_op|];
      try done; destruct Hcond as [?|[?|Hlen]]; try done.
    by rewrite bool_decide_eq_false_2. }
  unfold SetBiasParamsWithAdjustments. by rewrite Hcheck.
Qed.

(** X18 (DuplicateConstantOpIfNeeded): a constant whose result has
    exactly one use is returned as it is, and the driver is unchanged.
    Otherwise the constant is cloned, the operand of the target reads the
    clone, no other operand changes, and one new state, the one the type of
    the constant gives, is created and shared by that operand and by the
    result of the clone; the states recorded before stay. *)
Theorem duplicated_constant_gets_a_state_of_its_own (op target_op : Operation)
    (operand_index : nat) (d : QuantizationDriver) (node : OpNode)
    (t : Type_) (w : Value) :
  body (fn_ d) !! op = Some node →
  resultTypes node !! 0 = Some t →
  getOperand (fn_ d) target_op operand_index = Some w →
  value_to_state_ d !! OpResult (length (body (fn_ d))) 0 = None →
  (hasOneUse (fn_ d) (OpResult op 0) = true →
   DuplicateConstantOpIfNeeded op target_op operand_index d = Some (op, d))
  ∧ (hasOneUse (fn_ d) (OpResult op 0) = false →
     ∃ d', DuplicateConstantOpIfNeeded op target_op operand_index d
           = Some (length (body (fn_ d)), d')
       ∧ length (body (fn_ d')) = S (length (body (fn_ d)))
       ∧ body (fn_ d') !! length (body (fn_ d)) = Some node
       ∧ getOperand (fn_ d') target_op operand_index
         = Some (OpResult (length (body (fn_ d))) 0)
       ∧ (∀ user k, (user, k) ≠ (target_op, operand_index) →
            user < length (body (fn_ d)) →
            getOperand (fn_ d') user k = getOperand (fn_ d) user k)
       ∧ states_ d' = states_ d ++ [initial_state t]
       ∧ operand_states_ d'
         = <[(target_op, operand_index) := length (states_ d)]>
             (operand_states_ d)
       ∧ result_states_ d'
         = <[(length (body (fn_ d)), 0) := length (states_ d)]>
             (result_states_ d)
       ∧ value_to_state_ d'
         = <[OpResult (length (body (fn_ d))) 0 := length (states_ d)]>
             (value_to_state_ d)
       ∧ rescale_states_ d' = rescale_states_ d).
Proof.
  intros Hnode Ht Hw Hfresh. unfold DuplicateConstantOpIfNeeded.
  split; intros Huse; rewrite Huse; [done|].
  rewrite Hnode. simpl. set (m := length (body (fn_ d))) in *.
  apply getOperand_Some in Hw as (target & Htarget & Hk).
  pose proof (lookup_lt_Some _ _ _ Htarget) as Hlt. fold m in Hlt.
  unfold setOperand. simpl.
  rewrite (lookup_app_l_Some _ _ _ _ Htarget). simpl. rewrite Hk. simpl.
  unfold InitializeOperandState, InitializeResultState,
    InitializeStateForValue. simpl. rewrite Hfresh.
  assert ((<[target_op:=set_operands <[operand_index:=OpResult m 0]> target]>
             (body (fn_ d) ++ [node])) !! m = Some node) as Hnew.
  { rewrite list_lookup_insert_ne by lia. apply lookup_snoc_length. }
  rewrite Hnew. simpl. rewrite Ht. simpl. rewrite lookup_insert_eq.
  eexists. split; [done|]. simpl. split_and!; try done.
  - rewrite length_insert, length_app. simpl. unfold m. lia.
  - unfold getOperand. simpl. rewrite list_lookup_insert_eq
      by (rewrite length_app; simpl; unfold m in *; lia).
    simpl. apply list_lookup_insert_eq. by eapply lookup_lt_Some.
  - intros user k Hslot Huser. unfold getOperand. simpl.
    destruct (decide (user = target_op)) as [->|Hne].
    + rewrite list_lookup_insert_eq
        by (rewrite length_app; simpl; unfold m in *; lia).
      rewrite Htarget. simpl. rewrite list_lookup_insert_ne; [done|].
      congruence.
    + rewrite list_lookup_insert_ne by done. by rewrite lookup_app_l.
Qed.

Lemma adjust_scales_prefix input_scale bias_values bias_scales filter_scales j :
  length bias_scales ≤ length bias_values →
  length bias_scales ≤ length filter_scales →
  j ≤ length bias_scales →
  ∃ bs fs flag,
    for_each
      (λ '(new_bias_scales, new_filter_scales, needs_adjustment) i,
         bias ← bias_values !! i;
         s ← new_bias_scales !! i;
         let abs_bias := PrimFloat.abs bias in
         if PrimFloat.ltb kBiasMax_double (PrimFloat.div abs_bias s) then
           let new_scale := PrimFloat.div abs_bias kBiasMax_double in
           _ ← new_filter_scales !! i;
           Some (<[i := new_scale]> new_bias_scales,
                 <[i := PrimFloat.div new_scale input_scale]> new_filter_scales,
                 true)
         else Some (new_bias_scales, new_filter_scales, needs_adjustment))
      (bias_scales, filter_scales, false) (seq 0 j)
    = Some (bs, fs, flag)
    ∧ length bs = length bias_scales
    ∧ length fs = length filter_scales
    ∧ (∀ i b s f, i < j → bias_values !! i = Some b →
         bias_scales !! i = Some s → filter_scales !! i = Some f →
         if PrimFloat.ltb kBiasMax_double (PrimFloat.div (PrimFloat.abs b) s)
         then bs !! i = Some (PrimFloat.div (PrimFloat.abs b) kBiasMax_double)
              ∧ fs !! i
                = Some (PrimFloat.div
                          (PrimFloat.div (PrimFloat.abs b) kBiasMax_double)
                          input_scale)
         else bs !! i = Some s ∧ fs !! i = Some f)
    ∧ (∀ i, j ≤ i → bs !! i = bias_scales !! i ∧ fs !! i = filter_scales !! i)
    ∧ (flag = true ↔
       ∃ i b s, i < j ∧ bias_values !! i = Some b ∧ bias_scales !! i = Some s
                ∧ PrimFloat.ltb kBiasMax_double
                    (PrimFloat.div (PrimFloat.abs b) s) = true).
Proof.
  intros Hlb Hlf. induction j as [|j IH]; intros Hj.
  - exists bias_scales, filter_scales, false. split_and!; try done.
    + intros; lia.
    + split; [done|]. intros (i & _ & _ & ? & _). lia.
  - destruct IH as (bs & fs & flag & Hrun & Hbs & Hfs & Hdone & Hrest & Hflag);
      [lia|].
    rewrite seq_S, for_each_app, Hrun. simpl.
    destruct (lookup_lt_is_Some_2 bias_values j) as (b & Hb); [lia|].
    destruct (lookup_lt_is_Some_2 bias_scales j) as (s & Hs); [lia|].
    destruct (lookup_lt_is_Some_2 filter_scales j) as (f & Hf); [lia|].
    destruct (Hrest j) as (Hbsj & Hfsj); [lia|].
    rewrite Hb. simpl. rewrite Hbsj, Hs. simpl.
    destruct (PrimFloat.ltb kBiasMax_double (PrimFloat.div (PrimFloat.abs b) s))
      eqn:Hex.
    + rewrite Hfsj, Hf. simpl. eexists _, _, _. split; [done|].
      split_and!.
      * by rewrite length_insert.
      * by rewrite length_insert.
      * intros i b' s' f' Hi Hb' Hs' Hf'.
        destruct (decide (i = j)) as [->|Hne].
        -- rewrite Hb in Hb'. rewrite Hs in Hs'. simplify_eq. rewrite Hex.
           split; apply list_lookup_insert_eq; lia.
        -- rewrite !list_lookup_insert_ne by done.
           apply Hdone; [lia|done..].
      * intros i Hi. rewrite !list_lookup_insert_ne by lia.
        apply Hrest. lia.
      * split; [|done]. intros _. exists j, b, s. split_and!; [lia|done..].
    + exists bs, fs, flag. split; [done|]. split_and!; try done.
      * intros i b' s' f' Hi Hb' Hs' Hf'.
        destruct (decide (i = j)) as [->|Hne].
        -- rewrite Hb in Hb'. rewrite Hs in Hs'. rewrite Hf in Hf'.
           injection Hb' as <-. injection Hs' as <-. injection Hf' as <-.
           rewrite Hex. split; congruence.
        -- apply Hdone; [lia|done..].
      * intros i Hi. apply Hrest. lia.
      * rewrite Hflag. split.
        -- intros (i & b' & s' & Hi & Hrest'). exists i, b', s'.
           split; [lia|done].
        -- intros (i & b' & s' & Hi & Hb' & Hs' & Hex').
           destruct (decide (i = j)) as [->|Hne]; [congruence|].
           exists i, b', s'. split_and!; [lia|done..].
Qed.

(** X19 (SetBiasParamsWithAdjustments, the per-channel loop): each
    channel is adjusted on its own.  A channel whose bias magnitude
    divided by its scale is above the limit gets the bias scale
    [magnitude / limit] and the filter scale [that / input scale]; the
    other channels keep their scales; the loop reports an adjustment
    exactly when some channel is above the limit. *)
Theorem adjust_scales_is_channelwise (input_scale : float)
    (bias_values bias_scales filter_scales : list float) :
  length bias_scales ≤ length bias_values →
  length bias_scales ≤ length filter_scales →
  ∃ bs fs flag,
    adjust_scales input_scale bias_values bias_scales filter_scales
    = Some (bs, fs, flag)
    ∧ length bs = length bias_scales
    ∧ length fs = length filter_scales
    ∧ (∀ i b s f, bias_values !! i = Some b →
         bias_scales !! i = Some s → filter_scales !! i = Some f →
         if PrimFloat.ltb kBiasMax_double (PrimFloat.div (PrimFloat.abs b) s)
         then bs !! i = Some (PrimFloat.div (PrimFloat.abs b) kBiasMax_double)
              ∧ fs !! i
                = Some (PrimFloat.div
                          (PrimFloat.div (PrimFloat.abs b) kBiasMax_double)
                          input_scale)
         else bs !! i = Some s ∧ fs !! i = Some f)
    ∧ (∀ i, length bias_scales ≤ i → fs !! i = filter_scales !! i)
    ∧ (flag = true ↔
       ∃ i b s, bias_values !! i = Some b ∧ bias_scales !! i = Some s
                ∧ PrimFloat.ltb kBiasMax_double
                    (PrimFloat.div (PrimFloat.abs b) s) = true).
Proof.
  intros Hlb Hlf.
  destruct (adjust_scales_prefix input_scale bias_values bias_scales
              filter_scales (length bias_scales) Hlb Hlf)
    as (bs & fs & flag & Hrun & Hbs & Hfs & Hdone & Hrest & Hflag); [done|].
  exists bs, fs, flag. split; [exact Hrun|]. split_and!; try done.
  - intros i b s f Hb Hs Hf. apply Hdone; try done.
    by eapply lookup_lt_Some.
  - intros i Hi. by apply Hrest.
  - rewrite Hflag. split.
    + intros (i & b & s & _ & Hrest'). by exists i, b, s.
    + intros (i & b & s & Hb & Hs & Hex). exists i, b, s.
      split_and!; try done. by eapply lookup_lt_Some.
Qed.

End BiasChecks.

Section Propagation.
Context (E : Collaborators).
Context (bit_width_ : Z) (is_qdq_conversion_ : bool).

Lemma for_each_covers {S A} (R : S → S → Prop) (Q : A → S → Prop)
    (f : S → A → option S) l :
  (∀ s, R s s) →
  (∀ s1 s2 s3, R s1 s2 → R s2 s3 → R s1 s3) →
  (∀ x s s', Q x s → R s s' → Q x s') →
  (∀ s x s', f s x = Some s' → Q x s' ∧ R s s') →
  ∀ s s', for_each f s l = Some s' → (∀ x, x ∈ l → Q x s') ∧ R s s'.
Proof.
  intros Hrefl Htrans Hmono Hf.
  induction l as [|x l IH]; intros s s' Hrun; simpl in Hrun.
  - injection Hrun as <-. split; [by intros x ?%elem_of_nil|done].
  - destruct (f s x) as [s1|] eqn:Hstep; [simpl in Hrun|done].
    destruct (Hf s x s1 Hstep) as (Hq & Hr).
    destruct (IH s1 s' Hrun) as (Hcov & Hr').
    split; [|by eapply Htrans].
    intros y [->|Hy]%elem_of_cons; [by eapply Hmono|by apply Hcov].
Qed.

(** What an assignment of [p] does to the states: the state of the
    position carries [p] afterwards, a state that carried [p] still does,
    and the other states and their pending requantizations are as they
    were. *)
Lemma SetOperandParams_carries op index p d b d' :
  SetOperandParams E op index p false d = Some (b, d') →
  (∃ k, operand_states_ d !! (op, index) = Some k ∧ carries p d' k)
  ∧ (∀ k, carries p d k → carries p d' k)
  ∧ (∀ k, operand_states_ d !! (op, index) ≠ Some k →
          states_ d' !! k = states_ d !! k
          ∧ rescales_at d' k = rescales_at d k)
  ∧ (b = false → d' = d).
Proof.
  intros Hset.
  destruct (SetOperandParams_Some E _ _ _ _ _ _ _ Hset) as (i & state & Hi & Hs).
  destruct (SetOperandParams_cases E op index p false d i state Hi Hs)
    as [(Hp & Heq)|[(Hp & _ & _ & l & Heq & Hl)|(Hp & _ & w & Heq)]];
    rewrite Heq in Hset; simplify_eq; simpl.
  - split_and!; try done. exists i. split; [done|]. exists state.
    split; [done|by left].
  - assert (p ∈ rescale_params <$> l) as Hin.
    { destruct (add_user_to_rescale p (op, index) (rescales_at d i))
        as [l0|] eqn:Ha; subst l.
      - rewrite (add_user_to_rescale_params _ _ _ _ Ha).
        destruct (decide (p ∈ rescale_params <$> rescales_at d i)); [done|].
        rewrite add_user_to_rescale_none in Ha; [done|].
        apply list.Forall_forall. intros r Hr Heq'. destruct n.
        apply list_elem_of_fmap. by exists r.
      - rewrite fmap_app. apply elem_of_app. right. simpl.
        apply list_elem_of_here. }
    split_and!; try done.
    + exists i. split; [done|]. exists state. split; [done|]. right.
      by rewrite rescales_at_insert, decide_True.
    + intros k (st & Hst & Hc). exists st. split; [done|].
      destruct Hc as [?|Hc]; [by left|]. right.
      rewrite rescales_at_insert. case_decide as Hk; [by subst k|done].
    + intros k Hk. split; [done|].
      rewrite rescales_at_insert, decide_False; [done|congruence].
  - split_and!; try done.
    + exists i. split; [done|]. eexists.
      split; [by apply assign_params_lookup|by left].
    + intros k (st & Hst & Hc). destruct (decide (i = k)) as [<-|Hk].
      * eexists. split; [by apply assign_params_lookup|by left].
      * exists st. split; [simpl; by rewrite assign_params_lookup_ne|done].
    + intros k Hk. split; [|done]. rewrite assign_params_lookup_ne; [done|].
      congruence.
Qed.

Lemma SetResultParams_carries op index p d b d' :
  SetResultParams E op index p d = Some (b, d') →
  (∃ k, result_states_ d !! (op, index) = Some k ∧ carries p d' k)
  ∧ (∀ k, carries p d k → carries p d' k)
  ∧ (∀ k, result_states_ d !! (op, index) ≠ Some k →
          states_ d' !! k = states_ d !! k
          ∧ rescales_at d' k = rescales_at d k)
  ∧ (b = false → d' = d).
Proof.
  intros Hset.
  destruct (SetResultParams_Some E _ _ _ _ _ _ Hset) as (i & state & Hi & Hs).
  destruct (SetResultParams_cases E op index p d i state Hi Hs)
    as [(Hp & Heq)|[(Hp & _ & Heq)|(Hp & _ & w & Heq)]];
    rewrite Heq in Hset; simplify_eq; simpl.
  - split_and!; try done. exists i. split; [done|]. exists state.
    split; [done|by left].
  - split_and!; try done.
    + exists i. split; [done|]. exists state. split; [done|]. right.
      rewrite rescales_at_insert, decide_True by done.
      rewrite fmap_app. apply elem_of_app. right. apply list_elem_of_here.
    + intros k (st & Hst & Hc). exists st. split; [done|].
      destruct Hc as [?|Hc]; [by left|]. right.
      rewrite rescales_at_insert. case_decide as Hk; [subst k|done].
      rewrite fmap_app. apply elem_of_app. by left.
    + intros k Hk. split; [done|].
      rewrite rescales_at_insert, decide_False; [done|congruence].
  - split_and!; try done.
    + exists i. split; [done|]. eexists.
      split; [by apply assign_params_lookup|by left].
    + intros k (st & Hst & Hc). destruct (decide (i = k)) as [<-|Hk].
      * eexists. split; [by apply assign_params_lookup|by left].
      * exists st. split; [simpl; by rewrite assign_params_lookup_ne|done].
    + intros k Hk. split; [|done]. rewrite assign_params_lookup_ne; [done|].
      congruence.
Qed.

Lemma broadcast_step_refl op p s : broadcast_step op p s s.
Proof. by split_and!. Qed.

Lemma float_position_state_same d d' op k :
  fn_ d' = fn_ d →
  operand_states_ d' = operand_states_ d →
  result_states_ d' = result_states_ d →
  float_position_state d' op k ↔ float_position_state d op k.
Proof.
  intros Hfn Ho Hr. unfold float_position_state. by rewrite Hfn, Ho, Hr.
Qed.

Lemma broadcast_step_trans op p s1 s2 s3 :
  broadcast_step op p s1 s2 → broadcast_step op p s2 s3 →
  broadcast_step op p s1 s3.
Proof.
  intros (Hfn & Ho & Hr & Hc & He & Hf) (Hfn' & Ho' & Hr' & Hc' & He' & Hf').
  split_and!; try congruence.
  - intros k Hk. by apply Hc', Hc.
  - intros k Hk. destruct (He k Hk) as (<- & <-). apply He'.
    by rewrite (float_position_state_same _ _ _ _ Hfn Ho Hr).
  - intros H3. destruct (Hf' H3) as (H2 & ->). by apply Hf.
Qed.

Lemma broadcast_operand_step op p s i s' :
  broadcast_operand E op p s i = Some s' →
  (∀ v t, getOperand (fn_ s'.2) op i = Some v →
          getType (fn_ s'.2) v = Some t → isFloatShaped t = true →
          ∃ k, operand_states_ s'.2 !! (op, i) = Some k ∧ carries p s'.2 k)
  ∧ broadcast_step op p s s'.
Proof.
  destruct s as [changed d]. unfold broadcast_operand. intros H.
  destruct (getOperand (fn_ d) op i) as [v|] eqn:Hv; [simpl in H|done].
  destruct (getType (fn_ d) v) as [t|] eqn:Ht; [simpl in H|done].
  destruct (isFloatShaped t) eqn:Hfloat.
  - destruct (SetOperandParams E op i p false d) as [[c d1]|] eqn:Hset;
      [simpl in H|done].
    injection H as <-.
    destruct (SetOperandParams_carries _ _ _ _ _ _ Hset)
      as ((k & Hk & Hck) & Hmono & Helse & Hsame).
    destruct (SetOperandParams_shape E _ _ _ _ _ _ _ Hset)
      as (Hfn & _ & _ & _ & Ho & Hr & _).
    simpl. split.
    + intros _ _ _ _ _. exists k. by rewrite Ho.
    + split_and!; simpl; try done.
      * intros k' Hk'. apply Helse. intros Heq. apply Hk'. left.
        by exists i, v, t.
      * intros (-> & ->)%orb_false_iff. by split; [|apply Hsame].
  - injection H as <-. split; [|apply broadcast_step_refl].
    intros v' t' Hv' Ht'. cbn [snd] in Hv', Ht'.
    rewrite Hv in Hv'. injection Hv' as <-.
    rewrite Ht in Ht'. injection Ht' as <-. congruence.
Qed.

Lemma broadcast_result_step op p s res s' :
  broadcast_result E op p s res = Some s' →
  (∀ t, getType (fn_ s'.2) (OpResult op res) = Some t →
        isFloatShaped t = true →
        ∃ k, result_states_ s'.2 !! (op, res) = Some k ∧ carries p s'.2 k)
  ∧ broadcast_step op p s s'.
Proof.
  destruct s as [changed d]. unfold broadcast_result. intros H.
  destruct (getType (fn_ d) (OpResult op res)) as [t|] eqn:Ht;
    [simpl in H|done].
  destruct (isFloatShaped t) eqn:Hfloat.
  - destruct (SetResultParams E op res p d) as [[c d1]|] eqn:Hset;
      [simpl in H|done].
    injection H as <-.
    destruct (SetResultParams_carries _ _ _ _ _ _ Hset)
      as ((k & Hk & Hck) & Hmono & Helse & Hsame).
    destruct (SetResultParams_shape E _ _ _ _ _ _ Hset)
      as (Hfn & _ & _ & _ & Ho & Hr & _).
    simpl. split.
    + intros _ _ _. exists k. by rewrite Hr.
    + split_and!; simpl; try done.
      * intros k' Hk'. apply Helse. intros Heq. apply Hk'. right.
        by exists res, t.
      * intros (-> & ->)%orb_false_iff. by split; [|apply Hsame].
  - injection H as <-. split; [|apply broadcast_step_refl].
    intros t' Ht'. cbn [snd] in Ht'. rewrite Ht in Ht'.
    injection Ht' as <-. congruence.
Qed.

(** X20 (PropagateParamsAndReturnIfChanged, the same-scale step): after
    the chosen parameters have been given to the operands and results of
    an operation, the state of every operand and of every result of float
    tensor type holds them or has a requantization to them pending.  The
    states of no other position are touched, and the flag stays false only
    if the driver is exactly as before. *)
Theorem same_scale_parameters_reach_every_float_position (op : Operation)
    (p : QuantParams) (changed changed' : bool) (d d' : QuantizationDriver)
    (node : OpNode) :
  body (fn_ d) !! op = Some node →
  same_scale_broadcast E op p (changed, d) = Some (changed', d') →
  fn_ d' = fn_ d
  ∧ (∀ i v t, operands node !! i = Some v →
       getType (fn_ d) v = Some t → isFloatShaped t = true →
       ∃ k, operand_states_ d !! (op, i) = Some k ∧ carries p d' k)
  ∧ (∀ res t, resultTypes node !! res = Some t → isFloatShaped t = true →
       ∃ k, result_states_ d !! (op, res) = Some k ∧ carries p d' k)
  ∧ (∀ k, ¬ float_position_state d op k →
          states_ d' !! k = states_ d !! k
          ∧ rescales_at d' k = rescales_at d k)
  ∧ (changed' = false → changed = false ∧ d' = d).
Proof.
  intros Hnode Hrun. unfold same_scale_broadcast in Hrun. simpl in Hrun.
  rewrite Hnode in Hrun. simpl in Hrun.
  destruct (for_each (broadcast_operand E op p) (changed, d)
              (seq 0 (length (operands node)))) as [s1|] eqn:Hops;
    [simpl in Hrun|done].
  destruct (for_each_covers (broadcast_step op p)
              (λ i s, ∀ v t, getOperand (fn_ s.2) op i = Some v →
                 getType (fn_ s.2) v = Some t → isFloatShaped t = true →
                 ∃ k, operand_states_ s.2 !! (op, i) = Some k
                      ∧ carries p s.2 k)
              (broadcast_operand E op p) (seq 0 (length (operands node)))
              (broadcast_step_refl op p) (broadcast_step_trans op p))
    with (s := (changed, d)) (s' := s1) as (Hcov1 & Hstep1); [| |done|].
  { intros i s s' Hq (Hfn & Ho & _ & Hc & _) v t Hv Ht Hfloat.
    rewrite Hfn in Hv, Ht. destruct (Hq v t Hv Ht Hfloat) as (k & Hk & Hck).
    exists k. rewrite Ho. split; [done|by apply Hc]. }
  { intros s i s'. apply broadcast_operand_step. }
  destruct (for_each_covers (broadcast_step op p)
              (λ res s, ∀ t, getType (fn_ s.2) (OpResult op res) = Some t →
                 isFloatShaped t = true →
                 ∃ k, result_states_ s.2 !! (op, res) = Some k
                      ∧ carries p s.2 k)
              (broadcast_result E op p) (seq 0 (length (resultTypes node)))
              (broadcast_step_refl op p) (broadcast_step_trans op p))
    with (s := s1) (s' := (changed', d')) as (Hcov2 & Hstep2); [| |done|].
  { intros i s s' Hq (Hfn & _ & Hr & Hc & _) t Ht Hfloat.
    rewrite Hfn in Ht. destruct (Hq t Ht Hfloat) as (k & Hk & Hck).
    exists k. rewrite Hr. split; [done|by apply Hc]. }
  { intros s i s'. apply broadcast_result_step. }
  pose proof (broadcast_step_trans _ _ _ _ _ Hstep1 Hstep2)
    as (Hfn & Ho & Hr & Hc & He & Hf). simpl in *.
  destruct Hstep1 as (Hfn1 & Ho1 & Hr1 & _).
  destruct Hstep2 as (Hfn2 & Ho2 & Hr2 & Hc2 & _). simpl in *.
  split_and!; try done.
  - intros i v t Hv Ht Hfloat.
    destruct (Hcov1 i) with (v := v) (t := t) as (k & Hk & Hck); try done.
    + apply elem_of_seq. apply lookup_lt_Some in Hv. lia.
    + rewrite Hfn1. unfold getOperand. by rewrite Hnode.
    + by rewrite Hfn1.
    + exists k. rewrite <- Ho1. split; [done|by apply Hc2].
  - intros res t Ht Hfloat.
    destruct (Hcov2 res) with (t := t) as (k & Hk & Hck); try done.
    + apply elem_of_seq. apply lookup_lt_Some in Ht. lia.
    + simpl. rewrite Hfn. simpl. by rewrite Hnode.
    + exists k. by rewrite <- Hr.
Qed.

Ltac unfold_step H :=
  match type of H with
  | (?x ≫= _) = Some _ =>
      let Hx := fresh "Hstep" in
      destruct x as [?|] eqn:Hx; [simpl in H|done]
  | (match ?x with _ => _ end) = Some _ =>
      let Hx := fresh "Hcase" in destruct x eqn:Hx; simpl in H
  end.

(** A relation between drivers that the assignments and the duplication
    of a constant respect is respected by the bias proposal. *)
Lemma SetBiasParamsWithAdjustments_respects
    (R : QuantizationDriver → QuantizationDriver → Prop) :
  (∀ d, R d d) →
  (∀ d1 d2 d3, R d1 d2 → R d2 d3 → R d1 d3) →
  (∀ op index p override d b d',
     SetOperandParams E op index p override d = Some (b, d') → R d d') →
  (∀ op target_op operand_index d new_op d',
     DuplicateConstantOpIfNeeded op target_op operand_index d
     = Some (new_op, d') → R d d') →
  ∀ op bias_index input_indices p d b d',
    SetBiasParamsWithAdjustments E op bias_index input_indices p d
    = Some (b, d') → R d d'.
Proof.
  intros Hrefl Htrans Hset Hdup op bias_index input_indices p d b d' H.
  unfold SetBiasParamsWithAdjustments in H.
  repeat (unfold_step H; try done); simplify_eq; eauto 8.
Qed.

Lemma for_each_rel {S A} (R : S → S → Prop) (f : S → A → option S) l :
  (∀ s, R s s) →
  (∀ s1 s2 s3, R s1 s2 → R s2 s3 → R s1 s3) →
  (∀ s x s', f s x = Some s' → R s s') →
  ∀ s s', for_each f s l = Some s' → R s s'.
Proof.
  intros Hrefl Htrans Hf. induction l as [|x l IH]; intros s s' H;
    simpl in H.
  - by injection H as <-.
  - destruct (f s x) as [s1|] eqn:Hstep; [simpl in H|done].
    eapply Htrans; [by eapply Hf|by apply IH].
Qed.

Section Respects.
Context (R : QuantizationDriver → QuantizationDriver → Prop).
Hypothesis R_refl : ∀ d, R d d.
Hypothesis R_trans : ∀ d1 d2 d3, R d1 d2 → R d2 d3 → R d1 d3.
Hypothesis R_operand : ∀ op index p override d b d',
  SetOperandParams E op index p override d = Some (b, d') → R d d'.
Hypothesis R_result : ∀ op index p d b d',
  SetResultParams E op index p d = Some (b, d') → R d d'.
Hypothesis R_duplicate : ∀ op target_op operand_index d new_op d',
  DuplicateConstantOpIfNeeded op target_op operand_index d
  = Some (new_op, d') → R d d'.
Hypothesis R_work_list : ∀ f d, R d (set_work_list f d).

Lemma propagate_constant_respects op d b d' :
  propagate_constant E op d = Some (b, d') → R d d'.
Proof.
  unfold propagate_constant, SetConstantResultParams. intros H.
  repeat (unfold_step H; try done); simplify_eq; eauto.
Qed.

Lemma same_scale_broadcast_respects op p s s' :
  same_scale_broadcast E op p s = Some s' → R s.2 s'.2.
Proof.
  unfold same_scale_broadcast. intros H.
  destruct (body (fn_ s.2) !! op) as [node|]; [simpl in H|done].
  match type of H with
  | (for_each ?f ?s0 ?l ≫= _) = _ =>
      destruct (for_each f s0 l) as [s1|] eqn:Hops; [simpl in H|done]
  end.
  apply (R_trans _ s1.2).
  - revert Hops. apply (for_each_rel (λ a a', R a.2 a'.2)); eauto.
    intros [c d] i [c' d'] Hstep. unfold broadcast_operand in Hstep.
    simpl. repeat (unfold_step Hstep; try done); simplify_eq; eauto.
  - revert H. apply (for_each_rel (λ a a', R a.2 a'.2)); eauto.
    intros [c d] i [c' d'] Hstep. unfold broadcast_result in Hstep.
    simpl. repeat (unfold_step Hstep; try done); simplify_eq; eauto.
Qed.

Lemma fixed_range_results_respects op scale_spec s s' :
  fixed_range_results E bit_width_ is_qdq_conversion_ op scale_spec s
  = Some s' → R s.2 s'.2.
Proof.
  unfold fixed_range_results. intros H.
  match type of H with
  | (if ?b then _ else _) = _ => destruct b; [|by injection H as <-]
  end.
  destruct (body (fn_ s.2) !! op) as [node|]; [simpl in H|done].
  revert H. apply (for_each_rel (λ a a', R a.2 a'.2)); eauto.
  intros [c d] i [c' d'] Hstep. simpl.
  repeat (unfold_step Hstep; try done); simplify_eq; eauto.
Qed.

Lemma bias_round_respects op st it st' :
  bias_round E op st it = Some st' → R st.1.1 st'.1.1.
Proof.
  destruct st as [[d quantized] changed].
  destruct it as [bias_index [non_biases func]]. unfold bias_round.
  intros H. simpl.
  destruct (GetBiasParams E op bias_index non_biases func d) as [[q|]|];
    [simpl in H| |done].
  - destruct (SetBiasParamsWithAdjustments E op bias_index non_biases
                (Some q) d) as [[c d1]|] eqn:Hset; [simpl in H|done].
    injection H as <-. simpl.
    by eapply (SetBiasParamsWithAdjustments_respects R).
  - by injection H as <-.
Qed.

Lemma propagate_op_respects op st st' :
  propagate_op E bit_width_ is_qdq_conversion_ op st = Some st' →
  R st.1.1 st'.1.1.
Proof.
  destruct st as [[d quantized] changed]. unfold propagate_op. intros H.
  simpl. case_bool_decide; [by injection H as <-|].
  destruct (isa ArithConstantOp (fn_ d) op).
  - destruct (propagate_constant E op d) as [[c d1]|] eqn:Hc;
      [simpl in H|done].
    injection H as <-. simpl. by eapply propagate_constant_respects.
  - destruct (GetQuantScaleSpec E (fn_ d) op) as [scale_spec|];
      [simpl in H|done].
    match type of H with
    | (?x ≫= _) = _ => destruct x as [same_scale|] eqn:Hsame;
        [simpl in H|done]
    end.
    destruct same_scale as [acc|]; [|by injection H as <-].
    assert (R d acc.2) as Hacc.
    { destruct (has_same_scale_requirement scale_spec);
        [|by injection Hsame as <-].
      destruct (GetQuantParamsForSameScaleConstraint op d) as [[q|]|];
        try done. simpl in Hsame.
      destruct (same_scale_broadcast E op (Some q) (changed, d))
        as [acc'|] eqn:Hb; [simpl in Hsame|done].
      injection Hsame as <-.
      by apply (same_scale_broadcast_respects _ _ _ _ Hb). }
    destruct (fixed_range_results E bit_width_ is_qdq_conversion_ op
                scale_spec acc) as [[changed1 d1]|] eqn:Hfixed;
      [simpl in H|done].
    apply fixed_range_results_respects in Hfixed. simpl in Hfixed.
    destruct (GetQuantSpec E (fn_ d1) op) as [spec|]; [simpl in H|done].
    apply (R_trans _ d1); [by eapply R_trans|].
    revert H. apply (for_each_rel (λ a a', R a.1.1 a'.1.1)); eauto.
    intros s it s'. apply bias_round_respects.
Qed.

Lemma propagate_rounds_S n d quantized changed :
  propagate_rounds E bit_width_ is_qdq_conversion_ (S n) (d, quantized, changed)
  = match list.last (work_list_ d) with
    | None => Some (d, quantized, changed)
    | Some op =>
        propagate_op E bit_width_ is_qdq_conversion_ op
          (set_work_list (@removelast _) d, quantized, changed)
        ≫= propagate_rounds E bit_width_ is_qdq_conversion_ n
    end.
Proof. done. Qed.

Lemma propagate_rounds_respects n : ∀ st st',
  propagate_rounds E bit_width_ is_qdq_conversion_ n st = Some st' →
  R st.1.1 st'.1.1.
Proof.
  induction n as [|n IH]; intros [[d quantized] changed] st' H.
  - by injection H as <-.
  - rewrite propagate_rounds_S in H.
    destruct (list.last (work_list_ d)) as [op|]; [|by injection H as <-].
    match type of H with
    | (?x ≫= _) = _ => destruct x as [st1|] eqn:Hop; [|done]
    end.
    change (propagate_rounds E bit_width_ is_qdq_conversion_ n st1 = Some st')
      in H.
    apply propagate_op_respects in Hop. simpl in Hop.
    apply IH in H. simpl. eapply R_trans; [apply R_work_list|].
    by eapply R_trans.
Qed.

End Respects.

Lemma nodes_kept_refl fn : nodes_kept fn fn.
Proof.
  split; [done|]. intros op node Hnode. exists node.
  split; [done|apply rewired_refl].
Qed.

Lemma nodes_kept_trans fn1 fn2 fn3 :
  nodes_kept fn1 fn2 → nodes_kept fn2 fn3 → nodes_kept fn1 fn3.
Proof.
  intros (Ha & Hkeep) (Ha' & Hkeep'). split; [congruence|].
  intros op node Hnode.
  destruct (Hkeep op node Hnode) as (node2 & Hnode2 & Hre).
  destruct (Hkeep' op node2 Hnode2) as (node3 & Hnode3 & Hre').
  exists node3. split; [done|by eapply rewired_trans].
Qed.

Lemma nodes_kept_create node fn : nodes_kept fn (create node fn).2.
Proof.
  split; [done|]. intros op node0 Hnode0. exists node0. simpl.
  split; [by apply lookup_app_l_Some|apply rewired_refl].
Qed.

Lemma nodes_kept_setOperand op i v fn fn' :
  setOperand op i v fn = Some fn' → nodes_kept fn fn'.
Proof.
  intros (node & Hnode & _ & Hbody & Hargs)%setOperand_body.
  split; [done|]. intros op' node' Hnode'. rewrite Hbody.
  destruct (decide (op' = op)) as [->|Hne].
  - rewrite list_lookup_insert_eq by by eapply lookup_lt_Some.
    rewrite Hnode in Hnode'. injection Hnode' as <-.
    eexists. split; [done|]. repeat split; simpl. by rewrite length_insert.
  - rewrite list_lookup_insert_ne by done. exists node'.
    split; [done|apply rewired_refl].
Qed.

Lemma store_extended_refl d : store_extended d d.
Proof.
  split_and!; try done.
  - apply nodes_kept_refl.
  - intros k s Hs. by exists s.
Qed.

Lemma store_extended_trans d1 d2 d3 :
  store_extended d1 d2 → store_extended d2 d3 → store_extended d1 d3.
Proof.
  intros (Hn & Hs & Hr & Hv & Hp & Ha & ? & ? & ?)
         (Hn' & Hs' & Hr' & Hv' & Hp' & Ha' & ? & ? & ?).
  split_and!; try congruence.
  - by eapply nodes_kept_trans.
  - intros k s Hk. destruct (Hs k s Hk) as (s2 & Hk2 & Hi).
    destruct (Hs' k s2 Hk2) as (s3 & Hk3 & Hi'). exists s3.
    split; [done|congruence].
  - intros j. etrans; [apply Hr|apply Hr'].
  - etrans; [exact Hv|exact Hv'].
  - intros q Hq. by apply Hp', Hp.
Qed.

Lemma store_extended_same_shape d d' :
  fn_ d' = fn_ d →
  length (states_ d') = length (states_ d) →
  (∀ k, immutable <$> states_ d' !! k = immutable <$> states_ d !! k) →
  value_to_state_ d' = value_to_state_ d →
  operand_states_ d' = operand_states_ d →
  result_states_ d' = result_states_ d →
  arg_states_ d' = arg_states_ d →
  weights_ d' = weights_ d →
  optimized_weights_ d' = optimized_weights_ d →
  args_ d' = args_ d →
  (∀ j, (rescale_params <$> rescales_at d j)
        `prefix_of` (rescale_params <$> rescales_at d' j)) →
  store_extended d d'.
Proof.
  intros Hfn Hlen Himm Hv Ho Hr Ha Hw Hopt Hargs Hpre.
  split_and!; try done.
  - rewrite Hfn. apply nodes_kept_refl.
  - intros k s Hk. specialize (Himm k). rewrite Hk in Himm. simpl in Himm.
    destruct (states_ d' !! k) as [s'|]; [|done].
    injection Himm as Himm. by exists s'.
  - by rewrite Hv.
  - intros [] Hq; simpl in *; by rewrite ?Ho, ?Hr, ?Ha.
  - intros arg. by rewrite Ha.
Qed.

Lemma initialize_extends d p v d' :
  (∀ arg, p ≠ ArgPos arg) →
  initialize d (p, v) = Some d' → store_extended d d'.
Proof.
  intros Hp Hinit.
  destruct (initialize_effect d p v d' Hinit)
    as (Hfn & Hr & _ & Ha & Hw & Hopt & Hother & Hcase).
  pose proof (initialize_keeps_states d (p, v) d' Hinit) as Hkeep.
  split_and!; try done.
  - rewrite Hfn. apply nodes_kept_refl.
  - intros k s Hk. exists s. split; [by apply Hkeep|done].
  - intros j. unfold rescales_at. by rewrite Hr.
  - destruct (value_to_state_ d !! v) as [cached|] eqn:Hv.
    + by destruct Hcase as (_ & -> & _).
    + destruct Hcase as (t & _ & _ & -> & _). by apply insert_subseteq.
  - intros q Hq. destruct (decide (q = p)) as [->|Hne].
    + destruct (value_to_state_ d !! v); [by destruct Hcase as (_ & _ & ->)|].
      by destruct Hcase as (t & _ & _ & _ & ->).
    + by rewrite Hother.
  - intros arg. apply (Hother (ArgPos arg)). intros Heq. by eapply Hp.
Qed.

Lemma DuplicateConstantOpIfNeeded_extends op target_op operand_index
    d new_op d' :
  DuplicateConstantOpIfNeeded op target_op operand_index d
  = Some (new_op, d') →
  store_extended d d'.
Proof.
  unfold DuplicateConstantOpIfNeeded. intros Hdup.
  destruct (hasOneUse (fn_ d) (OpResult op 0));
    [injection Hdup as _ <-; apply store_extended_refl|].
  destruct (body (fn_ d) !! op) as [node|]; [|done]. simpl in Hdup.
  destruct (setOperand _ _ _ _) as [fn|] eqn:Hset; [|done]. simpl in Hdup.
  destruct (InitializeOperandState _ _ _ _) as [d1|] eqn:Hd1; [|done].
  simpl in Hdup.
  destruct (InitializeResultState _ _ _ _) as [d2|] eqn:Hd2; [|done].
  simpl in Hdup. injection Hdup as _ <-.
  apply (initialize_extends _ (OperandPos _ _) _) in Hd1; [|done].
  apply (initialize_extends _ (ResultPos _ _) _) in Hd2; [|done].
  eapply store_extended_trans; [|exact Hd2].
  eapply store_extended_trans; [|exact Hd1].
  split_and!; try done; simpl.
  - eapply nodes_kept_trans; [apply (nodes_kept_create node)|].
    by eapply nodes_kept_setOperand.
  - intros k s Hs. by exists s.
Qed.

(** X21 (PropagateParamsAndReturnIfChanged): whatever the number of
    rounds, the loop keeps what the driver has recorded: every node of the
    function, with at most other operands; every state, with its immutable
    flag; the parameters asked for by the requantizations already pending,
    in their order; the entries of the cache; the positions that have a
    state; the states of the arguments, the weights and the arguments. *)
Theorem propagation_keeps_what_is_recorded (n : nat) (st st' : LoopState) :
  propagate_rounds E bit_width_ is_qdq_conversion_ n st = Some st' →
  store_extended st.1.1 st'.1.1.
Proof.
  apply (propagate_rounds_respects store_extended).
  - apply store_extended_refl.
  - apply store_extended_trans.
  - intros op index p override d b d' Hset.
    destruct (SetOperandParams_shape E _ _ _ _ _ _ _ Hset)
      as (? & ? & ? & ? & ? & ? & ? & ? & ? & ? & ?).
    by apply store_extended_same_shape.
  - intros op index p d b d' Hset.
    destruct (SetResultParams_shape E _ _ _ _ _ _ Hset)
      as (? & ? & ? & ? & ? & ? & ? & ? & ? & ? & ?).
    by apply store_extended_same_shape.
  - apply DuplicateConstantOpIfNeeded_extends.
  - intros f d. by apply store_extended_same_shape.
Qed.

(** X22 (PropagateParamsAndReturnIfChanged): if no state has two
    requantizations queued for operands that ask for the same parameters
    when the loop starts, none has after any number of rounds. *)
Theorem propagation_keeps_operand_requantizations_distinct (n : nat)
    (st st' : LoopState) :
  propagate_rounds E bit_width_ is_qdq_conversion_ n st = Some st' →
  (∀ j, distinct_targets (rescales_at st.1.1 j)) →
  ∀ j, distinct_targets (rescales_at st'.1.1 j).
Proof.
  apply (propagate_rounds_respects
           (λ d d', (∀ j, distinct_targets (rescales_at d j)) →
                    ∀ j, distinct_targets (rescales_at d' j))).
  - done.
  - intros d1 d2 d3 H12 H23 H1. by apply H23, H12.
  - intros op index p override d b d'. apply SetOperandParams_distinct.
  - intros op index p d b d'. apply SetResultParams_distinct.
  - intros op target_op operand_index d new_op d'.
    apply DuplicateConstantOpIfNeeded_distinct.
  - done.
Qed.

Lemma same_scale_by_rules_null operand_sts result_sts :
  Forall (λ s, immutable s = false ∧ IsEmpty s = true)
         (operand_sts ++ result_sts) →
  same_scale_by_rules operand_sts result_sts = None.
Proof.
  intros Hall. rewrite list.Forall_forall in Hall.
  destruct (same_scale_by_rules_choice operand_sts result_sts)
    as [(s & Hin & Hi & _)|[(_ & s & Hin & Hm & _)|(_ & _ & ->)]]; [| |done].
  - destruct (Hall s Hin). congruence.
  - destruct (Hall s Hin) as (Hi & He). unfold mutable_nonempty in Hm.
    by rewrite Hi, He in Hm.
Qed.

(** X23 (PropagateParamsAndReturnIfChanged): an operation with the
    same-scale requirement none of whose operand and result states is
    immutable or holds parameters is left for later: the round changes
    neither the driver nor the flag, and the operation is not kept among
    the quantized ones. *)
Theorem unresolved_same_scale_operation_is_deferred (op : Operation)
    (d : QuantizationDriver) (quantized : gset nat) (changed : bool)
    (node : OpNode) (operand_sts result_sts : list QuantState) :
  op ∉ quantized →
  body (fn_ d) !! op = Some node →
  name node ≠ ArithConstantOp →
  has_same_scale_requirement (op_quant_scale_spec_getter_ E (name node))
  = true →
  operand_quant_states op (length (operands node)) d = Some operand_sts →
  result_quant_states op (length (resultTypes node)) d = Some result_sts →
  Forall (λ s, immutable s = false ∧ IsEmpty s = true)
         (operand_sts ++ result_sts) →
  propagate_op E bit_width_ is_qdq_conversion_ op (d, quantized, changed)
  = Some (d, quantized, changed).
Proof.
  intros Hop Hnode Hname Hsame Hops Hres Hall. unfold propagate_op.
  rewrite bool_decide_eq_false_2 by done.
  assert (isa ArithConstantOp (fn_ d) op = false) as ->.
  { unfold isa. rewrite Hnode. simpl. apply bool_decide_eq_false_2.
    congruence. }
  unfold GetQuantScaleSpec. rewrite Hnode. simpl. rewrite Hsame.
  rewrite (GetQuantParamsForSameScaleConstraint_rules op d node operand_sts
             result_sts Hnode Hops Hres).
  rewrite (same_scale_by_rules_null _ _ Hall). simpl.
  do 3 f_equal. apply set_eq. intros x.
  rewrite elem_of_difference, elem_of_union, elem_of_singleton. split.
  - by intros [[->|?] ?].
  - intros Hx. split; [by right|]. by intros ->.
Qed.

(** X24 (PropagateParamsAndReturnIfChanged, SetConstantResultParams): a
    round on a constant marks it quantized and changes the driver only
    when range inference is requested, the constant was classified as a
    weight and not all of its results hold parameters.  The change is then
    an assignment to its first result of the parameters that the weight
    functions compute from its content: per axis, symmetric, on 8 bits and
    with a narrow range, along the dimension recorded for the constant,
    when one is recorded, the driver is signed and per-channel
    quantization is not disabled; per tensor on 8 bits otherwise,
    symmetric if the constant has a recorded dimension and the driver is
    signed, with a narrow range if it has a recorded dimension. *)
Theorem constants_get_parameters_only_as_unquantized_weights
    (op : Operation) (d d' : QuantizationDriver) (quantized quantized' : gset nat)
    (changed changed' : bool) :
  op ∉ quantized →
  isa ArithConstantOp (fn_ d) op = true →
  propagate_op E bit_width_ is_qdq_conversion_ op (d, quantized, changed)
  = Some (d', quantized', changed') →
  quantized' = {[op]} ∪ quantized
  ∧ ((d' = d ∧ changed' = changed)
     ∨ (infer_tensor_range_ E = true
        ∧ op ∈ weights_ d
        ∧ IsQuantized op d = Some false
        ∧ ∃ content q c,
            matchConstant (fn_ d) (OpResult op 0) = Some content
            ∧ ((∃ dim, optimized_weights_ d !! op = Some dim
                  ∧ dim ≠ (-1)%Z
                  ∧ is_signed_ E = true
                  ∧ disable_per_channel_ E = false
                  ∧ GetUniformQuantizedPerAxisTypeForWeight E content dim
                      true 8%Z true true (legacy_float_scale_ E)
                    = Some q)
               ∨ ((optimized_weights_ d !! op = None
                   ∨ optimized_weights_ d !! op = Some (-1)%Z
                   ∨ is_signed_ E = false
                   ∨ disable_per_channel_ E = true)
                  ∧ GetUniformQuantizedTypeForWeight E content
                      (bool_decide (is_Some (optimized_weights_ d !! op))
                       && is_signed_ E)
                      8%Z (is_signed_ E)
                      (bool_decide (is_Some (optimized_weights_ d !! op)))
                      (legacy_float_scale_ E)
                    = Some q))
            ∧ SetResultParams E op 0 (Some q) d = Some (c, d')
            ∧ changed' = changed || c)).
Proof.
  intros Hop Hisa Hrun. unfold propagate_op in Hrun.
  rewrite bool_decide_eq_false_2 in Hrun by done. rewrite Hisa in Hrun.
  destruct (propagate_constant E op d) as [[c d1]|] eqn:Hc;
    [simpl in Hrun|done].
  injection Hrun as <- <- <-. split; [done|].
  unfold propagate_constant in Hc.
  destruct (infer_tensor_range_ E) eqn:Hinfer; simpl in Hc;
    [|injection Hc as <- <-; left; by rewrite orb_false_r].
  destruct (IsWeight op d) eqn:Hweight; simpl in Hc;
    [|injection Hc as <- <-; left; by rewrite orb_false_r].
  destruct (IsQuantized op d) as [[]|] eqn:Hq; simpl in Hc;
    [injection Hc as <- <-; left; by rewrite orb_false_r| |done].
  unfold SetConstantResultParams in Hc.
  destruct (matchConstant (fn_ d) (OpResult op 0)) as [content|] eqn:Hm;
    [|injection Hc as <- <-; left; by rewrite orb_false_r].
  match type of Hc with
  | match ?x with _ => _ end = _ => destruct x as [q|] eqn:Hfinal;
      [|injection Hc as <- <-; left; by rewrite orb_false_r]
  end.
  right. split_and!; try done.
  - unfold IsWeight in Hweight. by apply bool_decide_eq_true in Hweight.
  - exists content, q, c. split_and!; try done.
    destruct (optimized_weights_ d !! op) as [dim|] eqn:Hdim; simpl in Hfinal.
    + rewrite (bool_decide_eq_true_2 (is_Some (Some dim))) by by eexists.
      destruct (decide (dim = (-1)%Z)) as [->|Hdim'].
      { rewrite bool_decide_eq_true_2 in Hfinal by done. simpl in Hfinal.
        right. split; [by right; left|exact Hfinal]. }
      rewrite bool_decide_eq_false_2 in Hfinal by congruence.
      simpl in Hfinal.
      destruct (is_signed_ E) eqn:Hsigned; simpl in Hfinal;
        [|right; split; [by right; right; left|exact Hfinal]].
      destruct (disable_per_channel_ E) eqn:Hdisable; simpl in Hfinal;
        [right; split; [by right; right; right|exact Hfinal]|].
      left. by exists dim.
    + rewrite (bool_decide_eq_false_2 (is_Some None)) by by intros [? ?].
      right. split; [by left|exact Hfinal].
Qed.

End Propagation.





(** ** The lists the materializer is given *)

Section MaterializerInputs.
Context (E : Collaborators).
Context (IsOpQuantizable : FuncOp → Operation → bool).
Context (bit_width_ : Z) (is_qdq_conversion_ : bool).

Lemma nodes_kept_getType fn fn' v t :
  nodes_kept fn fn' → getType fn v = Some t → getType fn' v = Some t.
Proof.
  intros (Hargs & Hkeep) Ht. destruct v as [op i|a]; simpl in *.
  - destruct (body fn !! op) as [node|] eqn:Hnode; [simpl in Ht|done].
    destruct (Hkeep op node Hnode) as (node' & -> & _ & Hr & _). simpl.
    by rewrite Hr.
  - by rewrite Hargs.
Qed.

Lemma add_user_to_rescale_pos p user l l' :
  add_user_to_rescale p user l = Some l' → pos <$> l' = pos <$> l.
Proof.
  revert l'. induction l as [|r l IH]; intros l' H; simpl in H; [done|].
  destruct (decide (rescale_params r = p)).
  - by injection H as <-.
  - destruct (add_user_to_rescale p user l) as [l0|]; [|done].
    simpl in H. injection H as <-. simpl. f_equal. by apply IH.
Qed.

Lemma queued_for_operands_pos l :
  queued_for_operands l ↔ Forall (λ q, q = ON_OUTPUT) (pos <$> l).
Proof. unfold queued_for_operands. by rewrite Forall_fmap. Qed.

(** A step that keeps the function, the cache and the index maps keeps
    the arguments apart if it queues nothing but requantizations for
    operands on the states that are not those of results. *)
Lemma args_apart_same_shape d d' :
  fn_ d' = fn_ d →
  length (states_ d') = length (states_ d) →
  value_to_state_ d' = value_to_state_ d →
  result_states_ d' = result_states_ d →
  arg_states_ d' = arg_states_ d →
  (∀ i, (∀ op r, result_states_ d !! (op, r) ≠ Some i) →
        queued_for_operands (rescales_at d i) →
        queued_for_operands (rescales_at d' i)) →
  args_apart d → args_apart d'.
Proof.
  intros Hfn Hlen Hv Hr Ha Hq (Hcache & Hargs). split.
  - intros v i. rewrite Hv, Hlen, Hfn. apply Hcache.
  - intros arg i. rewrite Ha, Hlen, Hr. intros Hi.
    destruct (Hargs arg i Hi) as (Hlt & Hres & Hqueued).
    split_and!; [done|done|by apply Hq].
Qed.

Lemma SetOperandParams_apart op index p override d b d' :
  SetOperandParams E op index p override d = Some (b, d') →
  args_apart d → args_apart d'.
Proof.
  intros Hset.
  destruct (SetOperandParams_shape E _ _ _ _ _ _ _ Hset)
    as (Hfn & Hlen & _ & Hv & _ & Hr & Ha & _).
  apply args_apart_same_shape; try done. intros i _ Hq.
  destruct (SetOperandParams_Some E _ _ _ _ _ _ _ Hset) as (k & state & Hk & Hs).
  destruct (SetOperandParams_cases E op index p override d k state Hk Hs)
    as [(_ & Heq)|[(_ & _ & _ & l & Heq & Hl)|(_ & _ & w & Heq)]];
    rewrite Heq in Hset; simplify_eq; try done.
  rewrite rescales_at_insert. case_decide; [subst i|done].
  destruct (add_user_to_rescale p (op, index) (rescales_at d k)) as [l0|] eqn:Hadd;
    subst l.
  - apply queued_for_operands_pos.
    rewrite (add_user_to_rescale_pos _ _ _ _ Hadd).
    by apply queued_for_operands_pos.
  - apply Forall_app. split; [done|]. by constructor.
Qed.

Lemma SetResultParams_apart op index p d b d' :
  SetResultParams E op index p d = Some (b, d') →
  args_apart d → args_apart d'.
Proof.
  intros Hset.
  destruct (SetResultParams_shape E _ _ _ _ _ _ Hset)
    as (Hfn & Hlen & _ & Hv & _ & Hr & Ha & _).
  apply args_apart_same_shape; try done. intros i Hres Hq.
  destruct (SetResultParams_Some E _ _ _ _ _ _ Hset) as (k & state & Hk & Hs).
  destruct (SetResultParams_cases E op index p d k state Hk Hs)
    as [(_ & Heq)|[(_ & _ & Heq)|(_ & _ & w & Heq)]];
    rewrite Heq in Hset; simplify_eq; try done.
  rewrite rescales_at_insert. case_decide; [subst i|done].
  by destruct (Hres op index).
Qed.

Lemma DuplicateConstantOpIfNeeded_apart op target_op operand_index
    d new_op d' :
  DuplicateConstantOpIfNeeded op target_op operand_index d
  = Some (new_op, d') →
  args_apart d → args_apart d'.
Proof.
  unfold DuplicateConstantOpIfNeeded. intros Hdup (Hcache & Hargs).
  destruct (hasOneUse (fn_ d) (OpResult op 0)); [by simplify_eq|].
  destruct (body (fn_ d) !! op) as [node|] eqn:Hnode; [|done]. simpl in Hdup.
  destruct (setOperand _ _ _ _) as [fn|] eqn:Hset; [|done]. simpl in Hdup.
  destruct (InitializeOperandState _ _ _ _) as [d1|] eqn:Hd1; [|done].
  simpl in Hdup.
  destruct (InitializeResultState _ _ _ _) as [d2|] eqn:Hd2; [|done].
  simpl in Hdup. injection Hdup as <- <-.
  set (new_op := length (body (fn_ d))) in *.
  assert (nodes_kept (fn_ d) fn) as Hkept.
  { eapply nodes_kept_trans; [apply (nodes_kept_create node)|].
    by eapply nodes_kept_setOperand. }
  assert (value_to_state_ d !! OpResult new_op 0 = None) as Hfresh.
  { destruct (value_to_state_ d !! OpResult new_op 0) as [i|] eqn:Hv; [|done].
    destruct (Hcache _ i Hv) as (_ & t & Ht). simpl in Ht.
    by rewrite lookup_ge_None_2 in Ht. }
  destruct (initialize_effect _ (OperandPos target_op operand_index) _ d1 Hd1)
    as (Hfn1 & Hr1 & _ & _ & _ & _ & Hother1 & Hcase1).
  simpl in Hcase1, Hfn1. rewrite Hfresh in Hcase1.
  destruct Hcase1 as (t & Ht & Hs1 & Hv1 & Hp1).
  destruct (initialize_effect _ (ResultPos new_op 0) _ d2 Hd2)
    as (Hfn2 & Hr2 & _ & _ & _ & _ & Hother2 & Hcase2).
  rewrite Hv1, lookup_insert_eq in Hcase2.
  destruct Hcase2 as (Hs2 & Hv2 & Hp2).
  split.
  - intros w i. rewrite Hv2, Hs2, Hs1, Hfn2, Hfn1, length_app. simpl.
    destruct (decide (OpResult new_op 0 = w)) as [<-|Hne].
    + rewrite lookup_insert_eq. intros [= <-]. split; [lia|by exists t].
    + rewrite lookup_insert_ne by done. intros Hw.
      destruct (Hcache w i Hw) as (Hlt & t' & Ht'). split; [lia|].
      exists t'. by eapply nodes_kept_getType.
  - intros arg i Hi.
    assert (arg_states_ d !! arg = Some i) as Hi0.
    { rewrite <- Hi. symmetry.
      etrans; [by apply (Hother2 (ArgPos arg))|].
      by apply (Hother1 (ArgPos arg)). }
    destruct (Hargs arg i Hi0) as (Hlt & Hres & Hq).
    split_and!.
    + rewrite Hs2, Hs1, length_app. simpl. lia.
    + intros op' r Hop'.
      destruct (decide (ResultPos op' r = ResultPos new_op 0)) as [[= -> ->]|Hne].
      * simpl in Hp2. rewrite Hp2 in Hop'. injection Hop' as <-. lia.
      * apply (Hres op' r). rewrite <- Hop'. symmetry.
        etrans; [by apply (Hother2 (ResultPos op' r))|].
        by apply (Hother1 (ResultPos op' r)).
    + unfold rescales_at. by rewrite Hr2, Hr1.
Qed.

Lemma propagation_keeps_args_apart n st st' :
  propagate_rounds E bit_width_ is_qdq_conversion_ n st = Some st' →
  args_apart st.1.1 → args_apart st'.1.1.
Proof.
  apply (propagate_rounds_respects E bit_width_ is_qdq_conversion_
           (λ d d', args_apart d → args_apart d')).
  - done.
  - intros d1 d2 d3 H12 H23 H1. by apply H23, H12.
  - apply SetOperandParams_apart.
  - apply SetResultParams_apart.
  - apply DuplicateConstantOpIfNeeded_apart.
  - done.
Qed.

Lemma quantized_value_cases fn value :
  quantized_value fn value = value
  ∨ ∃ user k, getUses fn value = [(user, k)]
              ∧ isa QuantizeCastOp fn user = true
              ∧ quantized_value fn value = OpResult user 0.
Proof.
  unfold quantized_value.
  destruct (getUses fn value) as [|[user k] [|? ?]]; try by left.
  destruct (isa QuantizeCastOp fn user) eqn:Hisa; [right|by left].
  by exists user, k.
Qed.

Lemma getUses_single fn value user k :
  getUses fn value = [(user, k)] → getOperand fn user k = Some value.
Proof.
  intros Huses.
  assert ((user, k) ∈ getUses fn value) as Hin
    by (rewrite Huses; apply list_elem_of_here).
  unfold getUses in Hin. by apply list_elem_of_filter in Hin as [? _].
Qed.

Lemma unary_cast_operand fn user k v :
  casts_are_unary fn →
  isa QuantizeCastOp fn user = true →
  getOperand fn user k = Some v → k = 0.
Proof.
  intros Hunary Hisa Hv. unfold isa in Hisa.
  apply bool_decide_eq_true in Hisa. unfold getOperand in Hv.
  destruct (body fn !! user) as [node|] eqn:Hnode; [simpl in *|done].
  injection Hisa as Hname. unfold casts_are_unary in Hunary.
  rewrite list.Forall_forall in Hunary.
  pose proof (Hunary node (list_elem_of_lookup_2 _ _ _ Hnode) Hname) as Hlen.
  apply lookup_lt_Some in Hv. lia.
Qed.

(** After the setup no result shares the state of an argument. *)
Lemma setup_args_apart order d d' :
  store_is_empty d →
  rescale_states_ d = ∅ →
  casts_are_unary (fn_ d) →
  Forall (λ op, isa QuantizeCastOp (fn_ d) op = true →
                worklisted E IsOpQuantizable (fn_ d) op = false) order →
  SetupAllStates E IsOpQuantizable order d = Some d' →
  args_apart d'.
Proof.
  intros Hempty Hnone Hunary Hcasts Hrun.
  destruct (SetupAllStates_spec E IsOpQuantizable order d d' Hempty Hrun)
    as ((Hfn & (_ & Htype & Hinj & Hpos0) & Hpos) & _ & _ & Hr & _ & _ & Hcov).
  split.
  - intros v i Hv. destruct (Htype v i Hv) as (t & Ht & Hs).
    split; [by eapply lookup_lt_Some|by exists t].
  - intros arg i Hi.
    destruct (Hpos (ArgPos arg) i Hi) as (v & Hv & Hcv).
    destruct (Htype v i Hcv) as (t & _ & Hs).
    split_and!; [by eapply lookup_lt_Some| |].
    + intros op r Hres.
      destruct (Hpos (ResultPos op r) i Hres) as (w & Hw & Hcw).
      pose proof (Hinj _ _ _ Hcv Hcw) as Heq. simpl in Hv, Hw.
      injection Hv as <-. injection Hw as <-.
      destruct (quantized_value_cases (fn_ d) (BlockArgument arg))
        as [Ha|(user & k & Huses & Hisa & Ha)]; rewrite Ha in Heq;
        destruct (quantized_value_cases (fn_ d) (OpResult op r))
          as [Hb|(user' & k' & Huses' & Hisa' & Hb)]; rewrite Hb in Heq;
        try done.
      * injection Heq as <- <-.
        assert (ResultPos user 0
                ∈ setup_positions E IsOpQuantizable (fn_ d) order) as Hin
          by (apply Hcov; by exists i).
        unfold setup_positions in Hin.
        apply elem_of_app in Hin as [Hin|Hin].
        { by apply list_elem_of_fmap in Hin as (? & ? & _). }
        apply list_elem_of_bind in Hin as (op0 & Hin & Hop0).
        apply list_elem_of_filter in Hop0 as (Hlisted & Horder).
        apply elem_of_op_positions in Hin
          as [(? & ? & _)|(? & [= <- <-] & _)]; [done|].
        rewrite list.Forall_forall in Hcasts.
        rewrite (Hcasts user Horder Hisa) in Hlisted. done.
      * injection Heq as <-.
        apply getUses_single in Huses, Huses'.
        pose proof (unary_cast_operand _ _ _ _ Hunary Hisa Huses) as ->.
        pose proof (unary_cast_operand _ _ _ _ Hunary Hisa Huses') as ->.
        congruence.
    + unfold queued_for_operands, rescales_at. rewrite Hr, Hnone.
      rewrite lookup_empty. constructor.
Qed.

(** C9.  The materializer rewrites for the pending requantizations of a
    value only when they all share one position.  For the result of an
    operation [RequantizeOpResult] makes the test, and leaves the function
    as it is when two entries disagree.  [RequantizeArg] makes no test: it
    is given the list of the state of an argument, and in every driver
    that the setup on an empty store and any number of rounds of the
    propagation produce, that list holds requantizations queued for
    operands only, hence of one position.  The entries after the producer
    are queued by [SetResultParams] on the state of a result, and no
    result shares the state of an argument, as long as a quantize cast has
    one operand and is not put on the work list. *)
Theorem materializer_acts_on_one_position (order : list Operation) (n : nat)
    (d d1 : QuantizationDriver) (quantized : gset nat) (changed : bool)
    (st : LoopState) :
  store_is_empty d →
  rescale_states_ d = ∅ →
  casts_are_unary (fn_ d) →
  Forall (λ op, isa QuantizeCastOp (fn_ d) op = true →
                worklisted E IsOpQuantizable (fn_ d) op = false) order →
  SetupAllStates E IsOpQuantizable order d = Some d1 →
  propagate_rounds E bit_width_ is_qdq_conversion_ n (d1, quantized, changed)
  = Some st →
  (∀ op index states fn,
     ¬ one_position states →
     RequantizeOpResult op index states fn = Some fn)
  ∧ (∀ arg states,
       GetArgRequantizeStates arg st.1.1 = Some states →
       queued_for_operands states ∧ one_position states).
Proof.
  intros Hempty Hnone Hunary Hcasts Hsetup Hrun. split.
  - intros op index states fn Hmixed. unfold RequantizeOpResult.
    destruct states as [|front rest]; [done|].
    case_decide; [done|].
    destruct (forallb _ (front :: rest)) eqn:Hall; [|done].
    destruct Hmixed. rewrite forallb_forall in Hall.
    unfold one_position. rewrite list.Forall_forall. intros s1 Hs1.
    rewrite list.Forall_forall. intros s2 Hs2.
    apply list_elem_of_In, Hall, bool_decide_eq_true in Hs1.
    apply list_elem_of_In, Hall, bool_decide_eq_true in Hs2. congruence.
  - intros arg states Hstates.
    pose proof (setup_args_apart _ _ _ Hempty Hnone Hunary Hcasts Hsetup)
      as Hapart.
    apply (propagation_keeps_args_apart _ _ _ Hrun) in Hapart.
    destruct Hapart as (_ & Hargs). unfold GetArgRequantizeStates in Hstates.
    destruct (arg_states_ st.1.1 !! arg) as [i|] eqn:Hi; [|done].
    injection Hstates as <-. destruct (Hargs arg i Hi) as (_ & _ & Hq).
    split; [done|]. unfold one_position, queued_for_operands in *.
    rewrite list.Forall_forall in Hq. rewrite list.Forall_forall.
    intros s1 Hs1. rewrite list.Forall_forall. intros s2 Hs2.
    by rewrite (Hq s1 Hs1), (Hq s2 Hs2).
Qed.

End MaterializerInputs.

(** * The properties on the example functions *)

Ltac by_computation :=
  solve [ vm_compute; reflexivity
        | apply (bool_decide_unpack _); vm_compute; exact I ].

(** The conjuncts one after the other, so that an equation that fixes a
    result is computed before the facts about that result. *)
Ltac each_by_computation :=
  match goal with
  | |- _ ∧ _ => split; [each_by_computation|each_by_computation]
  | |- ∃ _, _ => eexists; each_by_computation
  | |- _ => by_computation
  end.

Lemma immutable_iff_type_is_quantized_witness :
  ∃ d' state,
    initialize (new_driver quantized_arg_fn) (ArgPos 0, BlockArgument 0)
    = Some d'
    ∧ states_ d' = states_ (new_driver quantized_arg_fn) ++ [state]
    ∧ state_at d' (ArgPos 0) = Some state
    ∧ params state = getQuantizedElementType quantized_tensor
    ∧ (immutable state = true
       ↔ is_Some (getQuantizedElementType quantized_tensor)).
Proof.
  apply (immutable_iff_type_is_quantized (ArgPos 0) (BlockArgument 0)
           (new_driver quantized_arg_fn) quantized_tensor); by_computation.
Defined.

Lemma shared_value_shares_state_witness :
  ∃ i, state_index conv_initialized (ArgPos 0) = Some i
       ∧ state_index conv_initialized (OperandPos 2 0) = Some i.
Proof.
  destruct (shared_value_shares_state example_collaborators conv_fn conv_calls
              conv_initialized (ArgPos 0) (OperandPos 2 0) (BlockArgument 0))
    as (i & state & H1 & H2 & _); [by_computation..|].
  by exists i.
Defined.

Lemma conflict_queues_one_requantize_witness :
  ∃ d', SetOperandParams example_collaborators 0 1 (uniform_i8 0.125) false
          pending_driver = Some (true, d')
        ∧ states_ d' = states_ pending_driver
        ∧ rescales_at d' 0
          = rescales_at pending_driver 0
              ++ [{| pos := ON_OUTPUT; rescale_params := uniform_i8 0.125;
                     users := [(0, 1)] |}].
Proof.
  destruct (conflict_queues_one_requantize example_collaborators 0 1
              (uniform_i8 0.125) pending_driver 0
              {| params := uniform_i8 0.5; immutable := false |})
    as [_ Hoperand]; [by_computation..|].
  apply Hoperand; [by_computation|].
  repeat constructor. by_computation.
Defined.

Lemma operand_conflict_joins_pending_entry_witness :
  ∃ d', SetOperandParams example_collaborators 0 1 (uniform_i8 0.25) false
          pending_driver = Some (true, d')
        ∧ states_ d' = states_ pending_driver
        ∧ rescales_at d' 0
          = [{| pos := ON_OUTPUT; rescale_params := uniform_i8 0.25;
                users := [(0, 0); (0, 1)] |}]
        ∧ length (rescales_at d' 0) = length (rescales_at pending_driver 0)
        ∧ ∀ j, j ≠ 0 → rescales_at d' j = rescales_at pending_driver j.
Proof.
  destruct (operand_conflict_joins_pending_entry example_collaborators 0 1
              (uniform_i8 0.25) pending_driver 0
              {| params := uniform_i8 0.5; immutable := false |} [] []
              {| pos := ON_OUTPUT; rescale_params := uniform_i8 0.25;
                 users := [(0, 0)] |})
    as [Hjoin _]; [by_computation..|constructor|by_computation|].
  exact Hjoin.
Defined.

Lemma same_scale_follows_priority_order_witness :
  GetQuantParamsForSameScaleConstraint 0 split_ready
  = Some (Some (UniformQuantizedType i8_base 0.5 0)).
Proof.
  destruct (same_scale_follows_priority_order 0 split_ready
              {| name := reshape;
                 operands := [BlockArgument 1; BlockArgument 0];
                 resultTypes := [tensor_f32; tensor_f32];
                 valueAttr := None; volatile := false;
                 affineOperandIndex := None |}
              [{| params := None; immutable := false |};
               {| params := Some (UniformQuantizedType i8_base 0.5 0);
                  immutable := true |}]
              [{| params := None; immutable := false |};
               {| params := uniform_i8 0.25; immutable := false |}])
    as [_ Hfirst]; [by_computation..|].
  apply (Hfirst [{| params := None; immutable := false |}]
                {| params := Some (UniformQuantizedType i8_base 0.5 0);
                   immutable := true |} []);
    [reflexivity|repeat constructor|reflexivity|reflexivity].
Defined.

Lemma propagated_uses_get_own_constant_witness :
  ∃ d', preprocess_constant example_collaborators (new_driver two_uses_fn) 0
        = Some d'
        ∧ getOperand (fn_ d') 1 1 = Some (OpResult 0 0)
        ∧ 0 ∈ weights_ d'
        ∧ ∃ new_cst, getOperand (fn_ d') 2 1 = Some (OpResult new_cst 0)
                     ∧ 3 ≤ new_cst.
Proof.
  destruct (propagated_uses_get_own_constant example_collaborators
              (new_driver two_uses_fn) 0 (mkConst [1; 2]%float) tensor_f32)
    as (d' & Hd' & Huses & _); try by_computation.
  { intros values [= <-]. exists 1%float. split; by_computation. }
  exists d'. split; [done|].
  destruct (Huses 0 1 1) as [Hweight _]; [by_computation|].
  destruct (Huses 1 2 1) as [_ Hprop]; [by_computation|].
  destruct Hweight as [H1 H2]; [by_computation|].
  destruct Hprop as (new_cst & H3 & H4 & _); [by_computation|].
  split; [done|]. split; [done|]. by exists new_cst.
Defined.

Lemma settled_params_survive_proposals_witness :
  states_ conv_adjusted !! 0
  = Some {| params := uniform_i8 0.5; immutable := false |}
  ∨ ∃ node filter_index,
      body (fn_ conv_ready) !! 2 = Some node
      ∧ affineOperandIndex node = Some filter_index
      ∧ operand_states_ conv_adjusted !! (2, filter_index) = Some 0.
Proof.
  destruct (settled_params_survive_proposals example_collaborators 2 2
              (uniform_i32 1) [0; 1] conv_ready conv_adjusted true 0
              {| params := uniform_i8 0.5; immutable := false |})
    as (_ & _ & Hbias & _); [by_computation..|].
  apply Hbias. by_computation.
Defined.

(** The state of the filter of [conv_fn] is assigned from empty, and then
    assigned again by the bias adjustment: its parameters change twice. *)
Lemma filter_params_assigned_twice :
  params <$> states_ conv_input_set !! 1 = Some None
  ∧ operand_states_ conv_input_set !! (2, 1) = Some 1
  ∧ SetOperandParams example_collaborators 2 1 (uniform_i8 0.25) false
      conv_input_set = Some (true, conv_ready)
  ∧ params <$> states_ conv_ready !! 1 = Some (uniform_i8 0.25)
  ∧ SetBiasParamsWithAdjustments example_collaborators 2 2 [0; 1]
      (uniform_i32 1) conv_ready = Some (true, conv_adjusted)
  ∧ params <$> states_ conv_adjusted !! 1
    = Some (uniform_i8 0x1.00000004p+1)
  ∧ uniform_i8 0.25 ≠ uniform_i8 0x1.00000004p+1.
Proof. each_by_computation. Qed.

(** A conflicting operand proposal that appends nothing (an entry already
    asks for the parameters), and one that overwrites the stored
    parameters (override). *)
Lemma conflict_without_new_entry :
  params <$> states_ pending_driver !! 0 = Some (uniform_i8 0.5)
  ∧ operand_states_ pending_driver !! (0, 1) = Some 0
  ∧ uniform_i8 0.5 ≠ uniform_i8 0.25
  ∧ (∃ d', SetOperandParams example_collaborators 0 1 (uniform_i8 0.25) false
             pending_driver = Some (true, d')
           ∧ length (rescales_at d' 0) = length (rescales_at pending_driver 0))
  ∧ (∃ d', SetOperandParams example_collaborators 0 1 (uniform_i8 0.25) true
             pending_driver = Some (true, d')
           ∧ params <$> states_ d' !! 0 = Some (uniform_i8 0.25)
           ∧ rescales_at d' 0 = rescales_at pending_driver 0).
Proof. each_by_computation. Qed.

(** The constant of [three_uses_fn] has three uses, two of them weight
    uses and one propagated; the preprocessor creates one constant only,
    and the two weight uses keep reading one value, for which the
    initialization makes one state. *)
Lemma weight_uses_share_the_constant :
  getUses three_uses_fn (OpResult 0 0) = [(1, 1); (2, 1); (3, 1)]
  ∧ is_weight_use example_collaborators three_uses_fn <$> [(1, 1); (2, 1); (3, 1)]
    = [Some true; Some true; Some false]
  ∧ ∃ d', PreprocessConstantOps example_collaborators (new_driver three_uses_fn)
          = Some d'
      ∧ length (body (fn_ d')) = length (body three_uses_fn) + 1
      ∧ getOperand (fn_ d') 1 1 = Some (OpResult 0 0)
      ∧ getOperand (fn_ d') 2 1 = Some (OpResult 0 0)
      ∧ ∃ ds, for_each initialize (new_driver (fn_ d'))
                [(OperandPos 1 1, OpResult 0 0);
                 (OperandPos 2 1, OpResult 0 0);
                 (OperandPos 3 1, OpResult 4 0)] = Some ds
          ∧ state_index ds (OperandPos 1 1) = state_index ds (OperandPos 2 1).
Proof. each_by_computation. Qed.


(** C7, on a weight with a non-finite element.  The constant of
    [infinite_weight_fn] holds an infinity, after a finite first element;
    the preprocessor records it as a weight, and the propagation then
    infers its parameters from that content: here an infinite scale. *)
Theorem non_finite_weight_is_recorded :
  valueAttr <$> body infinite_weight_fn !! 0
  = Some (Some (DenseFPElementsAttr [1; infinity]%float))
  ∧ PrimFloat.is_finite infinity = false
  ∧ ∃ d', PreprocessConstantOps example_collaborators
            (new_driver infinite_weight_fn) = Some d'
      ∧ 0 ∈ weights_ d'
      ∧ ∃ ds d'',
          for_each initialize d'
            [(ResultPos 0 0, OpResult 0 0);
             (OperandPos 1 0, BlockArgument 0);
             (OperandPos 1 1, OpResult 0 0);
             (ResultPos 1 0, OpResult 1 0)] = Some ds
          ∧ propagate_constant example_collaborators 0 ds = Some (true, d'')
          ∧ params <$> GetResultQuantState 0 0 d''
            = Some (uniform_i8 infinity).
Proof. each_by_computation. Qed.

(** Taken alone, [RequantizeArg] makes no test on the positions: given
    two requantizations that disagree, it acts on the position of the
    first. *)
Lemma RequantizeArg_makes_no_test :
  pos <$> mixed_requantizes = [ON_INPUT; ON_OUTPUT]
  ∧ RequantizeOpResult 0 0 mixed_requantizes arg_fn = Some arg_fn
  ∧ ∃ fn', RequantizeArg 0 mixed_requantizes arg_fn = Some fn'
      ∧ length (body fn') = length (body arg_fn) + 1
      ∧ isa QuantizeCastOp fn' 1 = true
      ∧ getOperand fn' 1 0 = Some (BlockArgument 0).
Proof. each_by_computation. Qed.

(** On [requantized_fn] the setup and four rounds of the propagation leave
    the state shared by the result of the first reshape and by the second
    operand of the next one with two pending requantizations that ask for
    the same parameters: the one a consumer queued, and the one the
    producer queued after it.  And an operand proposal made with override
    for parameters that an entry asks for adds no user to that entry, and
    replaces the stored parameters. *)
Lemma pending_targets_repeat :
  SetupAllStates example_collaborators quantizable [0; 1; 2; 3; 4; 5; 6; 7]
    (new_driver requantized_fn) = Some requantized_set_up
  ∧ propagate_rounds example_collaborators 8 false 4
      (requantized_set_up, ∅, false) = Some requantized_propagated
  ∧ work_list_ requantized_propagated.1.1 = []
  ∧ result_states_ requantized_propagated.1.1 !! (2, 0) = Some 1
  ∧ GetOperandRequantizeStates 5 1 requantized_propagated.1.1
    = Some [{| pos := ON_OUTPUT; rescale_params := uniform_i8 0.25;
               users := [(5, 1)] |};
            {| pos := ON_INPUT; rescale_params := uniform_i8 0.25;
               users := [] |}]
  ∧ ¬ NoDup (rescale_params <$> rescales_at requantized_propagated.1.1 1)
  ∧ rescale_params <$> rescales_at pending_driver 0 = [uniform_i8 0.25]
  ∧ params <$> GetOperandQuantState 0 1 pending_driver
    = Some (uniform_i8 0.5)
  ∧ ∃ d', SetOperandParams example_collaborators 0 1 (uniform_i8 0.25) true
            pending_driver = Some (true, d')
      ∧ rescales_at d' 0 = rescales_at pending_driver 0
      ∧ params <$> GetOperandQuantState 0 1 d' = Some (uniform_i8 0.25).
Proof. each_by_computation. Qed.

(** Where no state holds two requantizations queued for operands that
    ask for the same parameters. *)
Lemma distinct_targets_everywhere d :
  map_Forall (λ _ l, distinct_targets l) (rescale_states_ d) →
  ∀ j, distinct_targets (rescales_at d j).
Proof.
  intros Hall j. unfold rescales_at.
  destruct (rescale_states_ d !! j) as [l|] eqn:Hl; simpl.
  - by eapply Hall.
  - apply NoDup_nil_2.
Qed.

Lemma materializer_acts_on_one_position_witness :
  (∃ mixed,
     GetResultRequantizeStates 2 0 requantized_propagated.1.1 = Some mixed
     ∧ pos <$> mixed = [ON_OUTPUT; ON_INPUT]
     ∧ RequantizeOpResult 2 0 mixed (fn_ requantized_propagated.1.1)
       = Some (fn_ requantized_propagated.1.1))
  ∧ ∃ states,
      GetArgRequantizeStates 0 requantized_propagated.1.1 = Some states
      ∧ pos <$> states = [ON_OUTPUT]
      ∧ queued_for_operands states
      ∧ one_position states.
Proof.
  destruct (materializer_acts_on_one_position example_collaborators
              quantizable 8 false [0; 1; 2; 3; 4; 5; 6; 7] 4
              (new_driver requantized_fn) requantized_set_up ∅ false
              requantized_propagated) as (Hresults & Hargs);
    [unfold store_is_empty; each_by_computation|by_computation..|].
  split.
  - eexists. split; [by_computation|]. split; [by_computation|].
    apply Hresults. by_computation.
  - eexists. split; [by_computation|]. split; [by_computation|].
    apply (Hargs 0). by_computation.
Defined.

(** ** Instances of the further properties *)

Lemma assignment_reports_change_witness :
  ∃ i state,
    operand_states_ conv_initialized !! (2, 0) = Some i
    ∧ states_ conv_initialized !! i = Some state
    ∧ (true = false ↔ params state = uniform_i8 0.5)
    ∧ (true = false → conv_input_set = conv_initialized)
    ∧ (true = true →
       states_ conv_input_set !! i ≠ states_ conv_initialized !! i
       ∨ rescales_at conv_input_set i ≠ rescales_at conv_initialized i).
Proof.
  apply (proj1 (assignment_reports_change example_collaborators 2 0
                  (uniform_i8 0.5) false true conv_initialized
                  conv_input_set)).
  by_computation.
Defined.

Lemma assignment_to_empty_state_settles_witness :
  ∃ d', SetOperandParams example_collaborators 2 0 (uniform_i8 0.5) false
          conv_initialized = Some (true, d')
    ∧ GetOperandQuantState 2 0 d'
      = Some {| params := uniform_i8 0.5; immutable := false |}
    ∧ SetOperandParams example_collaborators 2 0 (uniform_i8 0.5) false d'
      = Some (false, d').
Proof.
  destruct (assignment_to_empty_state_settles example_collaborators 2 0
              (uniform_i8 0.5) false conv_initialized 0
              {| params := None; immutable := false |})
    as [Hoperand _]; [by_computation..|].
  apply Hoperand. by_computation.
Defined.

Lemma assignment_keeps_the_store_shape_witness :
  fn_ conv_input_set = fn_ conv_initialized
  ∧ length (states_ conv_input_set) = length (states_ conv_initialized).
Proof.
  destruct (assignment_keeps_the_store_shape example_collaborators 2 0
              (uniform_i8 0.5) false true conv_initialized conv_input_set)
    as (H1 & H2 & _); [left; by_computation|].
  by split.
Defined.

Lemma initialization_keeps_one_state_per_value_witness :
  initial_store conv_initialized ∧ fn_ conv_initialized = conv_fn.
Proof.
  destruct (initialization_keeps_one_state_per_value conv_fn conv_calls
              conv_initialized) as (H1 & H2 & _); [by_computation|].
  by split.
Defined.

Lemma setup_gives_each_position_the_state_of_its_value_witness :
  ∃ v t i,
    position_value qdq_fn (OperandPos 2 0) = Some v
    ∧ getType qdq_fn v = Some t
    ∧ state_index qdq_set_up (OperandPos 2 0) = Some i
    ∧ value_to_state_ qdq_set_up !! v = Some i
    ∧ state_at qdq_set_up (OperandPos 2 0) = Some (initial_state t).
Proof.
  apply (setup_gives_each_position_the_state_of_its_value
           example_collaborators quantizable [0; 1; 2] (new_driver qdq_fn)
           qdq_set_up (OperandPos 2 0)).
  - unfold store_is_empty. each_by_computation.
  - by_computation.
  - by_computation.
Defined.

Lemma setup_schedules_the_quantizable_operations_witness :
  fn_ qdq_set_up = qdq_fn
  ∧ args_ qdq_set_up = [0]
  ∧ work_list_ qdq_set_up = [2].
Proof.
  destruct (setup_schedules_the_quantizable_operations example_collaborators
              quantizable [0; 1; 2] (new_driver qdq_fn) qdq_set_up)
    as (H1 & H2 & H3 & _);
    [unfold store_is_empty; each_by_computation|by_computation|].
  split_and!; [exact H1|exact H2|exact H3].
Defined.

Lemma setup_completes_witness :
  is_Some (SetupAllStates example_collaborators quantizable [0; 1; 2]
             (new_driver qdq_fn)).
Proof.
  apply setup_completes;
    [unfold store_is_empty; each_by_computation|by_computation..].
Defined.

Lemma preprocessing_only_copies_constants_witness :
  constants_copied three_uses_fn (fn_ three_uses_preprocessed).
Proof.
  apply (preprocessing_only_copies_constants example_collaborators
           (new_driver three_uses_fn) three_uses_preprocessed).
  by_computation.
Defined.

Lemma preprocessing_keeps_the_state_store_witness :
  store_is_empty three_uses_preprocessed.
Proof.
  destruct (preprocessing_keeps_the_state_store example_collaborators
              (new_driver three_uses_fn) three_uses_preprocessed)
    as (_ & _ & _ & _ & _ & _ & _ & _ & _ & _ & Hempty); [by_computation|].
  apply Hempty. unfold store_is_empty. each_by_computation.
Defined.

Lemma only_shared_constants_are_duplicated_witness :
  ∃ cst_node t use,
    body two_uses_fn !! 0 = Some cst_node
    ∧ name cst_node = ArithConstantOp
    ∧ resultTypes cst_node !! 0 = Some t
    ∧ isFloatShaped t = true
    ∧ 1 < length (getUses two_uses_fn (OpResult 0 0))
    ∧ use ∈ getUses two_uses_fn (OpResult 0 0)
    ∧ is_weight_use example_collaborators two_uses_fn use = Some false.
Proof.
  apply (only_shared_constants_are_duplicated example_collaborators
           (new_driver two_uses_fn) two_uses_preprocessed 0);
    by_computation.
Defined.

Lemma same_scale_choice_is_a_recorded_state_witness :
  ∃ p, GetQuantParamsForSameScaleConstraint 0 split_ready = Some p
    ∧ ∃ s, immutable s = true ∧ params s = p.
Proof.
  destruct (same_scale_choice_is_a_recorded_state 0 split_ready
              {| name := reshape;
                 operands := [BlockArgument 1; BlockArgument 0];
                 resultTypes := [tensor_f32; tensor_f32];
                 valueAttr := None; volatile := false;
                 affineOperandIndex := None |}
              [{| params := None; immutable := false |};
               {| params := Some (UniformQuantizedType i8_base 0.5 0);
                  immutable := true |}]
              [{| params := None; immutable := false |};
               {| params := uniform_i8 0.25; immutable := false |}])
    as (p & Hp & Himmutable & _); [by_computation..|].
  exists p. split; [exact Hp|].
  destruct Himmutable as (s & _ & Hs & Hparams); [by_computation|].
  by exists s.
Defined.

Lemma quantize_value_inserts_a_cast_pair_witness :
  ∃ fn', QuantizeValue (BlockArgument 0) (uniform_i8 0.5) conv_fn = Some fn'
    ∧ length (body fn') = length (body conv_fn) + 2
    ∧ getUses fn' (BlockArgument 0) = [(3, 0)]
    ∧ getOperand fn' 2 0 = Some (OpResult 4 0).
Proof.
  destruct (quantize_value_inserts_a_cast_pair (BlockArgument 0)
              (UniformQuantizedType i8_base 0.5 0) conv_fn tensor_f32
              quantized_tensor)
    as (fn' & Hrun & Hlen & _ & _ & _ & _ & _ & _ & Huses & Hops & _);
    [by_computation..|].
  exists fn'. split_and!; [exact Hrun|exact Hlen|exact Huses|].
  apply (Hops 2 0 (BlockArgument 0)). by_computation.
Defined.

Lemma requantize_on_input_inserts_one_cast_witness :
  ∃ fn', RequantizeValue (BlockArgument 0) mixed_requantizes arg_fn
         = Some fn'
    ∧ length (body fn') = length (body arg_fn) + 1
    ∧ getUses fn' (BlockArgument 0) = [(1, 0)].
Proof.
  destruct (requantize_on_input_inserts_one_cast (BlockArgument 0)
              {| pos := ON_INPUT; rescale_params := uniform_i8 0.5;
                 users := [] |}
              [{| pos := ON_OUTPUT; rescale_params := uniform_i8 0.25;
                  users := [(0, 0)] |}]
              (UniformQuantizedType i8_base 0.5 0) arg_fn tensor_f32
              quantized_tensor)
    as (fn' & Hrun & _ & Hlen & _ & _ & Huses & _); [by_computation..|].
  exists fn'. split_and!; [exact Hrun|exact Hlen|exact Huses].
Defined.

Lemma finalize_only_adds_casts_witness :
  only_function_differs qdq_propagated.1.1 qdq_finalized
  ∧ casts_added (fn_ qdq_propagated.1.1) (fn_ qdq_finalized).
Proof.
  apply (finalize_only_adds_casts qdq_propagated.1.1 qdq_finalized).
  by_computation.
Defined.

Lemma finalize_leaves_settled_states_witness :
  Finalize qdq_set_up = Some qdq_set_up.
Proof. apply finalize_leaves_settled_states; by_computation. Defined.

Lemma bias_check_applies_to_constant_8_bit_operands_witness :
  ∃ node qb,
    body shared_filter_fn !! 2 = Some node
    ∧ affineOperandIndex node = Some 1
    ∧ uniform_i32 boundary_scale = Some qb
    ∧ getStorageTypeIntegralWidth qb = 32%Z.
Proof.
  destruct (bias_check_applies_to_constant_8_bit_operands 2 2 [0; 1]
              (uniform_i32 boundary_scale) shared_filter_ready 0 1)
    as (node & _ & _ & _ & _ & _ & _ & _ & _ & _ & _ & qb
        & Hnode & Haffine & _ & _ & _ & _ & _ & _ & _ & _ & _ & _ & _ & _
        & _ & Hp & Hwidth); [by_computation|].
  exists node, qb. split_and!; [exact Hnode|exact Haffine|exact Hp|exact Hwidth].
Defined.

Lemma bias_proposal_without_check_is_an_assignment_witness :
  SetBiasParamsWithAdjustments example_collaborators 2 2 [0] (uniform_i32 1)
    conv_ready
  = SetOperandParams example_collaborators 2 2 (uniform_i32 1) false
      conv_ready.
Proof.
  apply (bias_proposal_without_check_is_an_assignment example_collaborators
           2 2 [0] (uniform_i32 1) conv_ready
           (mkOp conv [BlockArgument 0; OpResult 0 0; OpResult 1 0])
           (OpResult 1 0)); [by_computation..|].
  right. right. by_computation.
Defined.

Lemma duplicated_constant_gets_a_state_of_its_own_witness :
  ∃ d', DuplicateConstantOpIfNeeded 0 2 1 shared_filter_ready = Some (4, d')
    ∧ getOperand (fn_ d') 2 1 = Some (OpResult 4 0)
    ∧ states_ d'
      = states_ shared_filter_ready ++ [initial_state tensor_f32].
Proof.
  destruct (duplicated_constant_gets_a_state_of_its_own 0 2 1
              shared_filter_ready (mkConst [0.5; -0.25]%float) tensor_f32
              (OpResult 0 0)) as [_ Hclone]; [by_computation..|].
  destruct Hclone as (d' & Hrun & _ & _ & Hoperand & _ & Hstates & _);
    [by_computation|].
  exists d'. split_and!; [exact Hrun|exact Hoperand|exact Hstates].
Defined.

Lemma adjust_scales_is_channelwise_witness :
  ∃ bs fs flag,
    adjust_scales 0.5 [1073741824; -3]%float [1; 1]%float [2; 2]%float
    = Some (bs, fs, flag)
    ∧ length bs = 2 ∧ length fs = 2.
Proof.
  destruct (adjust_scales_is_channelwise 0.5 [1073741824; -3]%float
              [1; 1]%float [2; 2]%float)
    as (bs & fs & flag & Hrun & Hbs & Hfs & _); [simpl; lia..|].
  by exists bs, fs, flag.
Defined.

Lemma same_scale_parameters_reach_every_float_position_witness :
  ∃ k, result_states_ qdq_set_up !! (2, 0) = Some k
       ∧ carries (uniform_i8 0.5) qdq_broadcast.2 k.
Proof.
  destruct (same_scale_parameters_reach_every_float_position
              example_collaborators 2 (uniform_i8 0.5) false qdq_broadcast.1
              qdq_set_up qdq_broadcast.2 (mkOp reshape [OpResult 1 0]))
    as (_ & _ & Hresults & _); [by_computation..|].
  apply (Hresults 0 tensor_f32); by_computation.
Defined.

Lemma propagation_keeps_what_is_recorded_witness :
  store_extended qdq_set_up qdq_propagated.1.1.
Proof.
  apply (propagation_keeps_what_is_recorded example_collaborators 8 false 2
           (qdq_set_up, ∅, false) qdq_propagated).
  by_computation.
Defined.

Lemma propagation_keeps_operand_requantizations_distinct_witness :
  rescales_at requantized_round.1.1 0
  = [{| pos := ON_OUTPUT; rescale_params := uniform_i8 0.5;
        users := [(7, 1)] |}]
  ∧ rescales_at requantized_propagated.1.1 0
    = [{| pos := ON_OUTPUT; rescale_params := uniform_i8 0.5;
          users := [(7, 1); (6, 1)] |}]
  ∧ distinct_targets (rescales_at requantized_propagated.1.1 0)
  ∧ operand_targets (rescales_at requantized_propagated.1.1 1)
    = [uniform_i8 0.25]
  ∧ distinct_targets (rescales_at requantized_propagated.1.1 1).
Proof.
  assert (∀ j, distinct_targets (rescales_at requantized_propagated.1.1 j))
    as Hdistinct.
  { apply (propagation_keeps_operand_requantizations_distinct
             example_collaborators 8 false 3 requantized_round
             requantized_propagated); [by_computation|].
    apply distinct_targets_everywhere. by_computation. }
  split_and!; [by_computation|by_computation|apply Hdistinct|by_computation
              |apply Hdistinct].
Defined.

Lemma unresolved_same_scale_operation_is_deferred_witness :
  propagate_op example_collaborators 8 false 0 (plain_reshape_set_up, ∅, false)
  = Some (plain_reshape_set_up, ∅, false).
Proof.
  apply (unresolved_same_scale_operation_is_deferred example_collaborators
           8 false 0 plain_reshape_set_up ∅ false
           (mkOp reshape [BlockArgument 0])
           [{| params := None; immutable := false |}]
           [{| params := None; immutable := false |}]);
    by_computation.
Defined.

Lemma constants_get_parameters_only_as_unquantized_weights_witness :
  weights_round.1.2 = {[0]} ∪ ∅
  ∧ ((weights_round.1.1 = weights_set_up ∧ weights_round.2 = false)
     ∨ (infer_tensor_range_ example_collaborators = true
        ∧ 0 ∈ weights_ weights_set_up
        ∧ IsQuantized 0 weights_set_up = Some false
        ∧ ∃ content q c,
            matchConstant (fn_ weights_set_up) (OpResult 0 0) = Some content
            ∧ ((∃ dim, optimized_weights_ weights_set_up !! 0 = Some dim
                  ∧ dim ≠ (-1)%Z
                  ∧ is_signed_ example_collaborators = true
                  ∧ disable_per_channel_ example_collaborators = false
                  ∧ GetUniformQuantizedPerAxisTypeForWeight
                      example_collaborators content dim true 8%Z true true
                      (legacy_float_scale_ example_collaborators)
                    = Some q)
               ∨ ((optimized_weights_ weights_set_up !! 0 = None
                   ∨ optimized_weights_ weights_set_up !! 0 = Some (-1)%Z
                   ∨ is_signed_ example_collaborators = false
                   ∨ disable_per_channel_ example_collaborators = true)
                  ∧ GetUniformQuantizedTypeForWeight example_collaborators
                      content
                      (bool_decide
                         (is_Some (optimized_weights_ weights_set_up !! 0))
                       && is_signed_ example_collaborators)
                      8%Z (is_signed_ example_collaborators)
                      (bool_decide
                         (is_Some (optimized_weights_ weights_set_up !! 0)))
                      (legacy_float_scale_ example_collaborators)
                    = Some q))
            ∧ SetResultParams example_collaborators 0 0 (Some q)
                weights_set_up = Some (c, weights_round.1.1)
            ∧ weights_round.2 = false || c)).
Proof.
  apply (constants_get_parameters_only_as_unquantized_weights
           example_collaborators 8 false 0 weights_set_up weights_round.1.1
           ∅ weights_round.1.2 false weights_round.2);
    by_computation.
Defined.

Lemma requantize_on_output_redirects_the_users_witness :
  ∃ fn', RequantizeValue (OpResult 0 0)
           [{| pos := ON_OUTPUT; rescale_params := uniform_i8 0.25;
               users := [(2, 0)] |}] qdq_fn = Some fn'
    ∧ length (body fn') = S (length (body qdq_fn))
    ∧ getOperand fn' 1 0 = Some (OpResult 3 0).
Proof.
  destruct (requantize_on_output_redirects_the_users (OpResult 0 0)
              {| pos := ON_OUTPUT; rescale_params := uniform_i8 0.25;
                 users := [(2, 0)] |}
              qdq_fn 1 0 quantized_tensor tensor_f32
              (ShapedType [4%Z]
                 (Quantized (UniformQuantizedType i8_base 0.25 0)))
              (UniformQuantizedType i8_base 0.25 0))
    as [Hclobber _]; [by_computation..|].
  destruct Hclobber as (fn' & Hrun & Hlen & _ & Hoperand & _);
    [by_computation|].
  exists fn'. split_and!; [exact Hrun|exact Hlen|exact Hoperand].
Defined.
